(** * mach_five trading system: order store, dispatcher, ingester, broker adapter

    A shallow embedding of the Go sources
      internal/models, internal/cache/redis.go, internal/trigger/trigger.go,
      internal/broker/{broker,kite,market_hours}.go, internal/reader/sheets.go,
      internal/config/config.go, and of the earlier broker manager with
      retries and order splitting,
    followed by the properties of the pipeline between ingestion and
    dispatch.  Definitions come first, theorems afterwards. *)

From Stdlib Require Import ZArith Lia SpecFloat Ascii String.
From stdpp Require Import base option strings list gmap pretty sorting.

Local Open Scope string_scope.
Local Open Scope Z_scope.

(** ** Errors (Go's [error] values built with [fmt.Errorf]) *)

(** [RedisNil] is go-redis's [redis.Nil]; [RedisIO] any other failure of a
    Redis command; [CtxErr] the error of a cancelled context;
    [Errorf msg] is [fmt.Errorf(msg)] and [Wrapf msg cause] is
    [fmt.Errorf(msg + ": %w", cause)]. *)
Inductive error : Type :=
  | RedisNil
  | RedisIO
  | CtxErr
  | Errorf (msg : string)
  | Wrapf (msg : string) (cause : error).

(** [err.Error()] *)
Fixpoint Error (e : error) : string :=
  match e with
  | RedisNil => "redis: nil"
  | RedisIO => "redis: i/o failure"
  | CtxErr => "context canceled"
  | Errorf msg => msg
  | Wrapf msg c => msg +:+ ": " +:+ Error c
  end.

(** A Go result pair [(value, error)] of which one side is meaningful. *)
Inductive result (A : Type) : Type :=
  | Ok (a : A)
  | Err (e : error).
Arguments Ok {A} a.
Arguments Err {A} e.

(** [fmt.Sprintf("%d", n)] *)
Definition Sprintf_d (n : Z) : string := pretty n.

(** ** Go strings: a string is its sequence of bytes *)

(** [len(s)] *)
Definition len (s : string) : Z := Z.of_nat (String.length s).

Fixpoint take (n : nat) (s : string) : string :=
  match n, s with
  | S n', String a s' => String a (take n' s')
  | _, _ => EmptyString
  end.

Fixpoint drop (n : nat) (s : string) : string :=
  match n, s with
  | S n', String _ s' => drop n' s'
  | _, _ => s
  end.

(** [s[:n]] and [s[n:]]: [None] where Go panics on the bounds. *)
Definition slice_to (s : string) (n : Z) : option string :=
  if (n <? 0) || (len s <? n) then None else Some (take (Z.to_nat n) s).

Definition slice_from (s : string) (n : Z) : option string :=
  if (n <? 0) || (len s <? n) then None else Some (drop (Z.to_nat n) s).

Fixpoint stars (n : nat) : string :=
  match n with
  | O => EmptyString
  | S n' => String "*" (stars n')
  end.

(** [strings.Repeat("*", count)]: [None] where Go panics on a negative
    count. *)
Definition Repeat_star (count : Z) : option string :=
  if count <? 0 then None else Some (stars (Z.to_nat count)).

(** The value of an [int] expression on the 64-bit targets the system is
    built for: the mathematical result [z] after wrap-around. *)
Definition wrap_int (z : Z) : Z := (z + 2 ^ 63) `mod` 2 ^ 64 - 2 ^ 63.

(** ** Instants and durations (Go's [time.Time], [time.Duration]) *)
Module time.

(** An instant is its number of nanoseconds since the Unix epoch; a
    [Duration] is an int64 count of nanoseconds. *)
Definition Nanosecond : Z := 1.
Definition Second : Z := 1000000000.
Definition minDuration : Z := - 2 ^ 63.
Definition maxDuration : Z := 2 ^ 63 - 1.

(** [t.Sub(u)]: the difference, saturated to the range of [Duration]. *)
Definition Sub (t u : Z) : Z :=
  let d := t - u in
  if d <? minDuration then minDuration
  else if maxDuration <? d then maxDuration
  else d.

(** [time.Until(t)] evaluated when the clock reads [now]. *)
Definition Until (now t : Z) : Z := Sub t now.

Definition Add (t d : Z) : Z := t + d.
Definition After (t u : Z) : bool := u <? t.
Definition Before (t u : Z) : bool := t <? u.

(** [t.Unix()]: whole seconds since the epoch (rounded down). *)
Definition Unix (t : Z) : Z := t `div` Second.

(** A location is a fixed offset east of UTC, in seconds.  Asia/Kolkata
    has been UTC+05:30 for every instant since 1945. *)
Definition Location := Z.
Definition UTC : Location := 0.
Definition Kolkata : Location := 5 * 3600 + 30 * 60.

(** [time.LoadLocation("Asia/Kolkata")] with the callers' fallback to
    UTC when the zone database is missing. *)
Definition LoadLocationOrUTC (tzdata : bool) : Location :=
  if tzdata then Kolkata else UTC.

Definition wallSeconds (loc : Location) (t : Z) : Z := Unix t + loc.

(** [t.In(loc).Hour()], [.Minute()], [.Weekday()] (Sunday = 0). *)
Definition Hour (loc : Location) (t : Z) : Z :=
  (wallSeconds loc t `mod` 86400) `div` 3600.
Definition Minute (loc : Location) (t : Z) : Z :=
  (wallSeconds loc t `mod` 3600) `div` 60.
Definition Weekday (loc : Location) (t : Z) : Z :=
  (wallSeconds loc t `div` 86400 + 4) `mod` 7.

Definition Sunday : Z := 0.
Definition Saturday : Z := 6.

(** [time.Date(y, m, d, hour, 0, 0, 0, loc)], where (y, m, d) is the civil
    date of [t] in [loc]. *)
Definition DateAtHour (loc : Location) (t : Z) (hour : Z) : Z :=
  ((wallSeconds loc t `div` 86400) * 86400 + hour * 3600 - loc) * Second.

(** The duration [time.Hour]. *)
Definition HourDuration : Z := 3600 * Second.

(** [t.In(loc).Second()]: the second within the minute. *)
Definition SecondOf (loc : Location) (t : Z) : Z := wallSeconds loc t `mod` 60.

(** [time.Date(d.Year(), d.Month(), d.Day(), t.Hour(), t.Minute(),
    t.Second(), 0, loc)] for two instants [d] and [t] that [time.Parse]
    returned, which it gives in UTC: the civil day of [d] at the time of
    day of [t], read in [loc]. *)
Definition DateAndTime (loc : Location) (d t : Z) : Z :=
  ((wallSeconds UTC d `div` 86400) * 86400
   + Hour UTC t * 3600 + Minute UTC t * 60 + SecondOf UTC t - loc) * Second.

End time.

(** ** internal/models *)
Module models.

Record Order : Type := {
  ID : string;
  Symbol : string;
  Exchange : string;
  Price : spec_float;
  Quantity : Z;
  OrderType : string;
  Side : string;
  ScheduledTime : Z;
  CreatedAt : Z;
  IsAMO : bool
}.

Record OrderCacheEntry : Type := {
  entry_Order : Order;
  ExpiryTime : Z;
  entry_CreatedAt : Z
}.

Record ExecutionResult : Type := {
  OrderID : string;
  Success : bool;
  ExecutionID : string;
  ExecutedAt : Z;
  ErrorMessage : string;
  ExecutedPrice : spec_float;
  ExecutedQuantity : Z
}.

(** The zero value [models.ExecutionResult{}]. *)
Definition ExecutionResult_zero : ExecutionResult :=
  {| OrderID := ""; Success := false; ExecutionID := ""; ExecutedAt := 0;
     ErrorMessage := ""; ExecutedPrice := S754_zero false;
     ExecutedQuantity := 0 |}.

(** What a Redis string key holds.  [JSON e] stands for a JSON text
    that [json.Unmarshal] decodes to the entry [e]; [Raw s] is any other
    text (the lock token, or bytes that do not decode). *)
Inductive Data : Type :=
  | JSON (e : OrderCacheEntry)
  | Raw (s : string).

(** encoding/json refuses NaN and the infinities. *)
Definition json_float_ok (f : spec_float) : bool :=
  match f with
  | S754_nan | S754_infinity _ => false
  | _ => true
  end.

(** [time.Time] marshals only with a year from 0 to 9999, read in the
    location the instant carries.  Locations lie within a day of UTC, so
    an instant from 0000-01-02 up to 9999-12-31, both at midnight UTC, is
    within those years in every location. *)
Definition json_time_ok (t : Z) : bool :=
  (-62167132800 * time.Second <=? t) && (t <? 253402214400 * time.Second).

(** The byte [a] lies in [lo, hi]. *)
Definition byte_in (lo hi : N) (a : ascii) : bool :=
  ((lo <=? N_of_ascii a) && (N_of_ascii a <=? hi))%N.

(** [utf8.DecodeRuneInString(s)]: the width of the encoding at the head
    of [s], [None] where it gives [RuneError] with width 1 (a byte that
    starts no well-formed encoding) or [s] is empty. *)
Definition runeWidth (s : string) : option nat :=
  match s with
  | EmptyString => None
  | String s0 rest =>
    let b := N_of_ascii s0 in
    if (b <? 128)%N then Some 1%nat
    else
      let '(size, lo, hi) :=
        if ((194 <=? b) && (b <=? 223))%N then (2%nat, 128%N, 191%N)
        else if (b =? 224)%N then (3%nat, 160%N, 191%N)
        else if (b =? 237)%N then (3%nat, 128%N, 159%N)
        else if ((225 <=? b) && (b <=? 239))%N then (3%nat, 128%N, 191%N)
        else if (b =? 240)%N then (4%nat, 144%N, 191%N)
        else if ((241 <=? b) && (b <=? 243))%N then (4%nat, 128%N, 191%N)
        else if (b =? 244)%N then (4%nat, 128%N, 143%N)
        else (0%nat, 0%N, 0%N) in
      match size, rest with
      | 2%nat, String s1 _ => if byte_in lo hi s1 then Some 2%nat else None
      | 3%nat, String s1 (String s2 _) =>
        if byte_in lo hi s1 && byte_in 128 191 s2 then Some 3%nat else None
      | 4%nat, String s1 (String s2 (String s3 _)) =>
        if byte_in lo hi s1 && byte_in 128 191 s2 && byte_in 128 191 s3
        then Some 4%nat else None
      | _, _ => None
      end
  end.

(** A string after [json.Marshal] and [json.Unmarshal]: well-formed
    encodings are kept, and every byte that starts none is replaced by
    U+FFFD (the bytes EF BF BD).  [pending] counts the bytes still to copy
    of the encoding under way. *)
Fixpoint json_bytes (pending : nat) (s : string) : string :=
  match s with
  | EmptyString => EmptyString
  | String a rest =>
    match pending with
    | S pending' => String a (json_bytes pending' rest)
    | O =>
      match runeWidth s with
      | Some width => String a (json_bytes (Nat.pred width) rest)
      | None =>
        String (ascii_of_N 239) (String (ascii_of_N 191) (String (ascii_of_N 189)
          (json_bytes 0 rest)))
      end
    end
  end.

Definition json_string (s : string) : string := json_bytes 0 s.
(** An order and an entry as they come back from their JSON text: the
    strings go through [json_string]; numbers, instants and the flag are
    kept. *)
Definition json_order (o : Order) : Order :=
  {| ID := json_string (ID o); Symbol := json_string (Symbol o);
     Exchange := json_string (Exchange o); Price := Price o;
     Quantity := Quantity o; OrderType := json_string (OrderType o);
     Side := json_string (Side o); ScheduledTime := ScheduledTime o;
     CreatedAt := CreatedAt o; IsAMO := IsAMO o |}.

Definition json_entry (e : OrderCacheEntry) : OrderCacheEntry :=
  {| entry_Order := json_order (entry_Order e); ExpiryTime := ExpiryTime e;
     entry_CreatedAt := entry_CreatedAt e |}.

(** [e.ToJSON()], i.e. [json.Marshal(e)]: the text decodes to
    [json_entry e].  The instants of an entry are taken within years
    0..9999, where [time.Time] always marshals; outside them
    [json.Marshal] fails, a case the model leaves out ([json_time_ok]
    names instants that are inside). *)
Definition ToJSON (e : OrderCacheEntry) : option Data :=
  if json_float_ok (Price (entry_Order e)) then Some (JSON (json_entry e)) else None.

(** [e.FromJSON(data)], i.e. [json.Unmarshal(data, e)]: a JSON text
    gives the entry it decodes to, any other text an error. *)
Definition FromJSON (d : Data) : option OrderCacheEntry :=
  match d with
  | JSON e => Some e
  | Raw _ => None
  end.

(** [GenerateOrderID]; [rfc3339] is [scheduledTime.Format(time.RFC3339)]. *)
Definition GenerateOrderID (rfc3339 : Z → string) (symbol : string)
    (scheduledTime : Z) : string :=
  symbol +:+ ":" +:+ rfc3339 scheduledTime.

End models.

(** ** The Redis server as the cache sees it *)
Module redis.
Import models.

(** String keys hold a value and the TTL (in nanoseconds) they were set
    with; sorted sets hold (score, member) pairs, ordered by score and
    then by member, each member once.  The two kinds of key used by the
    program never share a name.  Dropping a key whose TTL has run out is
    the server's own step, [Expire]; commands never see time.
    [faults] is the schedule of transport failures: each command consumes
    one flag, and a raised flag makes that command fail with [RedisIO]
    without reaching the data; an empty schedule is a healthy server. *)
Record State : Type := {
  kv : gmap string (Data * Z);
  zsets : gmap string (list (Z * string));
  faults : list bool
}.

(** A command: a state transformer with a result. *)
Definition Cmd (A : Type) : Type := State → result A * State.

Definition with_kv (st : State) (m : gmap string (Data * Z)) : State :=
  {| kv := m; zsets := zsets st; faults := faults st |}.
Definition with_zsets (st : State) (z : gmap string (list (Z * string))) : State :=
  {| kv := kv st; zsets := z; faults := faults st |}.

Definition reach (st : State) : bool * State :=
  match faults st with
  | [] => (false, st)
  | failed :: fs => (failed, {| kv := kv st; zsets := zsets st; faults := fs |})
  end.

(** Sorted-set primitives. *)
Definition zlt (a b : Z * string) : bool :=
  (a.1 <? b.1) || ((a.1 =? b.1) && String.ltb a.2 b.2).

Fixpoint zinsert (x : Z * string) (l : list (Z * string)) : list (Z * string) :=
  match l with
  | [] => [x]
  | y :: l' => if zlt x y then x :: y :: l' else y :: zinsert x l'
  end.

Definition zrem (member : string) (l : list (Z * string)) : list (Z * string) :=
  filter (λ p, p.2 ≠ member) l.

Definition zadd (score : Z) (member : string) (l : list (Z * string))
    : list (Z * string) :=
  zinsert (score, member) (zrem member l).

Definition zrange (lo hi : Z) (l : list (Z * string)) : list string :=
  (filter (λ p, lo ≤ p.1 ≤ hi) l).*2.

Definition zset (st : State) (key : string) : list (Z * string) :=
  default [] (zsets st !! key).

(** SET key value PX ttl *)
Definition Set_ (key : string) (value : Data) (ttl : Z) : Cmd unit := λ st,
  let '(failed, st1) := reach st in
  if failed then (Err RedisIO, st1)
  else (Ok (), with_kv st1 (<[key := (value, ttl)]> (kv st1))).

(** GET key: [redis.Nil] when the key is absent. *)
Definition Get (key : string) : Cmd Data := λ st,
  let '(failed, st1) := reach st in
  if failed then (Err RedisIO, st1)
  else match kv st1 !! key with
       | Some (value, _) => (Ok value, st1)
       | None => (Err RedisNil, st1)
       end.

(** DEL key *)
Definition Del (key : string) : Cmd unit := λ st,
  let '(failed, st1) := reach st in
  if failed then (Err RedisIO, st1)
  else (Ok (), with_kv st1 (delete key (kv st1))).

(** SET key value NX PX ttl: true iff the key was absent and is now set. *)
Definition SetNX (key : string) (value : Data) (ttl : Z) : Cmd bool := λ st,
  let '(failed, st1) := reach st in
  if failed then (Err RedisIO, st1)
  else match kv st1 !! key with
       | Some _ => (Ok false, st1)
       | None => (Ok true, with_kv st1 (<[key := (value, ttl)]> (kv st1)))
       end.

(** ZADD key score member *)
Definition ZAdd (key : string) (score : Z) (member : string) : Cmd unit := λ st,
  let '(failed, st1) := reach st in
  if failed then (Err RedisIO, st1)
  else (Ok (), with_zsets st1 (<[key := zadd score member (zset st1 key)]> (zsets st1))).

(** ZREM key member *)
Definition ZRem (key : string) (member : string) : Cmd unit := λ st,
  let '(failed, st1) := reach st in
  if failed then (Err RedisIO, st1)
  else (Ok (), with_zsets st1 (<[key := zrem member (zset st1 key)]> (zsets st1))).

(** ZRANGEBYSCORE key lo hi *)
Definition ZRangeByScore (key : string) (lo hi : Z) : Cmd (list string) := λ st,
  let '(failed, st1) := reach st in
  if failed then (Err RedisIO, st1)
  else (Ok (zrange lo hi (zset st1 key)), st1).

(** The server drops a key whose TTL has run out. *)
Definition Expire (key : string) (st : State) : State :=
  with_kv st (delete key (kv st)).

End redis.

(** ** internal/cache/redis.go *)
Module cache.
Import models redis.

Definition orderKey (orderID : string) : string := "order:" +:+ orderID.
Definition lockKey (orderID : string) : string := "lock:order:" +:+ orderID.
Definition pending_orders : string := "pending_orders".

(** [StoreOrder(order, expiryTime)]; [createdAt] and [now] are the two
    readings of [time.Now()], for the entry and for [time.Until]. *)
Definition StoreOrder (createdAt now : Z) (order : Order) (expiryTime : Z)
    : Cmd unit := λ st,
  let orderID := ID order in
  let entry := {| entry_Order := order; ExpiryTime := expiryTime;
                  entry_CreatedAt := createdAt |} in
  match ToJSON entry with
  | None => (Err (Wrapf "failed to marshal order" (Errorf "json: unsupported value")), st)
  | Some data =>
    let key := orderKey orderID in
    let ttl := time.Until now expiryTime in
    if ttl <=? 0 then (Err (Errorf "expiry time is in the past"), st)
    else
      match Set_ key data ttl st with
      | (Err err, st1) => (Err (Wrapf "failed to store order" err), st1)
      | (Ok _, st1) =>
        let score := time.Unix (ScheduledTime order) in
        match ZAdd pending_orders score orderID st1 with
        | (Err err, st2) => (Err (Wrapf "failed to add to pending orders" err), st2)
        | (Ok _, st2) => (Ok (), st2)
        end
      end
  end.

(** [RemoveOrder(orderID)] *)
Definition RemoveOrder (orderID : string) : Cmd unit := λ st,
  let key := orderKey orderID in
  match Del key st with
  | (Err err, st1) => (Err (Wrapf "failed to remove order" err), st1)
  | (Ok _, st1) =>
    match ZRem pending_orders orderID st1 with
    | (Err err, st2) => (Err (Wrapf "failed to remove from pending orders" err), st2)
    | (Ok _, st2) => (Ok (), st2)
    end
  end.

(** The body of the loop of [GetOrdersDueForExecution] over the ids the
    index returned; [orders] is the slice built so far. *)
Fixpoint collectDue (now : Z) (orderIDs : list string) (orders : list Order)
    (st : State) : list Order * State :=
  match orderIDs with
  | [] => (orders, st)
  | orderID :: rest =>
    let key := orderKey orderID in
    match Get key st with
    | (Err RedisNil, st1) =>
      (* expired or removed: drop the index entry, result ignored *)
      let '(_, st2) := ZRem pending_orders orderID st1 in
      collectDue now rest orders st2
    | (Err _, st1) => collectDue now rest orders st1
    | (Ok data, st1) =>
      match FromJSON data with
      | None => collectDue now rest orders st1
      | Some entry =>
        if time.After now (ExpiryTime entry) then
          let '(_, st2) := RemoveOrder (ID (entry_Order entry)) st1 in
          collectDue now rest orders st2
        else collectDue now rest (orders ++ [entry_Order entry])%list st1
      end
    end
  end.

(** [GetOrdersDueForExecution(now)] *)
Definition GetOrdersDueForExecution (now : Z) : Cmd (list Order) := λ st,
  let maxScore := time.Unix now in
  match ZRangeByScore pending_orders 0 maxScore st with
  | (Err err, st1) => (Err (Wrapf "failed to query pending orders" err), st1)
  | (Ok orderIDs, st1) =>
    let '(orders, st2) := collectDue now orderIDs [] st1 in
    (Ok orders, st2)
  end.

(** [TryLock(orderID, ttl)] *)
Definition TryLock (orderID : string) (ttl : Z) : State → (bool * option error) * State := λ st,
  let lockKey := lockKey orderID in
  match SetNX lockKey (Raw "1") ttl st with
  | (Err err, st1) => ((false, Some (Wrapf "failed to acquire lock" err)), st1)
  | (Ok result, st1) => ((result, None), st1)
  end.

(** [ReleaseLock(orderID)] *)
Definition ReleaseLock (orderID : string) : Cmd unit := λ st,
  let lockKey := lockKey orderID in
  Del lockKey st.

End cache.

(** ** internal/broker/market_hours.go *)
Module market_hours.

(** Minutes from midnight. *)
Record MarketHours : Type := {
  OpenTime : Z;
  CloseTime : Z
}.

Definition NewMarketHours : MarketHours :=
  {| OpenTime := 9 * 60 + 0; CloseTime := 15 * 60 + 30 |}.

(** [IsMarketOpen(now)]; [tzdata] tells whether the zone database has
    Asia/Kolkata. *)
Definition IsMarketOpen (tzdata : bool) (m : MarketHours) (now : Z) : bool :=
  let istLocation := time.LoadLocationOrUTC tzdata in
  let weekday := time.Weekday istLocation now in
  if (weekday =? time.Saturday) || (weekday =? time.Sunday) then false
  else
    let hour := time.Hour istLocation now in
    let minute := time.Minute istLocation now in
    let minutesFromMidnight := hour * 60 + minute in
    (OpenTime m <=? minutesFromMidnight) && (minutesFromMidnight <? CloseTime m).

Definition ShouldUseAMO (tzdata : bool) (m : MarketHours) (now : Z) : bool :=
  negb (IsMarketOpen tzdata m now).

(** The weekend loop of [GetNextMarketOpenTime]; [fuel] bounds the number
    of times its condition is tested. *)
Fixpoint skipWeekends (fuel : nat) (loc : time.Location) (marketOpen : Z) : option Z :=
  match fuel with
  | O => None
  | S fuel' =>
    if (time.Weekday loc marketOpen =? time.Saturday)
       || (time.Weekday loc marketOpen =? time.Sunday)
    then skipWeekends fuel' loc (time.Add marketOpen (24 * time.HourDuration))
    else Some marketOpen
  end.

(** [GetNextMarketOpenTime(now)] *)
Definition GetNextMarketOpenTime (fuel : nat) (tzdata : bool) (m : MarketHours)
    (now : Z) : option Z :=
  let istLocation := time.LoadLocationOrUTC tzdata in
  let marketOpen := time.DateAtHour istLocation now 9 in
  let marketOpen :=
    if time.After now marketOpen && negb (IsMarketOpen tzdata m now)
    then time.Add marketOpen (24 * time.HourDuration)
    else marketOpen in
  skipWeekends fuel istLocation marketOpen.

End market_hours.

(** ** internal/reader/sheets.go *)
Module reader.
Import models redis.

(** [shouldUseAMO(scheduledTime)]: the hours test alone, whatever the
    day of the week. *)
Definition shouldUseAMO (tzdata : bool) (scheduledTime : Z) : bool :=
  let istLocation := time.LoadLocationOrUTC tzdata in
  let hour := time.Hour istLocation scheduledTime in
  let minute := time.Minute istLocation scheduledTime in
  let minutesFromMidnight := hour * 60 + minute in
  let openTime := 9 * 60 + 0 in
  let closeTime := 15 * 60 + 30 in
  (minutesFromMidnight <? openTime) || (closeTime <=? minutesFromMidnight).

(** What the loop body of [parseRows] has read from the cells of a row
    when it comes to build the orders: the parsed price, the trimmed
    symbol, the instant [time.Date(date, time, IST)], the result of
    [strconv.Atoi] on the lots cell ([None] on a parse error), the total
    quantity read from the quantity cell or computed from the money
    needed, and the trimmed exchange cell. *)
Record Row : Type := {
  row_price : spec_float;
  row_symbol : string;
  row_scheduledTime : Z;
  row_lots : option Z;
  row_totalQuantity : Z;
  row_exchange : string
}.

Definition upper (a : ascii) : ascii :=
  let n := N_of_ascii a in
  if ((97 <=? n) && (n <=? 122))%N then ascii_of_N (n - 32) else a.

(** Every byte of [s] is below 0x80: the text is ASCII. *)
Fixpoint isASCII (s : string) : bool :=
  match s with
  | EmptyString => true
  | String a s' => (N_of_ascii a <? 128)%N && isASCII s'
  end.

(** [strings.ToUpper] as it works on ASCII text: a..z go to A..Z and every
    other byte is kept.  (Text with a byte from 0x80 on Go upper-cases
    rune by rune with the Unicode tables, which are not modelled.) *)
Fixpoint ToUpper (s : string) : string :=
  match s with
  | EmptyString => EmptyString
  | String a s' => String (upper a) (ToUpper s')
  end.

(** The orders built from what was read of one row: of the loop body of
    [parseRows], the symbol check, the defaults of lots, quantity and
    exchange, the past check and the lot loop.  The reading of the cells,
    with the other checks that skip a row, is [readRow] below.  [now] is
    the reading of the clock at the start of [parseRows], [nowIST] the
    reading for this row.  Quantities and the loop counter stay within
    [1, totalQuantity] and [1, lots + 1], so Go's int never wraps. *)
Definition parseRow (tzdata : bool) (rfc3339 : Z → string) (side : string)
    (now nowIST : Z) (row : Row) : list Order :=
  let price := row_price row in
  let symbol := row_symbol row in
  if decide (symbol = "") then []
  else
    let lots := match row_lots row with
                | Some lots => if lots <=? 0 then 1 else lots
                | None => 1
                end in
    let totalQuantity := row_totalQuantity row in
    let totalQuantity := if totalQuantity <=? 0 then 1 else totalQuantity in
    let baseQuantity := totalQuantity `quot` lots in
    let remainder := totalQuantity `rem` lots in
    let exchange := row_exchange row in
    let exchange := if decide (exchange = "") then "NSE" else exchange in
    let exchange := ToUpper exchange in
    let scheduledTime := row_scheduledTime row in
    if time.Before scheduledTime nowIST then []
    else
      let isAMO := shouldUseAMO tzdata scheduledTime in
      (λ orderNum,
         let orderQuantity :=
           if orderNum <=? remainder then baseQuantity + 1 else baseQuantity in
         let orderID := GenerateOrderID rfc3339 symbol scheduledTime in
         let orderID :=
           if 1 <? lots then orderID +:+ "-" +:+ Sprintf_d orderNum else orderID in
         {| ID := orderID; Symbol := symbol; Exchange := exchange;
            Price := price; Quantity := orderQuantity; OrderType := "LIMIT";
            Side := side; ScheduledTime := scheduledTime; CreatedAt := now;
            IsAMO := isAMO |}) <$> seqZ 1 lots.

(** [strings.Contains(s, substr)] *)
Fixpoint Contains (s substr : string) : bool :=
  String.prefix substr s
  || match s with
     | EmptyString => false
     | String _ s' => Contains s' substr
     end.

Section Cells.

(** A cell as the Sheets API delivers it (an [interface{}]), and the
    library functions the loop reads it with: [fmt.Sprintf("%v", cell)],
    [strings.TrimSpace], [strings.ToLower], [strconv.ParseFloat(s, 64)]
    with its value and its error, [strconv.Atoi] ([None] on an error: the
    code ignores the value then), [time.Parse(layout, value)] ([None] on
    an error, else the instant, which is in UTC) and the conversion
    [int(f)] of a float64. *)
Variable Cell : Type.
Variable Sprintf_v : Cell → string.
Variable TrimSpace : string → string.
Variable ToLower : string → string.
Variable ParseFloat : string → spec_float * option error.
Variable Atoi : string → option Z.
Variable Parse : string → string → option Z.
Variable int_of_float64 : spec_float → Z.

(** [strings.TrimSpace(fmt.Sprintf("%v", cell))] *)
Definition cellText (cell : Cell) : string := TrimSpace (Sprintf_v cell).

Definition dateFormats : list string :=
  ["2006-01-02"; "02-Jan-2006"; "02-January-2006"; "2006/01/02"; "02/01/2006"].
Definition timeFormats : list string :=
  ["15:04:05"; "15:04"; "3:04 PM"; "15:04:05 PM"].

(** The loop over the layouts: the first one that parses wins. *)
Fixpoint firstParse (formats : list string) (value : string) : option Z :=
  match formats with
  | [] => None
  | format :: rest =>
    match Parse format value with
    | Some parsed => Some parsed
    | None => firstParse rest value
    end
  end.

(** The reading of one row in the loop body of [parseRows]: [None] where
    the row is skipped ([continue]) before its orders are built.  A row
    of fewer than 10 cells is skipped; [more] holds the cells from index
    10 on, so [len(row) > 10] is [more] being non-empty. *)
Definition readRow (tzdata : bool) (row : list Cell) : option Row :=
  match row with
  | c0 :: _ :: _ :: _ :: c4 :: c5 :: c6 :: c7 :: c8 :: c9 :: more =>
    let priceStr := cellText c0 in
    if decide (priceStr = "") then None
    else if Contains (ToLower priceStr) "price" then None
    else
      match ParseFloat priceStr with
      | (_, Some _) => None
      | (price, None) =>
        let symbol := cellText c4 in
        if decide (symbol = "") then None
        else
          let dateStr := cellText c5 in
          match firstParse dateFormats dateStr with
          | None => None
          | Some date =>
            let timeStr := cellText c6 in
            match firstParse timeFormats timeStr with
            | None => None
            | Some t =>
              let moneyNeededStr := cellText c7 in
              let moneyNeeded := (ParseFloat moneyNeededStr).1 in
              let lotsStr := cellText c8 in
              let fromMoney :=
                if SFltb (S754_zero false) price
                then int_of_float64 (SFdiv 53 1024 moneyNeeded price)
                else 1 in
              let totalQuantity :=
                match more with
                | c10 :: _ =>
                  let quantityStr := cellText c10 in
                  if decide (quantityStr ≠ "") then
                    match Atoi quantityStr with
                    | Some qty => if 0 <? qty then qty else fromMoney
                    | None => fromMoney
                    end
                  else fromMoney
                | [] => fromMoney
                end in
              let exchange := cellText c9 in
              let istLocation := time.LoadLocationOrUTC tzdata in
              let scheduledTime := time.DateAndTime istLocation date t in
              Some {| row_price := price; row_symbol := symbol;
                      row_scheduledTime := scheduledTime;
                      row_lots := Atoi lotsStr;
                      row_totalQuantity := totalQuantity;
                      row_exchange := exchange |}
            end
          end
      end
  | _ => None
  end.

(** [parseRows(rows, side)]: each row comes with its clock reading. *)
Definition parseRows (tzdata : bool) (rfc3339 : Z → string) (side : string)
    (now : Z) (rows : list (list Cell * Z)) : list Order :=
  rows ≫= (λ '(row, nowIST),
    match readRow tzdata row with
    | Some read => parseRow tzdata rfc3339 side now nowIST read
    | None => []
    end).

End Cells.

(** The caching loop of [readAndCacheOrders]: a failed insert is logged
    and skipped.  [clock] gives the readings of [time.Now()], two per
    order. *)
Fixpoint cacheOrders (clock : nat → Z) (k : nat) (allOrders : list Order)
    (st : State) : State :=
  match allOrders with
  | [] => st
  | order :: rest =>
    let expiryTime := time.Add (ScheduledTime order) (10 * time.Second) in
    let '(_, st1) := cache.StoreOrder (clock k) (clock (S k)) order expiryTime st in
    cacheOrders clock (S (S k)) rest st1
  end.

End reader.

(** ** internal/config/config.go: the broker section *)
Module config.

Record RateLimitConfig : Type := {
  RequestsPerSecond : Z;
  BurstSize : Z
}.

Record OrderSplittingConfig : Type := {
  MaxOrderSize : Z;
  Enabled : bool
}.

Record BrokerConfig : Type := {
  ConfigPath : string;
  Type_ : string;
  APIKey : string;
  APISecret : string;
  BaseURL : string;
  RateLimit : RateLimitConfig;
  OrderSplitting : OrderSplittingConfig
}.

(** The anonymous struct the broker file is decoded into. *)
Record fileConfig : Type := {
  file_Type : string;
  file_APIKey : string;
  file_APISecret : string;
  file_BaseURL : string;
  file_RateLimit : RateLimitConfig;
  file_OrderSplitting : OrderSplittingConfig
}.

(** What [os.ReadFile] followed by [json.Unmarshal] gives for a path. *)
Inductive BrokerFile : Type :=
  | Unreadable
  | Malformed
  | Decoded (f : fileConfig).

(** The process environment; [os.Getenv] gives "" for an unset name. *)
Definition Getenv (env : gmap string string) (key : string) : string :=
  default "" (env !! key).

Definition getEnv (env : gmap string string) (key defaultValue : string) : string :=
  let value := Getenv env key in
  if decide (value ≠ "") then value else defaultValue.

Definition digit (a : ascii) : option Z :=
  let n := Z.of_N (N_of_ascii a) in
  if (48 <=? n) && (n <=? 57) then Some (n - 48) else None.

Fixpoint digits (acc : Z) (s : string) : option Z :=
  match s with
  | EmptyString => Some acc
  | String a s' =>
    match digit a with
    | Some d => digits (acc * 10 + d) s'
    | None => None
    end
  end.

Definition maxInt : Z := 2 ^ 63 - 1.
Definition minInt : Z := - 2 ^ 63.

(** [strconv.Atoi(s)] with the error dropped, as every caller in
    [LoadConfig] does: 0 on a syntax error, the nearest bound on a range
    error. *)
Definition Atoi (s : string) : Z :=
  let '(neg, body) :=
    match s with
    | String "-" s' => (true, s')
    | String "+" s' => (false, s')
    | _ => (false, s)
    end in
  match body with
  | EmptyString => 0
  | _ =>
    match digits 0 body with
    | None => 0
    | Some n =>
      let v := if neg : bool then - n else n in
      if v <? minInt then minInt else if maxInt <? v then maxInt else v
    end
  end.

(** [loadBrokerConfigFromFile] *)
Definition loadBrokerConfigFromFile (fs : string → BrokerFile) (c : BrokerConfig)
    : result BrokerConfig :=
  match fs (ConfigPath c) with
  | Unreadable => Ok c
  | Malformed => Err (Errorf "invalid character")
  | Decoded f =>
    let ty := if decide (file_Type f ≠ "") then file_Type f else Type_ c in
    let key := if decide (file_APIKey f ≠ "") then file_APIKey f else APIKey c in
    let secret := if decide (file_APISecret f ≠ "") then file_APISecret f else APISecret c in
    let base := if decide (file_BaseURL f ≠ "") then file_BaseURL f else BaseURL c in
    let rate :=
      if 0 <? RequestsPerSecond (file_RateLimit f) then file_RateLimit f else RateLimit c in
    let split :=
      if 0 <? MaxOrderSize (file_OrderSplitting f) then file_OrderSplitting f
      else OrderSplitting c in
    Ok {| ConfigPath := ConfigPath c; Type_ := ty; APIKey := key; APISecret := secret;
          BaseURL := base; RateLimit := rate; OrderSplitting := split |}
  end.

(** [LoadConfig], the fields of [cfg.Broker]. *)
Definition LoadConfig (env : gmap string string) (fs : string → BrokerFile)
    : result BrokerConfig :=
  let maxOrderSize := Atoi (getEnv env "MAX_ORDER_SIZE" "1000") in
  let cfg :=
    {| ConfigPath := getEnv env "BROKER_CONFIG_PATH" "./config/broker-config.json";
       Type_ := getEnv env "BROKER_TYPE" "mock";
       APIKey := getEnv env "BROKER_API_KEY" "";
       APISecret := getEnv env "BROKER_API_SECRET" "";
       BaseURL := getEnv env "BROKER_BASE_URL" "";
       RateLimit :=
         {| RequestsPerSecond := Atoi (getEnv env "BROKER_RATE_LIMIT_RPS" "10");
            BurstSize := Atoi (getEnv env "BROKER_RATE_LIMIT_BURST" "20") |};
       OrderSplitting :=
         {| MaxOrderSize := if maxOrderSize <=? 0 then 1000 else maxOrderSize;
            Enabled := bool_decide (getEnv env "ORDER_SPLITTING_ENABLED" "true" = "true") |}
    |} in
  if decide (ConfigPath cfg ≠ "") then
    match loadBrokerConfigFromFile fs cfg with
    | Err err => Err (Wrapf "failed to load broker config" err)
    | Ok cfg' => Ok cfg'
    end
  else Ok cfg.

End config.

(** ** internal/broker/kite.go *)
Module kite.

(** The adapter's credentials and endpoint; the refresh token is left
    out, token refresh being disabled. *)
Record KiteBroker : Type := {
  apiKey : string;
  accessToken : string;
  baseURL : string
}.

Record KiteOrderRequest : Type := {
  Exchange : string;
  Tradingsymbol : string;
  TransactionType : string;
  OrderType : string;
  Variety : string;
  Quantity : Z;
  Price : spec_float;
  Product : string;
  Validity : string
}.

Record KiteOrderResponse : Type := {
  Status : string;
  Data_OrderID : string;
  Message : string
}.

(** An HTTP request: method, URL, headers and the form values of the
    body ([url.Values], one value per name here). *)
Record Request : Type := {
  Method : string;
  URL : string;
  Header : gmap string string;
  Form : gmap string string
}.

(** What [httpClient.Do], [io.ReadAll] and [json.Unmarshal] give back. *)
Inductive Reply : Type :=
  | TransportError
  | ReadError
  | Response (StatusCode : Z) (body : string) (decoded : option KiteOrderResponse).

(** [NewKiteBroker(cfg, log)] *)
Definition NewKiteBroker (cfg : config.BrokerConfig) : result KiteBroker :=
  if decide (config.APIKey cfg = "") then Err (Errorf "Kite API key is required")
  else if decide (config.APISecret cfg = "") then
    Err (Errorf "Kite access token is required (set as api_secret in config)")
  else
    let baseURL := config.BaseURL cfg in
    let baseURL := if decide (baseURL = "") then "https://kite.zerodha.com" else baseURL in
    Ok {| apiKey := config.APIKey cfg; accessToken := config.APISecret cfg;
          baseURL := baseURL |}.

(** [getAccessToken] *)
Definition getAccessToken (k : KiteBroker) : result string :=
  if decide (accessToken k = "") then Err (Errorf "access token not configured")
  else Ok (accessToken k).

(** [strings.Split(s, ":")] *)
Fixpoint Split_colon (s : string) : list string :=
  match s with
  | EmptyString => [EmptyString]
  | String a s' =>
    if Ascii.eqb a ":" then EmptyString :: Split_colon s'
    else match Split_colon s' with
         | [] => [String a EmptyString]
         | p :: ps => String a p :: ps
         end
  end.

(** [parseSymbol] *)
Definition parseSymbol (symbol : string) : string * string :=
  match Split_colon symbol with
  | [e; s] => (reader.ToUpper e, reader.ToUpper s)
  | _ => ("NSE", reader.ToUpper symbol)
  end.

Section Transport.

(** [fmt.Sprintf("%.2f", x)] and the remote end. *)
Variable Sprintf_2f : spec_float → string.
Variable Do : Request → Reply.

Definition headers (k : KiteBroker) (token : string) : gmap string string :=
  <["Authorization" := "token " +:+ apiKey k +:+ ":" +:+ token]>
    (<["X-Kite-Version" := "3"]>
       (<["Content-Type" := "application/x-www-form-urlencoded"]> ∅)).

Definition withPrice (orderReq : KiteOrderRequest) (formData : gmap string string)
    : gmap string string :=
  if bool_decide (OrderType orderReq = "LIMIT") && SFltb (S754_zero false) (Price orderReq)
  then <["price" := Sprintf_2f (Price orderReq)]> formData
  else formData.

(** After the request is built: send it and read the answer ([amo]
    selects the wording of the errors).  The result lists the requests
    that went out. *)
Definition send (amo : bool) (req : Request)
    : list Request * result KiteOrderResponse :=
  match Do req with
  | TransportError =>
    ([req], Err (Wrapf (if amo then "failed to execute AMO order request"
                        else "failed to execute request") (Errorf "transport")))
  | ReadError =>
    ([req], Err (Wrapf (if amo then "failed to read AMO order response"
                        else "failed to read response") (Errorf "read")))
  | Response StatusCode body decoded =>
    if negb (StatusCode =? 200) then
      ([req], Err (Errorf ((if amo then "kite AMO API returned status "
                            else "kite API returned status ")
                           +:+ Sprintf_d StatusCode +:+ ": " +:+ body)))
    else match decoded with
         | None =>
           ([req], Err (Wrapf (if amo then "failed to parse AMO order response"
                               else "failed to parse response") (Errorf "json")))
         | Some kiteResp => ([req], Ok kiteResp)
         end
  end.

(** [placeAMOOrder] *)
Definition placeAMOOrder (k : KiteBroker) (orderReq : KiteOrderRequest)
    : list Request * result KiteOrderResponse :=
  let amoURL := "https://api.kite.trade/orders/amo" in
  let validity := "DAY" in
  let formData : gmap string string := ∅ in
  let formData := <["exchange" := Exchange orderReq]> formData in
  let formData := <["tradingsymbol" := Tradingsymbol orderReq]> formData in
  let formData := <["transaction_type" := TransactionType orderReq]> formData in
  let formData := <["order_type" := OrderType orderReq]> formData in
  let formData := <["variety" := "amo"]> formData in
  let formData := <["quantity" := Sprintf_d (Quantity orderReq)]> formData in
  let formData := <["product" := Product orderReq]> formData in
  let formData := <["validity" := validity]> formData in
  let formData := withPrice orderReq formData in
  match getAccessToken k with
  | Err err => ([], Err (Wrapf "failed to get access token" err))
  | Ok accessToken =>
    send true
      {| Method := "POST"; URL := amoURL; Header := headers k accessToken;
         Form := formData |}
  end.

(** [placeOrder] *)
Definition placeOrder (k : KiteBroker) (orderReq : KiteOrderRequest)
    : list Request * result KiteOrderResponse :=
  if decide (Variety orderReq = "amo") then placeAMOOrder k orderReq
  else
    let apiURL := "https://api.kite.trade/orders/regular" in
    let formData : gmap string string := ∅ in
    let formData := <["exchange" := Exchange orderReq]> formData in
    let formData := <["tradingsymbol" := Tradingsymbol orderReq]> formData in
    let formData := <["transaction_type" := TransactionType orderReq]> formData in
    let formData := <["order_type" := OrderType orderReq]> formData in
    let formData :=
      if decide (Variety orderReq ≠ "" ∧ Variety orderReq ≠ "amo")
      then <["variety" := Variety orderReq]> formData
      else <["variety" := "regular"]> formData in
    let formData := <["quantity" := Sprintf_d (Quantity orderReq)]> formData in
    let formData := <["product" := Product orderReq]> formData in
    let formData := <["validity" := Validity orderReq]> formData in
    let formData := withPrice orderReq formData in
    match getAccessToken k with
    | Err err => ([], Err (Wrapf "failed to get access token" err))
    | Ok accessToken =>
      send false
        {| Method := "POST"; URL := apiURL; Header := headers k accessToken;
           Form := formData |}
    end.

(** [ExecuteOrder]; [now] is the reading of the clock for [ExecutedAt]. *)
Definition ExecuteOrder (k : KiteBroker) (now : Z) (order : models.Order)
    : list Request * (models.ExecutionResult * option error) :=
  let useAMO := models.IsAMO order in
  let '(exchange, tradingsymbol) :=
    if decide (models.Exchange order ≠ "")
    then (models.Exchange order, reader.ToUpper (models.Symbol order))
    else parseSymbol (models.Symbol order) in
  let transactionType :=
    if decide (reader.ToUpper (models.Side order) = "SELL") then "SELL" else "BUY" in
  let orderType :=
    if decide (reader.ToUpper (models.OrderType order) = "LIMIT") then "LIMIT"
    else "MARKET" in
  let kiteOrder :=
    {| Exchange := exchange; Tradingsymbol := tradingsymbol;
       TransactionType := transactionType; OrderType := orderType;
       Variety := if useAMO then "amo" else "regular";
       Quantity := models.Quantity order;
       Price := if decide (orderType = "LIMIT") then models.Price order
                else S754_zero false;
       Product := "CNC"; Validity := "DAY" |} in
  let '(sent, placed) :=
    if useAMO then placeAMOOrder k kiteOrder else placeOrder k kiteOrder in
  let failed (msg : string) : models.ExecutionResult :=
    {| models.OrderID := models.ID order; models.Success := false;
       models.ExecutionID := ""; models.ExecutedAt := now;
       models.ErrorMessage := msg; models.ExecutedPrice := S754_zero false;
       models.ExecutedQuantity := 0 |} in
  match placed with
  | Err err => (sent, (failed (Error err), Some err))
  | Ok result =>
    if decide (Status result ≠ "success") then
      let errorMsg :=
        if decide (Message result = "") then "Order placement failed"
        else Message result in
      (sent, (failed errorMsg, Some (Errorf ("kite order failed: " +:+ errorMsg))))
    else
      (sent,
       ({| models.OrderID := models.ID order; models.Success := true;
           models.ExecutionID := Data_OrderID result; models.ExecutedAt := now;
           models.ErrorMessage := ""; models.ExecutedPrice := models.Price order;
           models.ExecutedQuantity := models.Quantity order |}, None))
  end.

End Transport.

(** [maskString(s, visibleChars)]: [None] where Go panics.  The products
    and differences are those of Go's [int]. *)
Definition maskString (s : string) (visibleChars : Z) : option string :=
  if len s <=? wrap_int (visibleChars * 2) then Repeat_star (len s)
  else
    match slice_to s visibleChars,
          Repeat_star (wrap_int (len s - wrap_int (visibleChars * 2))),
          slice_from s (wrap_int (len s - visibleChars)) with
    | Some head, Some middle, Some tail => Some (head +:+ middle +:+ tail)
    | _, _, _ => None
    end.

End kite.

(** ** What a dispatch attempt does, in order *)

(** The calls a worker makes on its collaborators and the outcome it
    reports: [ProfileLog] is [logProfilingMetrics], the record of the
    attempt (success flag and error text) that the dispatcher emits. *)
Inductive event : Type :=
  | TryLockCall (orderID : string)
  | RateWait (orderID : string)
  | BrokerCall (order : models.Order)
  | RemoveCall (orderID : string) (reason : string)
  | ProfileLog (orderID : string) (success : bool) (errorMsg : string)
  | ReleaseCall (orderID : string).

(** ** internal/broker/broker.go *)
Module broker.

(** The manager's collaborators: [wait] is what [rateLimit.Wait(ctx)]
    returns ([Some err] when the context is cancelled or its deadline
    cannot be met), [execute] is the [Broker] behind the interface. *)
Record BrokerManager : Type := {
  wait : option error;
  execute : models.Order → models.ExecutionResult * option error
}.

(** [ExecuteOrder(ctx, order)] *)
Definition ExecuteOrder (bm : BrokerManager) (order : models.Order)
    : list event * (models.ExecutionResult * option error) :=
  match wait bm with
  | Some err =>
    ([RateWait (models.ID order)],
     (models.ExecutionResult_zero, Some (Wrapf "rate limit wait failed" err)))
  | None =>
    let '(execResult, err) := execute bm order in
    ([RateWait (models.ID order); BrokerCall order], (execResult, err))
  end.

End broker.

(** ** internal/trigger/trigger.go *)
Module trigger.
Import models redis.

(** [removeOrder(orderID, reason)]: a failure to remove is only logged. *)
Definition removeOrder (orderID reason : string) (st : State) : State * list event :=
  let '(_, st1) := cache.RemoveOrder orderID st in
  (st1, [RemoveCall orderID reason]).

(** [executeOrder(ctx, workerID, order)]: the store afterwards and the
    trace of the attempt.  The deferred release of the lock runs last on
    every path that took the lock.  The timings gathered for the profile
    and the other log lines are left out. *)
Definition executeOrder (bm : broker.BrokerManager) (order : Order) (st : State)
    : State * list event :=
  let lockTTL := 30 * time.Second in
  let '((acquired, err), st1) := cache.TryLock (ID order) lockTTL st in
  match err with
  | Some _ =>
    let '(st2, removed) := removeOrder (ID order) "lock acquisition failed" st1 in
    (st2, TryLockCall (ID order) :: removed)
  | None =>
    if negb acquired then (st1, [TryLockCall (ID order)])
    else
      let '(called, (result, err)) := broker.ExecuteOrder bm order in
      let '(st2, reported) :=
        match err with
        | Some err =>
          let '(st2, removed) := removeOrder (ID order) (Error err) st1 in
          (st2, ProfileLog (ID order) false (Error err) :: removed)
        | None =>
          let '(st2, removed) := removeOrder (ID order) "" st1 in
          (st2, (removed ++ [ProfileLog (ID order) (Success result) (ErrorMessage result)])%list)
        end in
      let '(_, st3) := cache.ReleaseLock (ID order) st2 in
      (st3, (TryLockCall (ID order) :: called ++ reported ++ [ReleaseCall (ID order)])%list)
  end.

(** [worker]: takes orders one by one; once the context is cancelled it
    stops without touching the order in hand. *)
Fixpoint worker (cancelled : nat → bool) (bm : Order → broker.BrokerManager)
    (k : nat) (orders : list Order) (st : State) : State * list event :=
  match orders with
  | [] => (st, [])
  | order :: rest =>
    if cancelled k then (st, [])
    else
      let '(st1, tr1) := executeOrder (bm order) order st in
      let '(st2, tr2) := worker cancelled bm (S k) rest st1 in
      (st2, (tr1 ++ tr2)%list)
  end.

(** [truncateString(s, maxLen)]: [None] where Go panics. *)
Definition truncateString (s : string) (maxLen : Z) : option string :=
  if len s <=? maxLen then Some s
  else if maxLen <=? 3 then slice_to s maxLen
  else
    match slice_to s (maxLen - 3) with
    | Some head => Some (head +:+ "...")
    | None => None
    end.

(** The "Error" entry that [logProfilingMetrics] puts in its table for
    [errorMsg]: [Some None] when the table gets no such entry, [None] where
    Go panics. *)
Definition profileError (errorMsg : string) : option (option string) :=
  if decide (errorMsg ≠ "") then
    if 100 <? len errorMsg then
      match slice_to errorMsg 97 with
      | Some head => Some (Some (head +:+ "..."))
      | None => None
      end
    else Some (Some errorMsg)
  else Some None.

End trigger.

(** ** The broker manager with retries and order splitting (src/unnamed/part_010) *)
Module retry.
Import models.

(** Go's [int] and [int64] on the 64-bit targets the system is built for:
    arithmetic wraps around. *)
Definition int64 (z : Z) : Z := (z + 2 ^ 63) `mod` 2 ^ 64 - 2 ^ 63.

Definition lower (a : ascii) : ascii :=
  let n := N_of_ascii a in
  if ((65 <=? n) && (n <=? 90))%N then ascii_of_N (n + 32) else a.

(** [strings.ToLower] as it works on ASCII text: A..Z go to a..z and every
    other byte is kept.  (Text with a byte from 0x80 on Go lower-cases
    rune by rune with the Unicode tables, which are not modelled.) *)
Fixpoint ToLower (s : string) : string :=
  match s with
  | EmptyString => EmptyString
  | String a s' => String (lower a) (ToLower s')
  end.

(** [strings.Contains(s, substr)] *)
Fixpoint Contains (s substr : string) : bool :=
  String.prefix substr s
  || match s with
     | EmptyString => false
     | String _ s' => Contains s' substr
     end.

(** [shouldRetry(err)] *)
Definition shouldRetry (err : option error) : bool :=
  match err with
  | None => false
  | Some err =>
    let errStr := ToLower (Error err) in
    let authErrors := ["auth"; "unauthorized"; "forbidden"; "401"; "403"] in
    if existsb (Contains errStr) authErrors then false
    else
      let invalidErrors := ["invalid"; "bad request"; "400"] in
      if existsb (Contains errStr) invalidErrors then false
      else
        let retryErrors :=
          ["network"; "timeout"; "rate limit"; "429"; "500"; "502"; "503"; "504"] in
        if existsb (Contains errStr) retryErrors then true
        else false
  end.

(** [time.Duration(1 << uint(attempt))]: the constant takes the type of
    the conversion, a shift by 64 or more gives 0. *)
Definition shift1 (attempt : Z) : Z :=
  let count := attempt `mod` 2 ^ 64 in
  if 64 <=? count then 0 else int64 (Z.shiftl 1 count).

(** [getRetryDelay(err, attempt)] *)
Definition getRetryDelay (err : error) (attempt : Z) : Z :=
  let errStr := ToLower (Error err) in
  if Contains errStr "rate limit" || Contains errStr "429" then
    int64 (int64 (int64 (attempt + 1) * 2) * time.Second)
  else if Contains errStr "network" || Contains errStr "timeout"
          || Contains errStr "connection" then
    int64 (shift1 attempt * time.Second)
  else if Contains errStr "500" || Contains errStr "502"
          || Contains errStr "503" || Contains errStr "504" then
    int64 (int64 (attempt + 1) * time.Second)
  else int64 (attempt * time.Second).

(** What the manager meets while it runs.  Every interaction with the
    outside - a wait at the rate limiter, a call of the broker, a sleep -
    takes one step; [wait], [execute] and [cancelled] give, for the step at
    which they are consulted, the limiter's answer, the broker's answer,
    and whether the context is done before the sleep is over. *)
Record World : Type := {
  wait : nat → option error;
  execute : nat → Order → ExecutionResult * option error;
  cancelled : nat → bool
}.

Inductive event : Type :=
  | Wait
  | Call (order : Order)
  | Backoff (delay : Z)
  | Pause (delay : Z).

(** The error returned once the loop is left without success. *)
Definition exhausted (maxRetries : Z) (lastErr : option error) : error :=
  let msg := "order execution failed after " +:+ Sprintf_d (int64 (maxRetries + 1))
             +:+ " attempts" in
  match lastErr with
  | Some err => Wrapf msg err
  | None => Errorf (msg +:+ ": %!w(<nil>)")
  end.

(** The loop of [executeSingleOrder] with [n] iterations to go; the result
    comes with the step reached and the trace. *)
Fixpoint attempts (w : World) (order : Order) (maxRetries : Z) (n : nat)
    (attempt : Z) (lastErr : option error) (step : nat)
    : (ExecutionResult * option error) * (nat * list event) :=
  match n with
  | O => ((ExecutionResult_zero, Some (exhausted maxRetries lastErr)), (step, []))
  | S n' =>
    match wait w step with
    | Some err =>
      ((ExecutionResult_zero, Some (Wrapf "rate limit wait failed" err)),
       (S step, [Wait]))
    | None =>
      let '(execResult, err) := execute w (S step) order in
      match err with
      | None => ((execResult, None), (S (S step), [Wait; Call order]))
      | Some err =>
        if negb (shouldRetry (Some err)) then
          ((ExecutionResult_zero, Some (exhausted maxRetries (Some err))),
           (S (S step), [Wait; Call order]))
        else
          let retryDelay := getRetryDelay err attempt in
          if 0 <? retryDelay then
            if cancelled w (S (S step)) then
              ((ExecutionResult_zero, Some CtxErr),
               (S (S (S step)), [Wait; Call order; Backoff retryDelay]))
            else
              let '(r, (step', tr)) :=
                attempts w order maxRetries n' (int64 (attempt + 1)) (Some err)
                  (S (S (S step))) in
              (r, (step', Wait :: Call order :: Backoff retryDelay :: tr))
          else
            let '(r, (step', tr)) :=
              attempts w order maxRetries n' (int64 (attempt + 1)) (Some err)
                (S (S step)) in
            (r, (step', Wait :: Call order :: tr))
      end
    end
  end.

(** [executeSingleOrder(ctx, order, maxRetries)], for [maxRetries] below
    the largest int (the loop [attempt <= maxRetries] never ends
    otherwise). *)
Definition executeSingleOrder (w : World) (order : Order) (maxRetries : Z) (step : nat)
    : (ExecutionResult * option error) * (nat * list event) :=
  attempts w order maxRetries (Z.to_nat (maxRetries + 1)) 0 None step.

(** float64 arithmetic (round to nearest even, products and sums rounded
    one by one) and [float64(n)]. *)
Definition float64 (n : Z) : spec_float := binary_normalize 53 1024 n 0 false.
Definition fmul : spec_float → spec_float → spec_float := SFmul 53 1024.
Definition fadd : spec_float → spec_float → spec_float := SFadd 53 1024.
Definition fdiv : spec_float → spec_float → spec_float := SFdiv 53 1024.

(** The variables of [executeSplitOrder] that its loop updates. *)
Record Totals : Type := {
  allResults : list ExecutionResult;
  totalExecutedQuantity : Z;
  totalExecutedPrice : spec_float;
  hasError : bool;
  lastError : option error
}.

Definition splitQuantity (totalQuantity maxSize numSplits i : Z) : Z :=
  if i =? int64 (numSplits - 1) then int64 (totalQuantity - int64 (i * maxSize))
  else maxSize.

(** The order handed on in turn [i] of the loop. *)
Definition splitOrder (order : Order) (maxSize numSplits i : Z) : Order :=
  {| ID := ID order +:+ "_split_" +:+ Sprintf_d (int64 (i + 1)) +:+ "_"
           +:+ Sprintf_d numSplits;
     Symbol := Symbol order; Exchange := Exchange order; Price := Price order;
     Quantity := splitQuantity (Quantity order) maxSize numSplits i;
     OrderType := OrderType order; Side := Side order;
     ScheduledTime := ScheduledTime order; CreatedAt := CreatedAt order;
     IsAMO := IsAMO order |}.

(** The loop of [executeSplitOrder] over the turns [turns]. *)
Fixpoint splits (w : World) (order : Order) (maxRetries maxSize numSplits : Z)
    (turns : list Z) (t : Totals) (step : nat) : Totals * (nat * list event) :=
  match turns with
  | [] => (t, (step, []))
  | i :: rest =>
    let quantity := splitQuantity (Quantity order) maxSize numSplits i in
    let '((result, err), (step1, tr1)) :=
      executeSingleOrder w (splitOrder order maxSize numSplits i) maxRetries step in
    match err with
    | Some err =>
      let t1 := {| allResults := allResults t;
                   totalExecutedQuantity := totalExecutedQuantity t;
                   totalExecutedPrice := totalExecutedPrice t;
                   hasError := true; lastError := Some err |} in
      let '(t2, (step2, tr2)) :=
        splits w order maxRetries maxSize numSplits rest t1 step1 in
      (t2, (step2, (tr1 ++ tr2)%list))
    | None =>
      let executed := int64 (totalExecutedQuantity t + ExecutedQuantity result) in
      let price :=
        if SFltb (S754_zero false) (ExecutedPrice result) then
          if SFeqb (totalExecutedPrice t) (S754_zero false) then ExecutedPrice result
          else
            fdiv (fadd (fmul (totalExecutedPrice t) (float64 (int64 (executed - quantity))))
                       (fmul (ExecutedPrice result) (float64 quantity)))
                 (float64 executed)
        else totalExecutedPrice t in
      let t1 := {| allResults := (allResults t ++ [result])%list;
                   totalExecutedQuantity := executed;
                   totalExecutedPrice := price;
                   hasError := hasError t; lastError := lastError t |} in
      if i <? int64 (numSplits - 1) then
        let '(t2, (step2, tr2)) :=
          splits w order maxRetries maxSize numSplits rest t1 (S step1) in
        (t2, (step2, (tr1 ++ Pause (100 * 1000000) :: tr2)%list))
      else
        let '(t2, (step2, tr2)) :=
          splits w order maxRetries maxSize numSplits rest t1 step1 in
        (t2, (step2, (tr1 ++ tr2)%list))
    end
  end.

(** [executeSplitOrder(ctx, order, maxRetries)]; [now] is the reading of
    the clock for [ExecutedAt]; [None] where Go panics on the division. *)
Definition executeSplitOrder (w : World) (maxSize : Z) (order : Order)
    (maxRetries : Z) (now : Z) (step : nat)
    : option ((ExecutionResult * option error) * (nat * list event)) :=
  let totalQuantity := Quantity order in
  if maxSize =? 0 then None
  else
    let numSplits := int64 (int64 (int64 (totalQuantity + maxSize) - 1) `quot` maxSize) in
    let '(t, out) :=
      splits w order maxRetries maxSize numSplits (seqZ 0 numSplits)
        {| allResults := []; totalExecutedQuantity := 0;
           totalExecutedPrice := S754_zero false; hasError := false;
           lastError := None |} step in
    let aggregatedResult :=
      {| OrderID := ID order;
         Success := negb (hasError t) && (0 <? totalExecutedQuantity t);
         ExecutionID := "";
         ExecutedAt := now;
         ErrorMessage :=
           if hasError t then
             "Some split orders failed. Executed: "
             +:+ Sprintf_d (totalExecutedQuantity t) +:+ "/" +:+ Sprintf_d totalQuantity
           else "";
         ExecutedPrice := totalExecutedPrice t;
         ExecutedQuantity := totalExecutedQuantity t |} in
    match lastError t with
    | Some err =>
      if totalExecutedQuantity t =? 0 then
        Some ((aggregatedResult, Some (Wrapf "all split orders failed" err)), out)
      else Some ((aggregatedResult, None), out)
    | None => Some ((aggregatedResult, None), out)
    end.

(** [ExecuteOrderWithRetry(ctx, order, maxRetries)] *)
Definition ExecuteOrderWithRetry (w : World) (splitting : config.OrderSplittingConfig)
    (order : Order) (maxRetries : Z) (now : Z) (step : nat)
    : option ((ExecutionResult * option error) * (nat * list event)) :=
  if config.Enabled splitting && (config.MaxOrderSize splitting <? Quantity order) then
    executeSplitOrder w (config.MaxOrderSize splitting) order maxRetries now step
  else Some (executeSingleOrder w order maxRetries step).

End retry.

(** ** Vocabulary of the properties *)

(** Total quantity of a list of orders. *)
Definition total_quantity (orders : list models.Order) : Z :=
  foldr (λ o acc, models.Quantity o + acc) 0 orders.

(** How many entries of a sorted set carry the member [m]. *)
Definition occurrences (m : string) (l : list (Z * string)) : nat :=
  length (filter (λ p, p.2 = m) l).

(** [m] is a member of the due index. *)
Definition indexed (st : redis.State) (m : string) : Prop :=
  ∃ score, (score, m) ∈ redis.zset st cache.pending_orders.

(** The record of order [id] as the store holds it. *)
Definition record (st : redis.State) (id : string) : option (models.Data * Z) :=
  redis.kv st !! cache.orderKey id.

(** Every index entry of a recorded order carries the Unix second of the
    order's scheduled instant, as [StoreOrder] writes it. *)
Definition index_consistent (st : redis.State) : Prop :=
  ∀ score id e ttl,
    (score, id) ∈ redis.zset st cache.pending_orders →
    record st id = Some (models.JSON e, ttl) →
    score = time.Unix (models.ScheduledTime (models.entry_Order e)).

(** Every record sits under the key of its own order id, as [StoreOrder]
    writes it. *)
Definition ids_wf (st : redis.State) : Prop :=
  ∀ id e ttl,
    record st id = Some (models.JSON e, ttl) →
    models.ID (models.entry_Order e) = id.

(** In a trace, every report of the attempt on [id] comes after a call
    to remove [id]. *)
Definition removed_before_report (id : string) (tr : list event) : Prop :=
  ∀ i success msg,
    tr !! i = Some (ProfileLog id success msg) →
    ∃ j reason, (j < i)%nat ∧ tr !! j = Some (RemoveCall id reason).

(** The trace holds a broker call. *)
Definition calls_broker (tr : list event) : Prop :=
  ∃ order, BrokerCall order ∈ tr.

(** *** Sample data *)

(** Saturday 2025-03-08, 10:00:00 in Asia/Kolkata. *)
Definition saturday_10am : Z := 1741408200 * time.Second.

(** Monday 2025-03-10, 18:00:00 in Asia/Kolkata. *)
Definition monday_6pm : Z := 1741609800 * time.Second.

(** The environment names kite and 3 requests per second; the broker file
    names mock and 5. *)
Definition env_kite : gmap string string :=
  <["BROKER_TYPE" := "kite"]> (<["BROKER_RATE_LIMIT_RPS" := "3"]> ∅).

Definition file_mock : string → config.BrokerFile := λ _,
  config.Decoded
    {| config.file_Type := "mock"; config.file_APIKey := "";
       config.file_APISecret := ""; config.file_BaseURL := "";
       config.file_RateLimit := {| config.RequestsPerSecond := 5; config.BurstSize := 5 |};
       config.file_OrderSplitting := {| config.MaxOrderSize := 0; config.Enabled := false |} |}.

(** A broker configuration whose base URL is overridden, and the adapter
    built from a base URL. *)
Definition cfg_override : config.BrokerConfig :=
  {| config.ConfigPath := "./config/broker-config.json"; config.Type_ := "kite";
     config.APIKey := "key"; config.APISecret := "token";
     config.BaseURL := "https://sandbox.kite.test";
     config.RateLimit := {| config.RequestsPerSecond := 3; config.BurstSize := 3 |};
     config.OrderSplitting := {| config.MaxOrderSize := 1000; config.Enabled := true |} |}.

Definition kite_at (base : string) : kite.KiteBroker :=
  {| kite.apiKey := "key"; kite.accessToken := "token"; kite.baseURL := base |}.

Definition regular_limit_order : kite.KiteOrderRequest :=
  {| kite.Exchange := "NSE"; kite.Tradingsymbol := "XYZ"; kite.TransactionType := "BUY";
     kite.OrderType := "LIMIT"; kite.Variety := "regular"; kite.Quantity := 5;
     kite.Price := S754_finite false 100 0; kite.Product := "CNC"; kite.Validity := "DAY" |}.

Definition reply_ok : kite.Request → kite.Reply := λ _,
  kite.Response 200 "{}"
    (Some {| kite.Status := "success"; kite.Data_OrderID := "1"; kite.Message := "" |}).

(** A limit order for Monday 2025-03-10 18:00 IST, as the ingester
    builds it, and an empty healthy store. *)
Definition sample_order : models.Order :=
  {| models.ID := "XYZ:2025-03-10T18:00:00+05:30"; models.Symbol := "XYZ";
     models.Exchange := "NSE"; models.Price := S754_finite false 100 0;
     models.Quantity := 5; models.OrderType := "LIMIT"; models.Side := "Buy";
     models.ScheduledTime := monday_6pm; models.CreatedAt := monday_6pm - 60 * time.Second;
     models.IsAMO := true |}.

Definition empty_store : redis.State :=
  {| redis.kv := ∅; redis.zsets := ∅; redis.faults := [] |}.

(** The store after the sample order was inserted a minute ahead of its
    schedule, with the ingester's ten seconds of grace. *)
Definition store_with_sample : redis.State :=
  (cache.StoreOrder (monday_6pm - 60 * time.Second) (monday_6pm - 60 * time.Second)
     sample_order (time.Add monday_6pm (10 * time.Second)) empty_store).2.

(** A broker that accepts every order, one that fails every order, and a
    rate gate whose wait is cut short by cancellation. *)
Definition accepting_broker : broker.BrokerManager :=
  {| broker.wait := None;
     broker.execute := λ order,
       ({| models.OrderID := models.ID order; models.Success := true;
           models.ExecutionID := "1"; models.ExecutedAt := 0;
           models.ErrorMessage := ""; models.ExecutedPrice := models.Price order;
           models.ExecutedQuantity := models.Quantity order |}, None) |}.


Definition cancelled_gate : broker.BrokerManager :=
  {| broker.wait := Some CtxErr; broker.execute := broker.execute accepting_broker |}.

(** The same store behind a server that fails the next command and is
    healthy afterwards, and the same store with the lock of the sample
    order held by another worker. *)
Definition store_one_fault : redis.State :=
  {| redis.kv := redis.kv store_with_sample;
     redis.zsets := redis.zsets store_with_sample;
     redis.faults := [true] |}.

Definition store_locked : redis.State :=
  (cache.TryLock (models.ID sample_order) (30 * time.Second) store_with_sample).2.

(** The same store behind a server that fails the next two commands. *)
Definition store_two_faults : redis.State :=
  {| redis.kv := redis.kv store_with_sample;
     redis.zsets := redis.zsets store_with_sample;
     redis.faults := [true; true] |}.

(** An order whose id is the single byte FF, which is no UTF-8, and the
    store after its insertion. *)
Definition order_ill_formed : models.Order :=
  {| models.ID := String (ascii_of_N 255) ""; models.Symbol := "XYZ";
     models.Exchange := "NSE"; models.Price := S754_finite false 100 0;
     models.Quantity := 5; models.OrderType := "LIMIT"; models.Side := "Buy";
     models.ScheduledTime := monday_6pm; models.CreatedAt := monday_6pm - 60 * time.Second;
     models.IsAMO := true |}.

Definition store_ill_formed : redis.State :=
  (cache.StoreOrder (monday_6pm - 60 * time.Second) (monday_6pm - 60 * time.Second)
     order_ill_formed (time.Add monday_6pm (10 * time.Second)) empty_store).2.

(** The store of the sample order behind a server that fails the third
    command from now. *)
Definition store_third_fault : redis.State :=
  {| redis.kv := redis.kv store_with_sample;
     redis.zsets := redis.zsets store_with_sample;
     redis.faults := [false; false; true] |}.

(** A sheet whose cells are texts already, and library functions that
    know the few texts it holds. *)
Definition sheet_ParseFloat (s : string) : spec_float * option error :=
  if decide (s = "100") then (S754_finite false 100 0, None)
  else if decide (s = "1000") then (S754_finite false 1000 0, None)
  else (S754_zero false, Some (Errorf "strconv.ParseFloat: invalid syntax")).

Definition sheet_Atoi (s : string) : option Z :=
  if decide (s = "2") then Some 2 else None.

Definition sheet_Parse (layout value : string) : option Z :=
  if decide (layout = "2006-01-02" ∧ value = "2025-03-10")
  then Some (1741564800 * time.Second)
  else if decide (layout = "15:04:05" ∧ value = "18:00:00")
  then Some ((64800 - 62167219200) * time.Second)
  else None.

Definition sheet_int (f : spec_float) : Z :=
  match f with
  | S754_finite s m e =>
    let v := if 0 <=? e then Z.pos m * 2 ^ e else Z.pos m `quot` 2 ^ (- e) in
    if s then - v else v
  | _ => 0
  end.

(** A header row, and a row of two lots for 1000 rupees at a price of
    100. *)
Definition sheet_header : list string :=
  ["planned_buy_price"; "product"; "Name"; "bse_code"; "symbol"; "execute_date";
   "execute_time"; "Money Needed"; "Lots"; "exchange"].

Definition sheet_row : list string :=
  ["100"; "CNC"; "Xyz Ltd"; "500000"; "XYZ"; "2025-03-10"; "18:00:00"; "1000"; "2"; ""].

Definition sheet_parseRows : list (list string * Z) → list models.Order :=
  reader.parseRows string id id retry.ToLower sheet_ParseFloat sheet_Atoi sheet_Parse
    sheet_int true (λ _, "2025-03-10T18:00:00+05:30") "Buy"
    (monday_6pm - 60 * time.Second).

(** *** Further vocabulary *)

(** What the due query makes of the id [id] when the clock reads [now]:
    the order of its record, unless there is no decodable record or the
    clock is after the record's expiry. *)
Definition due_entry (now : Z) (st : redis.State) (id : string) : option models.Order :=
  match record st id with
  | Some (models.JSON e, _) =>
    if time.After now (models.ExpiryTime e) then None else Some (models.entry_Order e)
  | _ => None
  end.

(** The entries of a sorted set come in non-decreasing score. *)
Definition score_sorted (l : list (Z * string)) : Prop :=
  StronglySorted (λ a b, a.1 ≤ b.1) l.

(** The orders handed to the broker in a trace, in order. *)
Definition broker_calls (tr : list event) : list models.Order :=
  omap (λ ev, match ev with BrokerCall order => Some order | _ => None end) tr.

(** A second order, one second after the sample order, and the store
    that received the later order first and the sample order second. *)
Definition later_order : models.Order :=
  {| models.ID := "ABC:2025-03-10T18:00:01+05:30"; models.Symbol := "ABC";
     models.Exchange := "NSE"; models.Price := S754_finite false 50 0;
     models.Quantity := 2; models.OrderType := "LIMIT"; models.Side := "Sell";
     models.ScheduledTime := monday_6pm + time.Second;
     models.CreatedAt := monday_6pm - 60 * time.Second;
     models.IsAMO := true |}.

Definition store_with_two : redis.State :=
  let t := monday_6pm - 60 * time.Second in
  (cache.StoreOrder t t sample_order (time.Add monday_6pm (10 * time.Second))
     (cache.StoreOrder t t later_order
        (time.Add (monday_6pm + time.Second) (10 * time.Second)) empty_store).2).2.

(** The civil day of an instant in a location (days since 1970-01-01,
    a Thursday), the instant of 09:00 on a civil day, and the days that
    fall on a weekend. *)
Definition civil_day (loc : time.Location) (t : Z) : Z :=
  time.wallSeconds loc t `div` 86400.

Definition open_on (loc : time.Location) (day : Z) : Z :=
  (day * 86400 + 9 * 3600 - loc) * time.Second.

Definition weekend (day : Z) : bool :=
  ((day + 4) `mod` 7 =? time.Saturday) || ((day + 4) `mod` 7 =? time.Sunday).

(** The remote end accepts the request [req]: it answers 200 with a body
    that decodes to status "success" and the order id [executionID]. *)
Definition accepted (Do : kite.Request → kite.Reply) (req : kite.Request)
    (executionID : string) : Prop :=
  ∃ body resp, Do req = kite.Response 200 body (Some resp)
               ∧ kite.Status resp = "success"
               ∧ kite.Data_OrderID resp = executionID.

(** One step of the running system on the store: an ingestion cycle
    over orders whose ids are well-formed UTF-8, a due query, a worker
    run, the server dropping a key whose TTL ran out, or the server's
    transport changing its behaviour. *)
Inductive pipeline_step : redis.State → redis.State → Prop :=
  | step_ingest clock k orders st :
    Forall (λ o, models.json_string (models.ID o) = models.ID o) orders →
    pipeline_step st (reader.cacheOrders clock k orders st)
  | step_due now st :
    pipeline_step st (cache.GetOrdersDueForExecution now st).2
  | step_worker cancelled bm k orders st :
    pipeline_step st (trigger.worker cancelled bm k orders st).1
  | step_expire key st :
    pipeline_step st (redis.Expire key st)
  | step_faults schedule st :
    pipeline_step st {| redis.kv := redis.kv st; redis.zsets := redis.zsets st;
                        redis.faults := schedule |}.

(** The orders handed to the broker in a trace of the retrying manager. *)
Definition retry_calls (tr : list retry.event) : list models.Order :=
  omap (λ ev, match ev with retry.Call order => Some order | _ => None end) tr.

(** The text read from cell [i] of a row, if the row has one. *)
Definition cell_text {Cell} (Sprintf_v : Cell → string) (TrimSpace : string → string)
    (row : list Cell) (i : nat) : option string :=
  reader.cellText Cell Sprintf_v TrimSpace <$> row !! i.

(** * Properties *)

(** ** MarketClock and the AMO stamp *)

Lemma parseRow_elem tzdata rfc3339 side now nowIST row o :
  o ∈ reader.parseRow tzdata rfc3339 side now nowIST row →
  models.ScheduledTime o = reader.row_scheduledTime row
  ∧ models.IsAMO o = reader.shouldUseAMO tzdata (reader.row_scheduledTime row)
  ∧ time.Before (reader.row_scheduledTime row) nowIST = false.
Proof.
  unfold reader.parseRow.
  destruct (decide (reader.row_symbol row = "")); [by intros ?%elem_of_nil|].
  destruct (time.Before _ _) eqn:Hpast; [by intros ?%elem_of_nil|].
  intros (k & -> & _)%list_elem_of_fmap. done.
Qed.

Lemma shouldUseAMO_hours tzdata t :
  let loc := time.LoadLocationOrUTC tzdata in
  let m := time.Hour loc t * 60 + time.Minute loc t in
  reader.shouldUseAMO tzdata t = true ↔ ¬ (9 * 60 ≤ m < 15 * 60 + 30).
Proof.
  cbn zeta. unfold reader.shouldUseAMO.
  rewrite orb_true_iff, Z.ltb_lt, Z.leb_le. lia.
Qed.

Lemma shouldUseAMO_weekday tzdata t :
  let loc := time.LoadLocationOrUTC tzdata in
  time.Weekday loc t ≠ time.Saturday →
  time.Weekday loc t ≠ time.Sunday →
  reader.shouldUseAMO tzdata t
  = negb (market_hours.IsMarketOpen tzdata market_hours.NewMarketHours t).
Proof.
  cbn zeta. intros Hsat Hsun.
  unfold reader.shouldUseAMO, market_hours.IsMarketOpen.
  apply Z.eqb_neq in Hsat, Hsun. rewrite Hsat, Hsun. cbn [orb].
  unfold market_hours.NewMarketHours; cbn [market_hours.OpenTime market_hours.CloseTime].
  set (m := time.Hour _ t * 60 + time.Minute _ t).
  destruct (Z.ltb_spec m (9 * 60 + 0)), (Z.leb_spec (15 * 60 + 30) m),
    (Z.leb_spec (9 * 60 + 0) m), (Z.ltb_spec m (15 * 60 + 30)); cbn; lia || done.
Qed.

(** C3, as stated, fails: a row scheduled for Saturday 10:00 in the market
    timezone yields an order with [IsAMO = false], although the market
    clock says the market is not open at that instant. *)
Lemma C3_weekend_not_stamped :
  let row := {| reader.row_price := S754_finite false 100 0;
                reader.row_symbol := "XYZ";
                reader.row_scheduledTime := saturday_10am;
                reader.row_lots := Some 1;
                reader.row_totalQuantity := 5;
                reader.row_exchange := "NSE" |} in
  ∃ o, reader.parseRow true (λ _, "2025-03-08T10:00:00+05:30") "Buy" 0 0 row = [o]
       ∧ time.Weekday time.Kolkata (models.ScheduledTime o) = time.Saturday
       ∧ models.IsAMO o = false
       ∧ market_hours.IsMarketOpen true market_hours.NewMarketHours
           (models.ScheduledTime o) = false
       ∧ models.IsAMO o
         ≠ negb (market_hours.IsMarketOpen true market_hours.NewMarketHours
                   (models.ScheduledTime o)).
Proof.
  intros row.
  pose (rfc := λ _ : Z, "2025-03-08T10:00:00+05:30").
  destruct (reader.parseRow true rfc "Buy" 0 0 row) as [|o l] eqn:E;
    [vm_compute in E; discriminate E|].
  destruct l; [|vm_compute in E; discriminate E].
  exists o. split; [exact E|].
  vm_compute in E. injection E as <-.
  repeat split; try (vm_compute; reflexivity). vm_compute. discriminate.
Qed.

(** C3 (amended): every order the ingester produces is stamped
    [IsAMO = true] exactly when the time of day of its scheduled instant,
    in the market timezone, lies outside 09:00-15:30, on any day of the
    week; on a Monday-Friday instant the stamp equals the market clock's
    "not open". *)
Theorem C3_amo_stamp_is_hours_test tzdata rfc3339 side now nowIST row o :
  o ∈ reader.parseRow tzdata rfc3339 side now nowIST row →
  let loc := time.LoadLocationOrUTC tzdata in
  let t := models.ScheduledTime o in
  let m := time.Hour loc t * 60 + time.Minute loc t in
  (models.IsAMO o = true ↔ ¬ (9 * 60 ≤ m < 15 * 60 + 30))
  ∧ (time.Weekday loc t ≠ time.Saturday →
     time.Weekday loc t ≠ time.Sunday →
     models.IsAMO o
     = negb (market_hours.IsMarketOpen tzdata market_hours.NewMarketHours t)).
Proof.
  intros (Ht & Hamo & _)%parseRow_elem. cbn zeta. rewrite Ht, Hamo. split.
  - apply shouldUseAMO_hours.
  - apply shouldUseAMO_weekday.
Qed.

(** A row scheduled for Monday 18:00, after the close. *)
Lemma C3_amo_stamp_witness :
  let row := {| reader.row_price := S754_finite false 100 0;
                reader.row_symbol := "XYZ";
                reader.row_scheduledTime := monday_6pm;
                reader.row_lots := Some 1;
                reader.row_totalQuantity := 5;
                reader.row_exchange := "NSE" |} in
  ∃ o, reader.parseRow true (λ _, "2025-03-10T18:00:00+05:30") "Buy" 0 0 row = [o]
       ∧ models.IsAMO o = true
       ∧ models.IsAMO o
         = negb (market_hours.IsMarketOpen true market_hours.NewMarketHours
                   (models.ScheduledTime o)).
Proof.
  intros row.
  pose (rfc := λ _ : Z, "2025-03-10T18:00:00+05:30").
  destruct (reader.parseRow true rfc "Buy" 0 0 row) as [|o l] eqn:E;
    [vm_compute in E; discriminate E|].
  destruct l; [|vm_compute in E; discriminate E].
  exists o. split; [exact E|].
  assert (Hin : o ∈ reader.parseRow true rfc "Buy" 0 0 row)
    by (rewrite E; apply list_elem_of_here).
  destruct (C3_amo_stamp_is_hours_test true rfc "Buy" 0 0 row o Hin) as [Hiff Hwk].
  assert (Ht : models.ScheduledTime o = monday_6pm)
    by (vm_compute in E; injection E as <-; reflexivity).
  split.
  - apply Hiff. rewrite Ht. vm_compute. intros [_ H]. discriminate H.
  - apply Hwk; rewrite Ht; vm_compute; discriminate.
Defined.

(** ** Lot splitting *)


Lemma total_quantity_fmap (f : Z → models.Order) l :
  total_quantity (f <$> l) = foldr (λ k acc, models.Quantity (f k) + acc) 0 l.
Proof. induction l as [|x l IH]; cbn; [done|]. by rewrite <- IH. Qed.


(** The orders of a row that passes the checks, read off the loop. *)
Lemma parseRow_lots tzdata rfc3339 side now nowIST row Q N :
  1 ≤ Q → 1 ≤ N →
  reader.row_symbol row ≠ "" →
  reader.row_lots row = Some N →
  reader.row_totalQuantity row = Q →
  nowIST ≤ reader.row_scheduledTime row →
  ∃ mk : Z → models.Order,
    reader.parseRow tzdata rfc3339 side now nowIST row = mk <$> seqZ 1 N
    ∧ (∀ k, models.Quantity (mk k) = if k <=? Q `mod` N then Q `div` N + 1 else Q `div` N)
    ∧ (∀ k, models.ID (mk k)
            = let base := models.GenerateOrderID rfc3339 (reader.row_symbol row)
                            (reader.row_scheduledTime row) in
              if 1 <? N then base +:+ "-" +:+ Sprintf_d k else base).
Proof.
  intros HQ HN Hsym Hlots Hqty Hfuture.
  unfold reader.parseRow.
  destruct (decide (reader.row_symbol row = "")); [done|].
  rewrite Hlots, Hqty.
  destruct (Z.leb_spec N 0); [lia|]. destruct (Z.leb_spec Q 0); [lia|].
  unfold time.Before. destruct (Z.ltb_spec (reader.row_scheduledTime row) nowIST); [lia|].
  rewrite Z.quot_div_nonneg, Z.rem_mod_nonneg by lia.
  eexists. split; [reflexivity|]. split; intros k; reflexivity.
Qed.



(** ** Configuration precedence *)

(** C8 fails on the code: with a broker type and a rate limit set both in
    the environment and in the broker file, the loaded configuration
    carries the file's values. *)
Lemma C8_file_overrides_environment :
  ∃ cfg, config.LoadConfig env_kite file_mock = Ok cfg
         ∧ config.getEnv env_kite "BROKER_TYPE" "mock" = "kite"
         ∧ config.Type_ cfg = "mock"
         ∧ config.Atoi (config.getEnv env_kite "BROKER_RATE_LIMIT_RPS" "10") = 3
         ∧ config.RequestsPerSecond (config.RateLimit cfg) = 5.
Proof. eexists. split; [vm_compute; reflexivity|]. repeat split; vm_compute; reflexivity. Qed.

(** The file value wins whenever it is set, whatever the environment. *)
Lemma loadBrokerConfigFromFile_file_wins fs c f c' :
  fs (config.ConfigPath c) = config.Decoded f →
  config.loadBrokerConfigFromFile fs c = Ok c' →
  (config.file_Type f ≠ "" → config.Type_ c' = config.file_Type f)
  ∧ (config.file_APIKey f ≠ "" → config.APIKey c' = config.file_APIKey f)
  ∧ (config.file_APISecret f ≠ "" → config.APISecret c' = config.file_APISecret f)
  ∧ (config.file_BaseURL f ≠ "" → config.BaseURL c' = config.file_BaseURL f)
  ∧ (0 < config.RequestsPerSecond (config.file_RateLimit f) →
     config.RateLimit c' = config.file_RateLimit f).
Proof.
  intros Hf. unfold config.loadBrokerConfigFromFile. rewrite Hf.
  intros [= <-]. cbn.
  repeat split; intros H; try (by rewrite decide_True).
  by destruct (Z.ltb_spec 0 (config.RequestsPerSecond (config.file_RateLimit f))); [|lia].
Qed.

(** ** The Kite endpoints *)

(** C9, as stated, fails: an adapter configured with the base URL
    https://sandbox.kite.test posts a regular order to
    https://api.kite.trade/orders/regular. *)
Lemma C9_base_url_not_used :
  ∃ k, kite.NewKiteBroker cfg_override = Ok k
       ∧ kite.baseURL k = "https://sandbox.kite.test"
       ∧ let sent := (kite.placeOrder (λ _, "100.00") reply_ok k regular_limit_order).1 in
         kite.URL <$> sent = ["https://api.kite.trade/orders/regular"]
         ∧ kite.URL <$> sent ≠ [kite.baseURL k +:+ "/orders/regular"].
Proof.
  exists (kite_at "https://sandbox.kite.test").
  split; [vm_compute; reflexivity|]. split; [reflexivity|].
  split; [vm_compute; reflexivity|]. vm_compute. discriminate.
Qed.

Lemma send_sent Do amo req sent res :
  kite.send Do amo req = (sent, res) → sent = [req].
Proof.
  unfold kite.send.
  destruct (Do req) as [| |code body [resp|]]; [| |destruct (negb _)..];
    by intros [= <- _].
Qed.

(** Where the two placement functions send their requests. *)
Lemma C9_endpoints_aux Sprintf_2f Do k orderReq :
  (∀ req, req ∈ (kite.placeAMOOrder Sprintf_2f Do k orderReq).1 →
     kite.Method req = "POST" ∧ kite.URL req = "https://api.kite.trade/orders/amo")
  ∧ (∀ req, req ∈ (kite.placeOrder Sprintf_2f Do k orderReq).1 →
       kite.Method req = "POST"
       ∧ kite.URL req = if decide (kite.Variety orderReq = "amo")
                        then "https://api.kite.trade/orders/amo"
                        else "https://api.kite.trade/orders/regular").
Proof.
  assert (Hamo : ∀ req, req ∈ (kite.placeAMOOrder Sprintf_2f Do k orderReq).1 →
     kite.Method req = "POST" ∧ kite.URL req = "https://api.kite.trade/orders/amo").
  { intros req. unfold kite.placeAMOOrder.
    destruct (kite.getAccessToken k) as [tok|err]; cbn; [|by intros ?%elem_of_nil].
    destruct (kite.send _ _ _) as [sent res] eqn:Hs. apply send_sent in Hs as ->.
    cbn. by intros ->%list_elem_of_singleton. }
  split; [exact Hamo|].
  intros req. unfold kite.placeOrder.
  destruct (decide (kite.Variety orderReq = "amo")); [apply Hamo|].
  destruct (kite.getAccessToken k) as [tok|err]; cbn; [|by intros ?%elem_of_nil].
  destruct (kite.send _ _ _) as [sent res] eqn:Hs. apply send_sent in Hs as ->.
  cbn. by intros ->%list_elem_of_singleton.
Qed.

(** C9 (amended): whatever base URL the adapter is configured with, every
    request of a regular placement is a POST to
    https://api.kite.trade/orders/regular and every request of an AMO
    placement is a POST to https://api.kite.trade/orders/amo; the base URL
    plays no part in order placement. *)
Theorem C9_fixed_endpoints Sprintf_2f Do k orderReq :
  (∀ req, req ∈ (kite.placeAMOOrder Sprintf_2f Do k orderReq).1 →
     kite.Method req = "POST" ∧ kite.URL req = "https://api.kite.trade/orders/amo")
  ∧ (∀ req, req ∈ (kite.placeOrder Sprintf_2f Do k orderReq).1 →
       kite.Method req = "POST"
       ∧ kite.URL req = if decide (kite.Variety orderReq = "amo")
                        then "https://api.kite.trade/orders/amo"
                        else "https://api.kite.trade/orders/regular")
  ∧ (∀ base,
       kite.placeOrder Sprintf_2f Do
         {| kite.apiKey := kite.apiKey k; kite.accessToken := kite.accessToken k;
            kite.baseURL := base |} orderReq
       = kite.placeOrder Sprintf_2f Do k orderReq)
  ∧ (∀ base,
       kite.placeAMOOrder Sprintf_2f Do
         {| kite.apiKey := kite.apiKey k; kite.accessToken := kite.accessToken k;
            kite.baseURL := base |} orderReq
       = kite.placeAMOOrder Sprintf_2f Do k orderReq).
Proof.
  destruct (C9_endpoints_aux Sprintf_2f Do k orderReq) as [Hamo Hregular].
  split; [exact Hamo|]. split; [exact Hregular|]. split; intros base; reflexivity.
Qed.

Lemma C9_fixed_endpoints_witness :
  let k := kite_at "https://sandbox.kite.test" in
  ∃ req, (kite.placeOrder (λ _, "100.00") reply_ok k regular_limit_order).1 = [req]
         ∧ kite.Method req = "POST"
         ∧ kite.URL req = "https://api.kite.trade/orders/regular".
Proof.
  intros k.
  destruct (C9_fixed_endpoints (λ _, "100.00") reply_ok k regular_limit_order)
    as (_ & Hregular & _ & _).
  destruct (kite.placeOrder (λ _, "100.00") reply_ok k regular_limit_order).1
    as [|req l] eqn:E; [vm_compute in E; discriminate E|].
  destruct l; [|vm_compute in E; discriminate E].
  exists req. split; [reflexivity|].
  exact (Hregular req (list_elem_of_here _ _)).
Defined.

(** The adapter routes by the stamp of the order: an order stamped AMO
    goes to the AMO endpoint, any other to the regular one. *)
Lemma kite_ExecuteOrder_endpoint Sprintf_2f Do k now order req :
  req ∈ (kite.ExecuteOrder Sprintf_2f Do k now order).1 →
  kite.URL req = if models.IsAMO order
                 then "https://api.kite.trade/orders/amo"
                 else "https://api.kite.trade/orders/regular".
Proof.
  unfold kite.ExecuteOrder.
  destruct (if decide (models.Exchange order ≠ "") then _ else _) as [exchange symbol].
  destruct (models.IsAMO order) eqn:Hamo.
  - destruct (kite.placeAMOOrder _ _ _ _) as [sent placed] eqn:Hplace.
    intros Hreq.
    assert (Hsent : req ∈ sent).
    { destruct placed as [result|err]; [|done].
      by destruct (decide (kite.Status result ≠ "success")). }
    match type of Hplace with
    | kite.placeAMOOrder _ _ _ ?r = _ =>
      pose proof (proj1 (C9_endpoints_aux Sprintf_2f Do k r) req) as Haux
    end.
    rewrite Hplace in Haux. by apply Haux.
  - destruct (kite.placeOrder _ _ _ _) as [sent placed] eqn:Hplace.
    intros Hreq.
    assert (Hsent : req ∈ sent).
    { destruct placed as [result|err]; [|done].
      by destruct (decide (kite.Status result ≠ "success")). }
    match type of Hplace with
    | kite.placeOrder _ _ _ ?r = _ =>
      pose proof (proj2 (C9_endpoints_aux Sprintf_2f Do k r) req) as Haux
    end.
    rewrite Hplace in Haux. destruct (Haux Hsent) as [_ Hurl]. exact Hurl.
Qed.

(** ** The order store *)

Lemma Until_nonpos now t : time.Until now t ≤ 0 ↔ t ≤ now.
Proof.
  unfold time.Until, time.Sub, time.minDuration, time.maxDuration.
  destruct (Z.ltb_spec (t - now) (- 2 ^ 63)), (Z.ltb_spec (2 ^ 63 - 1) (t - now)); lia.
Qed.

Lemma reach_healthy st : redis.faults st = [] → redis.reach st = (false, st).
Proof. unfold redis.reach. by intros ->. Qed.

Lemma reach_data st :
  redis.kv (redis.reach st).2 = redis.kv st
  ∧ redis.zsets (redis.reach st).2 = redis.zsets st.
Proof. unfold redis.reach. by destruct (redis.faults st). Qed.

Lemma orderKey_inj : Inj (=) (=) cache.orderKey.
Proof. intros a b H. unfold cache.orderKey in H. by apply (inj _) in H. Qed.

Lemma orderKey_lockKey a b : cache.orderKey a ≠ cache.lockKey b.
Proof. unfold cache.orderKey, cache.lockKey. cbn. discriminate. Qed.

(** *** Sorted-set facts *)

Lemma elem_of_zinsert x y l : y ∈ redis.zinsert x l ↔ y = x ∨ y ∈ l.
Proof.
  induction l as [|z l IH]; cbn [redis.zinsert].
  - rewrite list_elem_of_singleton, elem_of_nil. tauto.
  - destruct (redis.zlt x z); rewrite !elem_of_cons; [tauto|]. rewrite IH. tauto.
Qed.

Lemma elem_of_zrem s m m0 l : (s, m) ∈ redis.zrem m0 l ↔ (s, m) ∈ l ∧ m ≠ m0.
Proof. unfold redis.zrem. rewrite list_elem_of_filter. cbn. tauto. Qed.

Lemma zrem_idemp m l : redis.zrem m (redis.zrem m l) = redis.zrem m l.
Proof.
  unfold redis.zrem. induction l as [|x l IH]; [done|].
  rewrite filter_cons. destruct (decide (x.2 ≠ m)); [|done].
  rewrite filter_cons, decide_True by done. by rewrite IH.
Qed.

Lemma zrem_zinsert s m l : redis.zrem m (redis.zinsert (s, m) l) = redis.zrem m l.
Proof.
  unfold redis.zrem. induction l as [|x l IH]; cbn [redis.zinsert].
  - rewrite filter_cons, decide_False; [done|]. cbn. by intros [].
  - destruct (redis.zlt (s, m) x).
    + rewrite filter_cons, decide_False; [done|]. cbn. by intros [].
    + rewrite !(filter_cons _ x). by rewrite IH.
Qed.

Lemma zadd_zadd s m l : redis.zadd s m (redis.zadd s m l) = redis.zadd s m l.
Proof. unfold redis.zadd. by rewrite zrem_zinsert, zrem_idemp. Qed.

Lemma occurrences_zinsert m x l :
  occurrences m (redis.zinsert x l) = (occurrences m [x] + occurrences m l)%nat.
Proof.
  unfold occurrences. induction l as [|y l IH]; cbn [redis.zinsert].
  - rewrite filter_nil. cbn [length]. lia.
  - destruct (redis.zlt x y).
    + rewrite (filter_cons _ x (y :: l)), (filter_cons _ x []), filter_nil.
      destruct (decide (x.2 = m)); cbn [length]; lia.
    + rewrite (filter_cons _ y (redis.zinsert x l)), (filter_cons _ y l).
      destruct (decide (y.2 = m)); cbn [length]; rewrite IH; lia.
Qed.

Lemma occurrences_zrem m l : occurrences m (redis.zrem m l) = 0%nat.
Proof.
  unfold occurrences, redis.zrem. induction l as [|y l IH]; [done|].
  rewrite filter_cons. destruct (decide (y.2 ≠ m)) as [Hne|]; [|done].
  by rewrite filter_cons, decide_False.
Qed.

Lemma occurrences_zadd s m l : occurrences m (redis.zadd s m l) = 1%nat.
Proof.
  unfold redis.zadd. rewrite occurrences_zinsert, occurrences_zrem.
  unfold occurrences. by rewrite filter_cons, decide_True.
Qed.

(** *** Commands on a healthy server *)

Lemma Set_healthy key value ttl st :
  redis.faults st = [] →
  redis.Set_ key value ttl st
  = (Ok (), {| redis.kv := <[key := (value, ttl)]> (redis.kv st);
               redis.zsets := redis.zsets st; redis.faults := [] |}).
Proof.
  intros Hf. unfold redis.Set_. rewrite reach_healthy by done.
  unfold redis.with_kv. by rewrite Hf.
Qed.

Lemma ZAdd_healthy key score member st :
  redis.faults st = [] →
  redis.ZAdd key score member st
  = (Ok (), {| redis.kv := redis.kv st;
               redis.zsets :=
                 <[key := redis.zadd score member (redis.zset st key)]> (redis.zsets st);
               redis.faults := [] |}).
Proof.
  intros Hf. unfold redis.ZAdd. rewrite reach_healthy by done.
  unfold redis.with_zsets. by rewrite Hf.
Qed.

Lemma SetNX_healthy key value ttl st :
  redis.faults st = [] →
  redis.SetNX key value ttl st
  = match redis.kv st !! key with
    | Some _ => (Ok false, st)
    | None => (Ok true, {| redis.kv := <[key := (value, ttl)]> (redis.kv st);
                           redis.zsets := redis.zsets st; redis.faults := [] |})
    end.
Proof.
  intros Hf. unfold redis.SetNX. rewrite reach_healthy by done.
  destruct (redis.kv st !! key); [done|]. unfold redis.with_kv. by rewrite Hf.
Qed.

Lemma zset_insert m z fs key l :
  redis.zset {| redis.kv := m; redis.zsets := <[key := l]> z; redis.faults := fs |} key = l.
Proof. unfold redis.zset. cbn. by rewrite lookup_insert_eq. Qed.

Lemma zset_zsets st st' key :
  redis.zsets st' = redis.zsets st → redis.zset st' key = redis.zset st key.
Proof. unfold redis.zset. by intros ->. Qed.

(** *** Insert *)

(** On a healthy server an insert with a JSON-encodable order and an
    expiry still ahead writes the record and the index entry. *)
Lemma StoreOrder_healthy createdAt now order expiryTime st :
  redis.faults st = [] →
  models.json_float_ok (models.Price order) = true →
  now < expiryTime →
  cache.StoreOrder createdAt now order expiryTime st
  = (Ok (),
     {| redis.kv :=
          <[cache.orderKey (models.ID order) :=
              (models.JSON (models.json_entry {| models.entry_Order := order;
                              models.ExpiryTime := expiryTime;
                              models.entry_CreatedAt := createdAt |}),
               time.Until now expiryTime)]> (redis.kv st);
        redis.zsets :=
          <[cache.pending_orders :=
              redis.zadd (time.Unix (models.ScheduledTime order)) (models.ID order)
                (redis.zset st cache.pending_orders)]> (redis.zsets st);
        redis.faults := [] |}).
Proof.
  intros Hf Hjson Hexp. unfold cache.StoreOrder, models.ToJSON. cbn.
  rewrite Hjson.
  destruct (Z.leb_spec (time.Until now expiryTime) 0) as [Hle|_];
    [apply (proj1 (Until_nonpos _ _)) in Hle; lia|].
  rewrite Set_healthy by done. by rewrite ZAdd_healthy.
Qed.

(** C7: an insert whose expiry is not after the clock fails and leaves
    the store as it was, with the "expiry time is in the past" error for
    every order that can be encoded as JSON (finite price); and a row
    whose scheduled instant is before the clock yields no order, so that
    caching its orders leaves the store, and with it every later due
    query, unchanged. *)
Theorem C7_expired_insert_rejected createdAt now order expiryTime st
    tzdata rfc3339 side now0 nowIST row clock k due_now :
  expiryTime ≤ now →
  reader.row_scheduledTime row < nowIST →
  (∃ err, cache.StoreOrder createdAt now order expiryTime st = (Err err, st)
          ∧ (models.json_float_ok (models.Price order) = true →
             err = Errorf "expiry time is in the past"))
  ∧ reader.parseRow tzdata rfc3339 side now0 nowIST row = []
  ∧ reader.cacheOrders clock k
      (reader.parseRow tzdata rfc3339 side now0 nowIST row) st = st
  ∧ cache.GetOrdersDueForExecution due_now
      (reader.cacheOrders clock k
         (reader.parseRow tzdata rfc3339 side now0 nowIST row) st)
    = cache.GetOrdersDueForExecution due_now st.
Proof.
  intros Hexp Hpast. split.
  - unfold cache.StoreOrder, models.ToJSON. cbn.
    destruct (models.json_float_ok (models.Price order)).
    + apply (proj2 (Until_nonpos _ _)), Z.leb_le in Hexp. rewrite Hexp. eauto.
    + eexists. split; [reflexivity|]. discriminate.
  - assert (Hnil : reader.parseRow tzdata rfc3339 side now0 nowIST row = []).
    { unfold reader.parseRow.
      destruct (decide (reader.row_symbol row = "")); [done|].
      unfold time.Before. apply Z.ltb_lt in Hpast. by rewrite Hpast. }
    rewrite Hnil. done.
Qed.

(** Scenario 6 of the specification: a row scheduled ten seconds before
    the clock, and the insert its order would have needed. *)
Lemma C7_expired_insert_witness :
  let now := monday_6pm + 10 * time.Second in
  let row := {| reader.row_price := S754_finite false 100 0;
                reader.row_symbol := "XYZ";
                reader.row_scheduledTime := monday_6pm;
                reader.row_lots := Some 1;
                reader.row_totalQuantity := 5;
                reader.row_exchange := "NSE" |} in
  cache.StoreOrder now now sample_order (time.Add monday_6pm (10 * time.Second)) empty_store
  = (Err (Errorf "expiry time is in the past"), empty_store)
  ∧ reader.parseRow true (λ _, "2025-03-10T18:00:00+05:30") "Buy" now now row = [].
Proof.
  intros now row.
  destruct (C7_expired_insert_rejected now now sample_order
              (time.Add monday_6pm (10 * time.Second)) empty_store
              true (λ _, "2025-03-10T18:00:00+05:30") "Buy" now now row (λ _, now) 0%nat now)
    as [(err & Hstore & Herr) (Hrow & _)].
  - vm_compute. discriminate.
  - vm_compute. reflexivity.
  - split; [|exact Hrow]. rewrite Hstore, Herr; reflexivity.
Defined.

(** C6: on a healthy server, inserting the same JSON-encodable order
    twice in a row with an expiry still ahead succeeds both times and
    leaves one record under [order:{id}] (the second entry), no key more
    than after the first insert, the same due index as after the first
    insert, and in it exactly one entry for the id, at the score of the
    scheduled instant. *)
Theorem C6_insert_idempotent c1 n1 c2 n2 order expiryTime st :
  redis.faults st = [] →
  models.json_float_ok (models.Price order) = true →
  n1 < expiryTime → n2 < expiryTime →
  let r1 := cache.StoreOrder c1 n1 order expiryTime st in
  let r2 := cache.StoreOrder c2 n2 order expiryTime r1.2 in
  r1.1 = Ok () ∧ r2.1 = Ok ()
  ∧ record r2.2 (models.ID order)
    = Some (models.JSON (models.json_entry {| models.entry_Order := order;
                           models.ExpiryTime := expiryTime;
                           models.entry_CreatedAt := c2 |}),
            time.Until n2 expiryTime)
  ∧ dom (redis.kv r2.2) = dom (redis.kv r1.2)
  ∧ redis.zset r2.2 cache.pending_orders = redis.zset r1.2 cache.pending_orders
  ∧ occurrences (models.ID order) (redis.zset r2.2 cache.pending_orders) = 1%nat
  ∧ (time.Unix (models.ScheduledTime order), models.ID order)
      ∈ redis.zset r2.2 cache.pending_orders.
Proof.
  intros Hf Hjson H1 H2 r1 r2. subst r1 r2.
  rewrite (StoreOrder_healthy c1 n1) by done. cbn [snd fst].
  rewrite (StoreOrder_healthy c2 n2) by done. cbn [snd fst].
  rewrite !zset_insert. unfold record. cbn [redis.kv].
  rewrite lookup_insert_eq, zadd_zadd.
  repeat split.
  - rewrite !dom_insert_L. by rewrite (assoc_L _), (idemp_L _).
  - apply occurrences_zadd.
  - unfold redis.zadd. apply elem_of_zinsert. by left.
Qed.

Lemma C6_insert_idempotent_witness :
  let t := monday_6pm - 60 * time.Second in
  let e := time.Add monday_6pm (10 * time.Second) in
  let st2 := (cache.StoreOrder t t sample_order e store_with_sample).2 in
  occurrences (models.ID sample_order) (redis.zset st2 cache.pending_orders) = 1%nat
  ∧ dom (redis.kv st2) = dom (redis.kv store_with_sample).
Proof.
  intros t e st2.
  destruct (C6_insert_idempotent t t t t sample_order e empty_store)
    as (_ & _ & _ & Hdom & _ & Hocc & _).
  - reflexivity.
  - reflexivity.
  - vm_compute. reflexivity.
  - vm_compute. reflexivity.
  - split; [exact Hocc|exact Hdom].
Defined.

(** *** Reads and deletions on a healthy server, and what any command may change *)

Lemma Get_healthy key st :
  redis.faults st = [] →
  redis.Get key st
  = (match redis.kv st !! key with
     | Some (value, _) => Ok value
     | None => Err RedisNil
     end, st).
Proof.
  intros Hf. unfold redis.Get. rewrite reach_healthy by done.
  by destruct (redis.kv st !! key) as [[]|].
Qed.

Lemma ZRem_healthy key member st :
  redis.faults st = [] →
  redis.ZRem key member st
  = (Ok (), {| redis.kv := redis.kv st;
               redis.zsets := <[key := redis.zrem member (redis.zset st key)]> (redis.zsets st);
               redis.faults := [] |}).
Proof.
  intros Hf. unfold redis.ZRem. rewrite reach_healthy by done.
  unfold redis.with_zsets. by rewrite Hf.
Qed.

Lemma Del_healthy key st :
  redis.faults st = [] →
  redis.Del key st
  = (Ok (), {| redis.kv := delete key (redis.kv st); redis.zsets := redis.zsets st;
               redis.faults := [] |}).
Proof.
  intros Hf. unfold redis.Del. rewrite reach_healthy by done.
  unfold redis.with_kv. by rewrite Hf.
Qed.

Lemma RemoveOrder_healthy orderID st :
  redis.faults st = [] →
  cache.RemoveOrder orderID st
  = (Ok (), {| redis.kv := delete (cache.orderKey orderID) (redis.kv st);
               redis.zsets :=
                 <[cache.pending_orders :=
                     redis.zrem orderID (redis.zset st cache.pending_orders)]> (redis.zsets st);
               redis.faults := [] |}).
Proof.
  intros Hf. unfold cache.RemoveOrder. rewrite Del_healthy by done.
  by rewrite ZRem_healthy.
Qed.

Lemma Get_data key st :
  redis.kv (redis.Get key st).2 = redis.kv st
  ∧ (∀ d, (redis.Get key st).1 = Ok d → ∃ ttl, redis.kv st !! key = Some (d, ttl)).
Proof.
  unfold redis.Get. pose proof (reach_data st) as [Hkv _].
  destruct (redis.reach st) as [[] st1]; cbn in *; [done|].
  rewrite Hkv. destruct (redis.kv st !! key) as [[v ttl]|]; cbn; split; try done.
  intros d [= <-]. eauto.
Qed.

Lemma ZRem_data key member st : redis.kv (redis.ZRem key member st).2 = redis.kv st.
Proof.
  unfold redis.ZRem. pose proof (reach_data st) as [Hkv _].
  by destruct (redis.reach st) as [[] st1].
Qed.

Lemma Del_data key st : redis.kv (redis.Del key st).2 ⊆ redis.kv st.
Proof.
  unfold redis.Del. pose proof (reach_data st) as [Hkv _].
  destruct (redis.reach st) as [[] st1]; cbn in *; rewrite <- Hkv; [done|].
  apply delete_subseteq.
Qed.

Lemma RemoveOrder_data orderID st :
  redis.kv (cache.RemoveOrder orderID st).2 ⊆ redis.kv st.
Proof.
  unfold cache.RemoveOrder. pose proof (Del_data (cache.orderKey orderID) st) as HD.
  destruct (redis.Del _ st) as [[[]|err] st1]; cbn in *; [|done].
  pose proof (ZRem_data cache.pending_orders orderID st1) as HZ.
  destruct (redis.ZRem _ _ st1) as [[[]|err] st2]; cbn in *; by rewrite HZ.
Qed.

(** *** The due query *)

(** Whatever the server does, an order in the answer was built so far or
    comes from a record the store held, read under the key of one of the
    ids, and the clock is not after that record's expiry. *)
Lemma collectDue_sound now orderIDs :
  ∀ orders st res st',
    cache.collectDue now orderIDs orders st = (res, st') →
    redis.kv st' ⊆ redis.kv st
    ∧ ∀ o, o ∈ res →
        o ∈ orders
        ∨ ∃ id e ttl, id ∈ orderIDs
            ∧ redis.kv st !! cache.orderKey id = Some (models.JSON e, ttl)
            ∧ o = models.entry_Order e
            ∧ time.After now (models.ExpiryTime e) = false.
Proof.
  induction orderIDs as [|orderID rest IH]; intros orders st res st'; cbn.
  - intros [= <- <-]. split; [done|]. by left.
  - pose proof (Get_data (cache.orderKey orderID) st) as [Hkv Hget].
    destruct (redis.Get _ st) as [[data|err] st1]; cbn in *.
    + destruct (Hget data eq_refl) as [ttl Hrec].
      destruct data as [e|raw]; cbn.
      * destruct (time.After now (models.ExpiryTime e)) eqn:Hexp.
        -- pose proof (RemoveOrder_data (models.ID (models.entry_Order e)) st1) as Hsub.
           destruct (cache.RemoveOrder _ st1) as [r st2]; cbn in *.
           intros [Hsub' Hres]%IH. rewrite Hkv in Hsub.
           split; [by etrans|].
           intros o [?|(id & e' & ttl' & Hin & Hlk & -> & Hexp')]%Hres; [by left|right].
           exists id, e', ttl'. repeat split; try done; [by right|].
           eapply lookup_weaken; [exact Hlk|done].
        -- intros [Hsub' Hres]%IH. rewrite Hkv in Hsub'. split; [done|].
           intros o [[?| ->%list_elem_of_singleton]%elem_of_app
                    |(id & e' & ttl' & Hin & Hlk & -> & Hexp')]%Hres.
           ++ by left.
           ++ right. exists orderID, e, ttl. repeat split; try done. by left.
           ++ right. exists id, e', ttl'. rewrite <- Hkv. repeat split; try done. by right.
      * intros [Hsub' Hres]%IH. rewrite Hkv in Hsub'. split; [done|].
        intros o [?|(id & e' & ttl' & Hin & Hlk & -> & Hexp')]%Hres; [by left|right].
        exists id, e', ttl'. rewrite <- Hkv. repeat split; try done. by right.
    + assert (Hskip : ∀ st2, redis.kv st2 = redis.kv st →
                cache.collectDue now rest orders st2 = (res, st') →
                redis.kv st' ⊆ redis.kv st
                ∧ ∀ o, o ∈ res → o ∈ orders
                    ∨ ∃ id e ttl, id ∈ orderID :: rest
                        ∧ redis.kv st !! cache.orderKey id = Some (models.JSON e, ttl)
                        ∧ o = models.entry_Order e
                        ∧ time.After now (models.ExpiryTime e) = false).
      { intros st2 Hkv2 [Hsub' Hres]%IH. rewrite Hkv2 in Hsub'. split; [done|].
        intros o [?|(id & e' & ttl' & Hin & Hlk & -> & Hexp')]%Hres; [by left|right].
        exists id, e', ttl'. rewrite <- Hkv2. repeat split; try done. by right. }
      destruct err; try (apply Hskip; done).
      pose proof (ZRem_data cache.pending_orders orderID st1) as HZ.
      destruct (redis.ZRem _ _ st1) as [r st2]; cbn in *.
      apply Hskip. by rewrite HZ.
Qed.

Lemma elem_of_zrange lo hi l m :
  m ∈ redis.zrange lo hi l ↔ ∃ s, (s, m) ∈ l ∧ lo ≤ s ≤ hi.
Proof.
  unfold redis.zrange. rewrite list_elem_of_fmap. split.
  - intros ([s m'] & -> & [H1 H2]%list_elem_of_filter). cbn in *. eauto.
  - intros (s & Hin & Hs). exists (s, m). split; [done|].
    apply list_elem_of_filter. done.
Qed.

(** On a healthy server the loop only ever deletes, and a record met under
    its own id with the clock after its expiry is gone afterwards, record
    and index entry. *)
Lemma collectDue_evicts now orderIDs :
  ∀ orders st res st',
    redis.faults st = [] →
    cache.collectDue now orderIDs orders st = (res, st') →
    redis.faults st' = []
    ∧ redis.kv st' ⊆ redis.kv st
    ∧ (∀ p, p ∈ redis.zset st' cache.pending_orders →
            p ∈ redis.zset st cache.pending_orders)
    ∧ ∀ id e ttl,
        id ∈ orderIDs →
        redis.kv st !! cache.orderKey id = Some (models.JSON e, ttl) →
        models.ID (models.entry_Order e) = id →
        time.After now (models.ExpiryTime e) = true →
        redis.kv st' !! cache.orderKey id = None ∧ ¬ indexed st' id.
Proof.
  induction orderIDs as [|orderID rest IH]; intros orders st res st' Hf; cbn.
  - intros [= <- <-]. split; [done|]. split; [done|]. split; [done|].
    by intros ? ? ? ?%elem_of_nil.
  - rewrite Get_healthy by done.
    destruct (redis.kv st !! cache.orderKey orderID) as [[data ttl0]|] eqn:Hrec.
    + destruct data as [e0|raw]; cbn.
      * destruct (time.After now (models.ExpiryTime e0)) eqn:Hexp.
        -- rewrite RemoveOrder_healthy by done.
           intros (Hf' & Hsub & Hz & Hev)%IH; [|done]. cbn in Hsub.
           assert (Hz2 : ∀ s m, (s, m) ∈ redis.zset st' cache.pending_orders →
                     (s, m) ∈ redis.zset st cache.pending_orders
                     ∧ m ≠ models.ID (models.entry_Order e0)).
           { intros s m Hp%Hz. rewrite zset_insert in Hp. by apply elem_of_zrem in Hp. }
           split; [done|]. split; [etrans; [exact Hsub|apply delete_subseteq]|].
           split; [intros [s m] Hp; by apply Hz2 in Hp as [? _]|].
           intros id e ttl Hin Hlk Hid Hexp'.
           destruct (decide (id = models.ID (models.entry_Order e0))) as [->|Hne].
           ++ split.
              ** eapply lookup_weaken_None; [|exact Hsub]. apply lookup_delete_eq.
              ** intros [s Hs]. by apply Hz2 in Hs as [_ ?].
           ++ apply elem_of_cons in Hin as [->|Hin].
              { rewrite Hrec in Hlk. injection Hlk as -> ->. done. }
              apply (Hev id e ttl); try done. cbn.
              rewrite lookup_delete_ne; [done|]. by intros ?%orderKey_inj.
        -- intros (Hf' & Hsub & Hz & Hev)%IH; [|done].
           split; [done|]. split; [done|]. split; [done|].
           intros id e ttl Hin Hlk Hid Hexp'.
           apply elem_of_cons in Hin as [->|Hin];
             [rewrite Hrec in Hlk; injection Hlk as -> ->; congruence|].
           by apply (Hev id e ttl).
      * intros (Hf' & Hsub & Hz & Hev)%IH; [|done].
        split; [done|]. split; [done|]. split; [done|].
        intros id e ttl Hin Hlk Hid Hexp'.
        apply elem_of_cons in Hin as [->|Hin]; [congruence|].
        by apply (Hev id e ttl).
    + rewrite ZRem_healthy by done.
      intros (Hf' & Hsub & Hz & Hev)%IH; [|done]. cbn in Hsub.
      split; [done|]. split; [done|]. split.
      * intros [s m] Hp%Hz. rewrite zset_insert in Hp. by apply elem_of_zrem in Hp as [? _].
      * intros id e ttl Hin Hlk Hid Hexp'.
        apply elem_of_cons in Hin as [->|Hin]; [congruence|].
        by apply (Hev id e ttl).
Qed.

(** The due query as a whole: what is returned was recorded, indexed in
    range and not yet past its expiry. *)
Lemma due_from_records now st res st' o :
  cache.GetOrdersDueForExecution now st = (Ok res, st') →
  o ∈ res →
  ∃ score id e ttl,
    (score, id) ∈ redis.zset st cache.pending_orders
    ∧ 0 ≤ score ≤ time.Unix now
    ∧ record st id = Some (models.JSON e, ttl)
    ∧ o = models.entry_Order e
    ∧ now ≤ models.ExpiryTime e.
Proof.
  unfold cache.GetOrdersDueForExecution, redis.ZRangeByScore.
  pose proof (reach_data st) as [Hkv Hzs].
  destruct (redis.reach st) as [failed st1] eqn:Hreach; cbn in Hkv, Hzs.
  destruct failed; [discriminate|].
  destruct (cache.collectDue now _ [] st1) as [orders st2] eqn:Hloop.
  intros [= <- <-] Ho.
  assert (Hzset : redis.zset st1 cache.pending_orders = redis.zset st cache.pending_orders)
    by (unfold redis.zset; by rewrite Hzs).
  destruct (collectDue_sound _ _ _ _ _ _ Hloop) as [_ Hsound].
  destruct (Hsound o Ho) as [[]%elem_of_nil|(id & e & ttl & Hid & Hrec & -> & Hexp)].
  apply elem_of_zrange in Hid as (score & Hin & Hscore).
  rewrite Hzset in Hin. rewrite Hkv in Hrec.
  exists score, id, e, ttl. repeat split; try done; try lia.
  unfold time.After in Hexp. by apply Z.ltb_ge in Hexp.
Qed.

(** *** The two store invariants are kept by the cache *)

Lemma Set_data key value ttl st :
  redis.kv (redis.Set_ key value ttl st).2 = redis.kv st
  ∨ redis.kv (redis.Set_ key value ttl st).2 = <[key := (value, ttl)]> (redis.kv st).
Proof.
  unfold redis.Set_. pose proof (reach_data st) as [Hkv _].
  destruct (redis.reach st) as [[] st1]; cbn in *; [by left|right]. by rewrite Hkv.
Qed.

Lemma ZAdd_data key score member st :
  redis.kv (redis.ZAdd key score member st).2 = redis.kv st.
Proof.
  unfold redis.ZAdd. pose proof (reach_data st) as [Hkv _].
  by destruct (redis.reach st) as [[] st1].
Qed.

Lemma ids_wf_weaken st st' :
  (∀ id e ttl, record st' id = Some (models.JSON e, ttl) →
               record st id = Some (models.JSON e, ttl)) →
  ids_wf st → ids_wf st'.
Proof. intros Hsub Hwf id e ttl Hrec. eapply Hwf, Hsub, Hrec. Qed.

Lemma empty_store_invariants : ids_wf empty_store ∧ index_consistent empty_store.
Proof.
  split.
  - intros id e ttl Hrec. unfold record in Hrec. cbn in Hrec.
    by rewrite lookup_empty in Hrec.
  - intros score id e ttl _ Hrec. unfold record in Hrec. cbn in Hrec.
    by rewrite lookup_empty in Hrec.
Qed.

(** Whatever the server does, the insert of an order whose id is
    well-formed UTF-8 keeps every record under the key of its own id. *)
Lemma StoreOrder_wf createdAt now order expiryTime st :
  models.json_string (models.ID order) = models.ID order →
  ids_wf st → ids_wf (cache.StoreOrder createdAt now order expiryTime st).2.
Proof.
  intros Hid Hwf. unfold cache.StoreOrder, models.ToJSON. cbn zeta.
  destruct (models.json_float_ok _); [|done].
  destruct (time.Until now expiryTime <=? 0); [done|].
  pose proof (Set_data (cache.orderKey (models.ID order))
                (models.JSON (models.json_entry
                                {| models.entry_Order := order;
                                   models.ExpiryTime := expiryTime;
                                   models.entry_CreatedAt := createdAt |}))
                (time.Until now expiryTime) st) as Hset.
  assert (Hnew : ∀ st1,
    (redis.kv st1 = redis.kv st
     ∨ redis.kv st1
       = <[cache.orderKey (models.ID order) :=
             (models.JSON (models.json_entry
                             {| models.entry_Order := order;
                                models.ExpiryTime := expiryTime;
                                models.entry_CreatedAt := createdAt |}),
              time.Until now expiryTime)]> (redis.kv st)) →
    ids_wf st1).
  { intros st1 Hkv id e ttl. unfold record.
    destruct Hkv as [-> | ->]; [apply Hwf|].
    intros [[Hkey [= <- _]]|[_ Hold]]%lookup_insert_Some.
    - apply orderKey_inj in Hkey. cbn. by rewrite Hid.
    - by apply (Hwf id e ttl). }
  destruct (redis.Set_ _ _ _ st) as [[[]|err] st1]; cbn [snd] in *.
  - pose proof (ZAdd_data cache.pending_orders
                  (time.Unix (models.ScheduledTime order)) (models.ID order) st1) as Hadd.
    destruct (redis.ZAdd _ _ _ st1) as [[[]|err] st2]; cbn [snd] in *;
      apply Hnew; by rewrite Hadd.
  - by apply Hnew.
Qed.

Lemma RemoveOrder_wf orderID st :
  ids_wf st → ids_wf (cache.RemoveOrder orderID st).2.
Proof.
  apply ids_wf_weaken. intros id e ttl Hrec.
  eapply lookup_weaken; [exact Hrec|apply RemoveOrder_data].
Qed.

Lemma GetOrdersDueForExecution_wf now st :
  ids_wf st → ids_wf (cache.GetOrdersDueForExecution now st).2.
Proof.
  apply ids_wf_weaken. intros id e ttl.
  unfold cache.GetOrdersDueForExecution, redis.ZRangeByScore.
  pose proof (reach_data st) as [Hkv _].
  destruct (redis.reach st) as [[] st1]; cbn in Hkv |- *;
    [unfold record; by rewrite Hkv|].
  destruct (cache.collectDue now _ [] st1) as [orders st2] eqn:Hloop. cbn.
  destruct (collectDue_sound _ _ _ _ _ _ Hloop) as [Hsub _].
  unfold record. intros Hrec. rewrite <- Hkv. by eapply lookup_weaken.
Qed.

(** On a healthy server a successful insert keeps the scores of the index
    equal to the scheduled seconds of the records. *)
Lemma StoreOrder_consistent createdAt now order expiryTime st :
  redis.faults st = [] →
  models.json_float_ok (models.Price order) = true →
  now < expiryTime →
  index_consistent st →
  index_consistent (cache.StoreOrder createdAt now order expiryTime st).2.
Proof.
  intros Hf Hjson Hexp Hcons. rewrite StoreOrder_healthy by done. cbn [snd].
  intros score id e ttl Hin. rewrite zset_insert in Hin.
  unfold redis.zadd in Hin. apply elem_of_zinsert in Hin. unfold record. cbn.
  destruct Hin as [[= -> ->]|[Hin Hne]%elem_of_zrem].
  - rewrite lookup_insert_eq. by intros [= <- _].
  - rewrite lookup_insert_ne by (by intros ?%orderKey_inj).
    by apply Hcons.
Qed.

Lemma RemoveOrder_consistent orderID st :
  redis.faults st = [] →
  index_consistent st →
  index_consistent (cache.RemoveOrder orderID st).2.
Proof.
  intros Hf Hcons. rewrite RemoveOrder_healthy by done. cbn [snd].
  intros score id e ttl Hin. rewrite zset_insert in Hin.
  apply elem_of_zrem in Hin as [Hin Hne]. unfold record. cbn.
  intros [_ Hrec]%lookup_delete_Some. by apply (Hcons score id e ttl).
Qed.

(** *** The due query on a healthy server *)

Lemma due_entry_delete now st st2 orderID e ttl :
  record st orderID = Some (models.JSON e, ttl) →
  time.After now (models.ExpiryTime e) = true →
  redis.kv st2 = delete (cache.orderKey orderID) (redis.kv st) →
  ∀ id, due_entry now st2 id = due_entry now st id.
Proof.
  intros Hrec Hexp Hkv id. unfold due_entry, record. rewrite Hkv.
  destruct (decide (id = orderID)) as [->|Hne].
  - rewrite lookup_delete_eq. unfold record in Hrec. by rewrite Hrec, Hexp.
  - rewrite lookup_delete_ne; [done|]. by intros ?%orderKey_inj.
Qed.

(** The loop, read as a function of the store it starts from: the
    evictions made on the way never change what a later id yields. *)
Lemma collectDue_exact now orderIDs :
  ∀ orders st,
    redis.faults st = [] → ids_wf st →
    (cache.collectDue now orderIDs orders st).1
    = (orders ++ omap (due_entry now st) orderIDs)%list.
Proof.
  induction orderIDs as [|orderID rest IH]; intros orders st Hf Hwf; cbn.
  - by rewrite app_nil_r.
  - rewrite Get_healthy by done. unfold due_entry at 1, record.
    destruct (redis.kv st !! cache.orderKey orderID) as [[data ttl0]|] eqn:Hrec.
    + destruct data as [e0|raw]; cbn.
      * destruct (time.After now (models.ExpiryTime e0)) eqn:Hexp.
        -- rewrite (Hwf orderID e0 ttl0 Hrec).
           pose proof (RemoveOrder_wf orderID st Hwf) as Hwf2.
           rewrite RemoveOrder_healthy in Hwf2 |- * by done. cbn [snd] in Hwf2.
           rewrite IH by done. f_equal. apply list_omap_ext, Forall2_same_length_lookup.
           split; [done|]. intros i x y Hx Hy. rewrite Hx in Hy. injection Hy as <-.
           by apply (due_entry_delete now st _ orderID e0 ttl0).
        -- rewrite IH by done. by rewrite <- (assoc_L app).
      * by apply IH.
    + rewrite ZRem_healthy by done.
      pose proof (IH orders {| redis.kv := redis.kv st;
                                redis.zsets := <[cache.pending_orders :=
                                  redis.zrem orderID (redis.zset st cache.pending_orders)]>
                                  (redis.zsets st);
                                redis.faults := [] |} eq_refl) as IH'.
      rewrite IH' by (intros id e ttl; apply Hwf). done.
Qed.

Lemma due_healthy_result now st :
  redis.faults st = [] →
  ids_wf st →
  (cache.GetOrdersDueForExecution now st).1
  = Ok (omap (due_entry now st)
          (redis.zrange 0 (time.Unix now) (redis.zset st cache.pending_orders))).
Proof.
  intros Hf Hwf. unfold cache.GetOrdersDueForExecution, redis.ZRangeByScore.
  rewrite reach_healthy by done.
  pose proof (collectDue_exact now
                (redis.zrange 0 (time.Unix now) (redis.zset st cache.pending_orders))
                [] st Hf Hwf) as Hloop.
  destruct (cache.collectDue now _ [] st) as [orders st2]. cbn in *. by rewrite Hloop.
Qed.

(** On a healthy server, what the loop leaves of the orders it returns. *)
Lemma collectDue_keeps now orderIDs :
  ∀ orders st id o,
    redis.faults st = [] → ids_wf st →
    due_entry now st id = Some o →
    let st' := (cache.collectDue now orderIDs orders st).2 in
    record st' id = record st id
    ∧ ∀ s, (s, id) ∈ redis.zset st cache.pending_orders →
           (s, id) ∈ redis.zset st' cache.pending_orders.
Proof.
  induction orderIDs as [|orderID rest IH]; intros orders st id o Hf Hwf Hdue; cbn.
  - done.
  - rewrite Get_healthy by done.
    destruct (redis.kv st !! cache.orderKey orderID) as [[data ttl0]|] eqn:Hrec.
    + destruct data as [e0|raw]; cbn.
      * destruct (time.After now (models.ExpiryTime e0)) eqn:Hexp.
        -- rewrite (Hwf orderID e0 ttl0 Hrec).
           assert (Hne : id ≠ orderID).
           { intros ->. unfold due_entry, record in Hdue. by rewrite Hrec, Hexp in Hdue. }
           pose proof (RemoveOrder_wf orderID st Hwf) as Hwf2.
           rewrite RemoveOrder_healthy in Hwf2 |- * by done. cbn [snd] in Hwf2.
           set (st2 := {| redis.kv := delete (cache.orderKey orderID) (redis.kv st);
                          redis.zsets := <[cache.pending_orders :=
                            redis.zrem orderID (redis.zset st cache.pending_orders)]>
                            (redis.zsets st);
                          redis.faults := [] |}) in *.
           destruct (IH orders st2 id o eq_refl Hwf2) as [Hr Hz].
           { rewrite (due_entry_delete now st st2 orderID e0 ttl0); done. }
           split.
           ++ rewrite Hr. unfold record, st2. cbn.
              apply lookup_delete_ne. by intros ?%orderKey_inj.
           ++ intros s Hin. apply Hz. unfold st2. rewrite zset_insert.
              by apply elem_of_zrem.
        -- by apply (IH _ st id o).
      * by apply (IH _ st id o).
    + rewrite ZRem_healthy by done.
      assert (Hne : id ≠ orderID).
      { intros ->. unfold due_entry, record in Hdue. by rewrite Hrec in Hdue. }
      edestruct (IH orders {| redis.kv := redis.kv st;
                              redis.zsets := <[cache.pending_orders :=
                                redis.zrem orderID (redis.zset st cache.pending_orders)]>
                                (redis.zsets st);
                              redis.faults := [] |} id o eq_refl) as [Hr Hz].
      { intros id' e ttl. apply Hwf. }
      { exact Hdue. }
      split; [exact Hr|].
      intros s Hin. apply Hz. rewrite zset_insert. by apply elem_of_zrem.
Qed.

Lemma store_with_sample_wf : ids_wf store_with_sample.
Proof. apply StoreOrder_wf; [reflexivity|apply empty_store_invariants]. Qed.

(** *** The bounds of the due query *)

(** C5, as stated, fails: a record whose expiry equals the clock of the
    query is returned, not evicted (a record is dropped only when the
    clock is strictly after its expiry).  And a record that the clock has
    passed is not always evicted: not when the server fails the DEL of
    the eviction, and not when the record sits under a key other than
    that of the order id it holds, since the eviction removes the order
    named in the record. *)
Lemma C5_returned_at_expiry :
  let now := time.Add monday_6pm (10 * time.Second) in
  let later := time.Add monday_6pm (11 * time.Second) in
  ((∃ ttl, record store_with_sample (models.ID sample_order)
           = Some (models.JSON {| models.entry_Order := sample_order;
                                  models.ExpiryTime := now;
                                  models.entry_CreatedAt := monday_6pm - 60 * time.Second |},
                   ttl))
   ∧ (cache.GetOrdersDueForExecution now store_with_sample).1 = Ok [sample_order]
   ∧ record (cache.GetOrdersDueForExecution now store_with_sample).2
       (models.ID sample_order) ≠ None
   ∧ ¬ (∀ now st res st' o,
          cache.GetOrdersDueForExecution now st = (Ok res, st') →
          o ∈ res →
          ∃ e ttl, record st (models.ID o) = Some (models.JSON e, ttl)
                   ∧ models.ScheduledTime o ≤ now
                   ∧ now < models.ExpiryTime e))
  ∧ ((cache.GetOrdersDueForExecution later store_third_fault).1 = Ok []
     ∧ record (cache.GetOrdersDueForExecution later store_third_fault).2
         (models.ID sample_order)
       = record store_with_sample (models.ID sample_order)
     ∧ indexed (cache.GetOrdersDueForExecution later store_third_fault).2
         (models.ID sample_order))
  ∧ ((cache.GetOrdersDueForExecution later store_ill_formed).1 = Ok []
     ∧ (cache.GetOrdersDueForExecution later store_ill_formed).2 = store_ill_formed
     ∧ is_Some (record store_ill_formed (models.ID order_ill_formed))
     ∧ indexed store_ill_formed (models.ID order_ill_formed)).
Proof.
  intros now later. split; [|split].
  - destruct (cache.GetOrdersDueForExecution now store_with_sample) as [r st'] eqn:E.
    assert (Hr : r = Ok [sample_order]) by (vm_compute in E; by injection E as <- _).
    subst r.
    split; [eexists; vm_compute; reflexivity|]. split; [reflexivity|]. split.
    + cbn [snd]. vm_compute in E. injection E as <-. vm_compute. discriminate.
    + intros H.
      destruct (H now store_with_sample [sample_order] st' sample_order E
                  (list_elem_of_here _ _)) as (e & ttl & Hrec & _ & Hlt).
      vm_compute in Hrec. injection Hrec as <- _.
      vm_compute in Hlt. discriminate Hlt.
  - split; [vm_compute; reflexivity|]. split; [vm_compute; reflexivity|].
    exists (time.Unix monday_6pm). vm_compute. apply list_elem_of_here.
  - split; [vm_compute; reflexivity|]. split; [vm_compute; reflexivity|].
    split; [eexists; vm_compute; reflexivity|].
    exists (time.Unix monday_6pm). vm_compute. apply list_elem_of_here.
Qed.

(** C5 (amended): every order the due query returns comes from a record
    of the store whose index score lies between 0 and the Unix second of
    the clock and whose expiry is not before the clock.  When the index
    scores are the Unix seconds of the scheduled instants, as [StoreOrder]
    writes them, the order's scheduled second is not after the clock's,
    and a schedule on a whole second, as the ingester builds it, is not
    after the clock.  On a healthy server, an indexed record in the score
    range that sits under the key of its own order id and whose expiry is
    strictly before the clock is evicted, record and index entry; and
    when all records sit under their own ids, an indexed record in the
    score range whose expiry is at the clock or after it is returned and
    stays in the store with its index entry. *)
Theorem C5_due_bounds now st res st' :
  cache.GetOrdersDueForExecution now st = (Ok res, st') →
  (∀ o, o ∈ res →
     ∃ score id e ttl,
       (score, id) ∈ redis.zset st cache.pending_orders
       ∧ 0 ≤ score ≤ time.Unix now
       ∧ record st id = Some (models.JSON e, ttl)
       ∧ o = models.entry_Order e
       ∧ now ≤ models.ExpiryTime e
       ∧ (index_consistent st →
          time.Unix (models.ScheduledTime o) ≤ time.Unix now
          ∧ (models.ScheduledTime o `mod` time.Second = 0 →
             models.ScheduledTime o ≤ now)))
  ∧ (redis.faults st = [] →
     ∀ score id e ttl,
       (score, id) ∈ redis.zset st cache.pending_orders →
       0 ≤ score ≤ time.Unix now →
       record st id = Some (models.JSON e, ttl) →
       models.ID (models.entry_Order e) = id →
       models.ExpiryTime e < now →
       record st' id = None ∧ ¬ indexed st' id)
  ∧ (redis.faults st = [] → ids_wf st →
     ∀ score id e ttl,
       (score, id) ∈ redis.zset st cache.pending_orders →
       0 ≤ score ≤ time.Unix now →
       record st id = Some (models.JSON e, ttl) →
       now ≤ models.ExpiryTime e →
       models.entry_Order e ∈ res
       ∧ record st' id = Some (models.JSON e, ttl)
       ∧ (score, id) ∈ redis.zset st' cache.pending_orders).
Proof.
  intros Hdue. split; [|split].
  - intros o Ho.
    destruct (due_from_records _ _ _ _ _ Hdue Ho)
      as (score & id & e & ttl & Hin & Hscore & Hrec & -> & Hexp).
    exists score, id, e, ttl. repeat split; try done; try lia.
    + rewrite <- (H score id e ttl Hin Hrec). lia.
    + intros Hwhole.
      pose proof (H score id e ttl Hin Hrec) as Hs. unfold time.Unix in *.
      assert (Hsec : 0 < time.Second) by (unfold time.Second; lia).
      pose proof (Z.div_mod (models.ScheduledTime (models.entry_Order e)) time.Second
                    ltac:(lia)) as Hdm.
      pose proof (Z.mul_div_le now time.Second Hsec).
      rewrite Hwhole in Hdm. nia.
  - revert Hdue. unfold cache.GetOrdersDueForExecution, redis.ZRangeByScore.
    pose proof (reach_data st) as [Hkv Hzs].
    destruct (redis.reach st) as [failed st1] eqn:Hreach; cbn in Hkv, Hzs.
    destruct failed; [discriminate|].
    destruct (cache.collectDue now _ [] st1) as [orders st2] eqn:Hloop.
    intros [= <- <-].
    assert (Hzset : redis.zset st1 cache.pending_orders = redis.zset st cache.pending_orders)
      by (unfold redis.zset; by rewrite Hzs).
    intros Hf score id e ttl Hin Hscore Hrec Hid Hexp.
    assert (Hf1 : redis.faults st1 = []).
    { unfold redis.reach in Hreach. rewrite Hf in Hreach. by injection Hreach as <-. }
    destruct (collectDue_evicts _ _ _ _ _ _ Hf1 Hloop) as (_ & _ & _ & Hev).
    apply (Hev id e ttl); try done.
    + apply elem_of_zrange. exists score. by rewrite Hzset.
    + by rewrite Hkv.
    + unfold time.After. by apply Z.ltb_lt.
  - intros Hf Hwf score id e ttl Hin Hscore Hrec Hexp.
    assert (Hentry : due_entry now st id = Some (models.entry_Order e)).
    { unfold due_entry. rewrite Hrec. unfold time.After.
      destruct (Z.ltb_spec (models.ExpiryTime e) now); [lia|done]. }
    assert (Hrange : id ∈ redis.zrange 0 (time.Unix now)
                            (redis.zset st cache.pending_orders)).
    { apply elem_of_zrange. by exists score. }
    pose proof (due_healthy_result now st Hf Hwf) as Hres.
    rewrite Hdue in Hres. cbn [fst] in Hres. injection Hres as ->.
    split; [apply list_elem_of_omap; by exists id|].
    revert Hdue. unfold cache.GetOrdersDueForExecution, redis.ZRangeByScore.
    rewrite reach_healthy by done.
    pose proof (collectDue_keeps now
                  (redis.zrange 0 (time.Unix now) (redis.zset st cache.pending_orders))
                  [] st id (models.entry_Order e) Hf Hwf Hentry) as Hkeep.
    cbn zeta in Hkeep.
    destruct (cache.collectDue now _ [] st) as [orders st2]. cbn [snd] in Hkeep.
    intros [= _ <-]. destruct Hkeep as [Hr Hz].
    split; [by rewrite Hr|by apply Hz].
Qed.

(** At the expiry itself. *)
Lemma C5_due_bounds_witness :
  let now := time.Add monday_6pm (10 * time.Second) in
  ∃ st', cache.GetOrdersDueForExecution now store_with_sample = (Ok [sample_order], st')
         ∧ (∃ score id e ttl,
              (score, id) ∈ redis.zset store_with_sample cache.pending_orders
              ∧ 0 ≤ score ≤ time.Unix now
              ∧ record store_with_sample id = Some (models.JSON e, ttl)
              ∧ sample_order = models.entry_Order e
              ∧ now ≤ models.ExpiryTime e)
         ∧ is_Some (record st' (models.ID sample_order)).
Proof.
  intros now.
  destruct (cache.GetOrdersDueForExecution now store_with_sample) as [r st'] eqn:E.
  assert (Hr : r = Ok [sample_order]) by (vm_compute in E; by injection E as <- _).
  subst r. exists st'. split; [reflexivity|].
  destruct (C5_due_bounds now store_with_sample [sample_order] st' E)
    as (Hsound & _ & Hkept).
  split.
  - destruct (Hsound sample_order (list_elem_of_here _ _))
      as (score & id & e & ttl & H1 & H2 & H3 & H4 & H5 & _).
    exists score, id, e, ttl.
    exact (conj H1 (conj H2 (conj H3 (conj H4 H5)))).
  - destruct (Hkept eq_refl store_with_sample_wf
                (time.Unix monday_6pm) (models.ID sample_order)
                {| models.entry_Order := sample_order;
                   models.ExpiryTime := now;
                   models.entry_CreatedAt := monday_6pm - 60 * time.Second |}
                (time.Until (monday_6pm - 60 * time.Second) now))
      as (_ & Hrec & _).
    + vm_compute. apply list_elem_of_here.
    + vm_compute. split; discriminate.
    + vm_compute. reflexivity.
    + apply Z.le_refl.
    + by rewrite Hrec.
Defined.

(** ** The dispatcher *)

Lemma TryLock_healthy orderID ttl st :
  redis.faults st = [] →
  cache.TryLock orderID ttl st
  = match redis.kv st !! cache.lockKey orderID with
    | Some _ => ((false, None), st)
    | None =>
      ((true, None),
       {| redis.kv := <[cache.lockKey orderID := (models.Raw "1", ttl)]> (redis.kv st);
          redis.zsets := redis.zsets st; redis.faults := [] |})
    end.
Proof.
  intros Hf. unfold cache.TryLock. rewrite SetNX_healthy by done.
  by destruct (redis.kv st !! cache.lockKey orderID).
Qed.

(** What the lock attempt leaves behind, whatever the server does. *)
Lemma TryLock_data orderID ttl st acquired err st1 :
  cache.TryLock orderID ttl st = ((acquired, err), st1) →
  redis.zsets st1 = redis.zsets st
  ∧ (acquired = false → redis.kv st1 = redis.kv st)
  ∧ (acquired = true →
     err = None
     ∧ redis.kv st !! cache.lockKey orderID = None
     ∧ redis.kv st1 = <[cache.lockKey orderID := (models.Raw "1", ttl)]> (redis.kv st))
  ∧ (redis.faults st = [] → redis.faults st1 = [] ∧ err = None).
Proof.
  unfold cache.TryLock, redis.SetNX.
  pose proof (reach_data st) as [Hkv Hzs].
  destruct (redis.reach st) as [failed st0] eqn:Hreach; cbn in Hkv, Hzs.
  assert (Hfaults : redis.faults st = [] → failed = false ∧ redis.faults st0 = []).
  { intros Hf. unfold redis.reach in Hreach. rewrite Hf in Hreach.
    by injection Hreach as <- <-. }
  destruct failed.
  - intros [= <- <- <-]. split; [done|]. split; [done|]. split; [done|].
    by intros [? ?]%Hfaults.
  - rewrite Hkv. destruct (redis.kv st !! cache.lockKey orderID) eqn:Hlock.
    + intros [= <- <- <-]. split; [done|]. split; [done|]. split; [done|].
      by intros [? ?]%Hfaults.
    + intros [= <- <- <-]. cbn.
      split; [done|]. split; [done|]. split; [done|].
      by intros [? ?]%Hfaults.
Qed.

(** The attempt of a worker that holds the lock: the broker manager is
    called, the order is removed on either outcome, the report is written
    before the removal when the manager returned an error and after it
    otherwise, and the lock is released last. *)
Lemma executeOrder_locked bm order st st1 :
  cache.TryLock (models.ID order) (30 * time.Second) st = ((true, None), st1) →
  trigger.executeOrder bm order st
  = ((cache.ReleaseLock (models.ID order)
        (cache.RemoveOrder (models.ID order) st1).2).2,
     match broker.ExecuteOrder bm order with
     | (called, (result, Some err)) =>
       (TryLockCall (models.ID order) :: called
        ++ [ProfileLog (models.ID order) false (Error err);
            RemoveCall (models.ID order) (Error err);
            ReleaseCall (models.ID order)])%list
     | (called, (result, None)) =>
       (TryLockCall (models.ID order) :: called
        ++ [RemoveCall (models.ID order) "";
            ProfileLog (models.ID order) (models.Success result)
              (models.ErrorMessage result);
            ReleaseCall (models.ID order)])%list
     end).
Proof.
  intros Hlock. unfold trigger.executeOrder. rewrite Hlock. cbn [negb].
  destruct (broker.ExecuteOrder bm order) as [called [result [err|]]];
    unfold trigger.removeOrder;
    destruct (cache.RemoveOrder (models.ID order) st1) as [r st2]; cbn [snd];
    destruct (cache.ReleaseLock (models.ID order) st2) as [r' st3]; cbn [snd];
    reflexivity.
Qed.

(** On a healthy server, after the attempt of a worker that holds the
    lock, neither the record, nor the index entry, nor the lock is left,
    and nothing else changed. *)
Lemma executeOrder_store_healthy order st st1 :
  redis.faults st = [] →
  cache.TryLock (models.ID order) (30 * time.Second) st = ((true, None), st1) →
  (cache.ReleaseLock (models.ID order) (cache.RemoveOrder (models.ID order) st1).2).2
  = {| redis.kv := delete (cache.orderKey (models.ID order)) (redis.kv st);
       redis.zsets :=
         <[cache.pending_orders :=
             redis.zrem (models.ID order) (redis.zset st cache.pending_orders)]>
           (redis.zsets st);
       redis.faults := [] |}.
Proof.
  intros Hf Hlock.
  rewrite TryLock_healthy in Hlock by done.
  destruct (redis.kv st !! cache.lockKey (models.ID order)) eqn:Hfree; [discriminate|].
  injection Hlock as <-.
  rewrite RemoveOrder_healthy by done. cbn [snd].
  unfold cache.ReleaseLock. rewrite Del_healthy by done. cbn.
  f_equal. rewrite delete_delete, delete_insert_eq.
  rewrite (delete_id (redis.kv st) (cache.lockKey _)); done.
Qed.


(** A worker that has acquired the lock calls [RemoveOrder] for the
    order whether the broker call succeeds or fails; when the broker
    manager returns without error the removal comes before the report of
    the attempt, and when it returns an error the report is written first
    and the removal follows it.  On a healthy server the record and the
    index entry of the order are gone afterwards, and no later due query
    on that store returns an order with this id. *)
Lemma executeOrder_removes_on_either_outcome bm order st st1 st' tr :
  cache.TryLock (models.ID order) (30 * time.Second) st = ((true, None), st1) →
  trigger.executeOrder bm order st = (st', tr) →
  (∃ reason, RemoveCall (models.ID order) reason ∈ tr)
  ∧ ((broker.ExecuteOrder bm order).2.2 = None →
     removed_before_report (models.ID order) tr)
  ∧ (∀ err, (broker.ExecuteOrder bm order).2.2 = Some err →
       ∃ pre, tr = (pre ++ [ProfileLog (models.ID order) false (Error err);
                            RemoveCall (models.ID order) (Error err);
                            ReleaseCall (models.ID order)])%list)
  ∧ (redis.faults st = [] → ids_wf st →
     record st' (models.ID order) = None
     ∧ ¬ indexed st' (models.ID order)
     ∧ ∀ now' res st'' o,
         cache.GetOrdersDueForExecution now' st' = (Ok res, st'') →
         o ∈ res → models.ID o ≠ models.ID order).
Proof.
  intros Hlock Hexec.
  rewrite (executeOrder_locked _ _ _ _ Hlock) in Hexec. injection Hexec as Hst Htr.
  split; [|split; [|split]].
  - destruct (broker.ExecuteOrder bm order) as [called [result [err|]]]; subst tr;
      eexists; apply elem_of_cons; right; apply elem_of_app; right;
      rewrite !elem_of_cons; eauto.
  - unfold broker.ExecuteOrder in *.
    destruct (broker.wait bm) as [werr|]; [discriminate|].
    destruct (broker.execute bm order) as [result [err|]]; [discriminate|].
    intros _. subst tr. intros i success msg Hi.
    destruct i as [|[|[|[|[|[|i]]]]]]; cbn in Hi; try discriminate Hi.
    exists 3%nat, "". split; [lia|reflexivity].
  - intros err Herr.
    destruct (broker.ExecuteOrder bm order) as [called [result [err'|]]];
      cbn in Herr; [|discriminate].
    injection Herr as ->. subst tr.
    by exists (TryLockCall (models.ID order) :: called).
  - intros Hf Hwf. rewrite (executeOrder_store_healthy _ _ _ Hf Hlock) in Hst.
    subst st'. split; [|split].
    + unfold record. cbn. apply lookup_delete_eq.
    + intros [score Hin]. rewrite zset_insert in Hin. by apply elem_of_zrem in Hin as [_ ?].
    + intros now' res st'' o Hdue Ho.
      destruct (due_from_records _ _ _ _ _ Hdue Ho)
        as (score & id & e & ttl & _ & _ & Hrec & -> & _).
      unfold record in Hrec. cbn in Hrec.
      apply lookup_delete_Some in Hrec as [Hne Hrec].
      rewrite (Hwf id e ttl Hrec). intros ->. done.
Qed.

Lemma TryLock_wf orderID ttl st :
  ids_wf st → ids_wf (cache.TryLock orderID ttl st).2.
Proof.
  apply ids_wf_weaken. intros id e ttl'.
  destruct (cache.TryLock orderID ttl st) as [[acquired err] st1] eqn:Hlock.
  pose proof (TryLock_data _ _ _ _ _ _ Hlock) as (_ & Hno & Hyes & _).
  unfold record. cbn. destruct acquired.
  - destruct (Hyes eq_refl) as (_ & _ & ->).
    rewrite lookup_insert_ne; [done|]. intros Heq. by apply (orderKey_lockKey id orderID).
  - by rewrite (Hno eq_refl).
Qed.

(** A worker that finds the context cancelled stops before the order in
    hand: nothing is locked, removed or sent. *)
Lemma worker_cancelled cancelled bm k order rest st :
  cancelled k = true →
  trigger.worker cancelled bm k (order :: rest) st = (st, []).
Proof. intros Hc. cbn. by rewrite Hc. Qed.

(** Scenario 1 of the specification: the broker accepts the order. *)
Lemma executeOrder_removes_accepted :
  let id := models.ID sample_order in
  let r := trigger.executeOrder accepting_broker sample_order store_with_sample in
  (∃ reason, RemoveCall id reason ∈ r.2)
  ∧ removed_before_report id r.2
  ∧ record r.1 id = None
  ∧ ¬ indexed r.1 id.
Proof.
  intros id r.
  destruct (executeOrder_removes_on_either_outcome accepting_broker sample_order store_with_sample
              (cache.TryLock id (30 * time.Second) store_with_sample).2 r.1 r.2)
    as (Hcall & Hbefore & _ & Hgone).
  - vm_compute. reflexivity.
  - subst r. by destruct (trigger.executeOrder _ _ _).
  - destruct Hgone as (Hrec & Hidx & _); [reflexivity|exact store_with_sample_wf|].
    split; [exact Hcall|]. split; [apply Hbefore; reflexivity|]. split; [exact Hrec|exact Hidx].
Defined.

(** C2, as stated, fails: when the wait at the rate gate is cut short by
    cancellation, the record the store held is removed. *)
Lemma C2_cancelled_wait_evicts :
  let id := models.ID sample_order in
  let r := trigger.executeOrder cancelled_gate sample_order store_with_sample in
  is_Some (record store_with_sample id)
  ∧ record r.1 id = None
  ∧ RemoveCall id "rate limit wait failed: context canceled" ∈ r.2.
Proof.
  intros id r. split; [|split].
  - eexists. vm_compute. reflexivity.
  - vm_compute. reflexivity.
  - assert (Htr : r.2 = [TryLockCall id; RateWait id;
                         ProfileLog id false "rate limit wait failed: context canceled";
                         RemoveCall id "rate limit wait failed: context canceled";
                         ReleaseCall id]) by (vm_compute; reflexivity).
    rewrite Htr. rewrite !elem_of_cons. auto.
Qed.

(** C2 (amended): when the wait at the rate gate fails (the context is
    cancelled) in an attempt that holds the lock, the broker is not called,
    the failure is reported, [RemoveOrder] is called for the order and the
    lock is released; on a healthy server the record, the index entry and
    the lock are gone afterwards. *)
Theorem C2_cancelled_wait_removes bm order st st1 st' tr err :
  cache.TryLock (models.ID order) (30 * time.Second) st = ((true, None), st1) →
  broker.wait bm = Some err →
  trigger.executeOrder bm order st = (st', tr) →
  let id := models.ID order in
  let msg := Error (Wrapf "rate limit wait failed" err) in
  tr = [TryLockCall id; RateWait id; ProfileLog id false msg; RemoveCall id msg;
        ReleaseCall id]
  ∧ ¬ calls_broker tr
  ∧ st' = (cache.ReleaseLock id (cache.RemoveOrder id st1).2).2
  ∧ (redis.faults st = [] →
     record st' id = None ∧ ¬ indexed st' id
     ∧ redis.kv st' !! cache.lockKey id = None).
Proof.
  intros Hlock Hwait Hexec id msg.
  rewrite (executeOrder_locked _ _ _ _ Hlock) in Hexec.
  unfold broker.ExecuteOrder in Hexec. rewrite Hwait in Hexec.
  injection Hexec as Hst Htr. cbn in Htr.
  assert (Htrace : tr = [TryLockCall id; RateWait id; ProfileLog id false msg;
                         RemoveCall id msg; ReleaseCall id]) by done.
  split; [exact Htrace|]. split; [|split; [done|]].
  - rewrite Htrace. intros [o Ho]. rewrite !elem_of_cons, elem_of_nil in Ho.
    by destruct Ho as [|[|[|[|[|]]]]].
  - intros Hf. rewrite (executeOrder_store_healthy _ _ _ Hf Hlock) in Hst. subst st'.
    pose proof (TryLock_data _ _ _ _ _ _ Hlock) as (_ & _ & Hacq & _).
    destruct (Hacq eq_refl) as (_ & Hfree & _).
    split; [|split].
    + unfold record. cbn. apply lookup_delete_eq.
    + intros [score Hin]. rewrite zset_insert in Hin. by apply elem_of_zrem in Hin as [_ ?].
    + cbn. rewrite lookup_delete_ne; [done|]. apply orderKey_lockKey.
Qed.

Lemma C2_cancelled_wait_witness :
  let id := models.ID sample_order in
  let r := trigger.executeOrder cancelled_gate sample_order store_with_sample in
  ¬ calls_broker r.2
  ∧ record r.1 id = None
  ∧ redis.kv r.1 !! cache.lockKey id = None.
Proof.
  intros id r.
  destruct (C2_cancelled_wait_removes cancelled_gate sample_order store_with_sample
              (cache.TryLock id (30 * time.Second) store_with_sample).2 r.1 r.2 CtxErr)
    as (_ & Hnocall & _ & Hgone).
  - vm_compute. reflexivity.
  - reflexivity.
  - subst r. by destruct (trigger.executeOrder _ _ _).
  - destruct Hgone as (Hrec & _ & Hlock); [reflexivity|].
    split; [exact Hnocall|]. split; [exact Hrec|exact Hlock].
Defined.

(** What [RemoveOrder] leaves behind, by its result: after success
    neither record nor index entry; when the DEL failed, everything as it
    was; when the ZREM failed, no record and the index as it was. *)
Lemma RemoveOrder_outcomes orderID st :
  match cache.RemoveOrder orderID st with
  | (Ok _, st') => record st' orderID = None ∧ ¬ indexed st' orderID
  | (Err e, st') =>
    (e = Wrapf "failed to remove order" RedisIO
     ∧ redis.kv st' = redis.kv st ∧ redis.zsets st' = redis.zsets st)
    ∨ (e = Wrapf "failed to remove from pending orders" RedisIO
       ∧ record st' orderID = None ∧ redis.zsets st' = redis.zsets st)
  end.
Proof.
  unfold cache.RemoveOrder, redis.Del, redis.ZRem.
  pose proof (reach_data st) as [Hkv Hzs].
  destruct (redis.reach st) as [failed st0] eqn:Hreach; cbn in Hkv, Hzs.
  destruct failed; [left; done|].
  match goal with
  | |- context [redis.reach ?s] =>
    pose proof (reach_data s) as [Hkv1 Hzs1];
    destruct (redis.reach s) as [failed1 st1] eqn:Hreach1
  end.
  cbn in Hkv1, Hzs1.
  destruct failed1.
  - right. split; [done|]. split; [|congruence].
    unfold record. rewrite Hkv1. apply lookup_delete_eq.
  - split.
    + unfold record. cbn. rewrite Hkv1. apply lookup_delete_eq.
    + intros [score Hin]. unfold redis.zset in Hin. cbn in Hin.
      rewrite lookup_insert_eq in Hin. cbn in Hin.
      by apply elem_of_zrem in Hin as [_ ?].
Qed.

(** C10, as stated, fails: when the server fails the lock command and
    then the removal as well, the failed removal is only logged and the
    order is not dropped: its record and index entry stay, the next due
    query returns it and the next attempt sends it to the broker. *)
Lemma C10_failed_removal_keeps_order :
  let id := models.ID sample_order in
  let now := monday_6pm + 5 * time.Second in
  let first := trigger.executeOrder accepting_broker sample_order store_two_faults in
  let due := cache.GetOrdersDueForExecution now first.1 in
  let second := trigger.executeOrder accepting_broker sample_order due.2 in
  (cache.TryLock id (30 * time.Second) store_two_faults).1
  = (false, Some (Wrapf "failed to acquire lock" RedisIO))
  ∧ first.2 = [TryLockCall id; RemoveCall id "lock acquisition failed"]
  ∧ record first.1 id = record store_with_sample id
  ∧ is_Some (record first.1 id)
  ∧ indexed first.1 id
  ∧ due.1 = Ok [sample_order]
  ∧ BrokerCall sample_order ∈ second.2.
Proof.
  intros id now first due second.
  split; [vm_compute; reflexivity|].
  split; [vm_compute; reflexivity|].
  split; [vm_compute; reflexivity|].
  split; [eexists; vm_compute; reflexivity|].
  split; [exists (time.Unix monday_6pm); vm_compute; apply list_elem_of_here|].
  split; [vm_compute; reflexivity|].
  assert (Htr : second.2 = [TryLockCall id; RateWait id; BrokerCall sample_order;
                            RemoveCall id ""; ProfileLog id true ""; ReleaseCall id])
    by (vm_compute; reflexivity).
  rewrite Htr. rewrite !elem_of_cons. auto.
Qed.

(** C10 (amended): when [TryLock] returns an error, the worker calls
    [RemoveOrder] for the order once and returns; the broker is not
    called.  The order is dropped only if the removal goes through: when
    it succeeds, the record and the index entry are gone; when its DEL
    fails, record and index stay as they were, and once the server answers
    again a due query returns the order, if records sit under their own
    ids and the order is indexed in the score range with the clock not
    after its expiry; when its ZREM fails, the record is gone and the
    index stays as it was.  When [TryLock] returns false without error,
    the worker returns at once: no removal, no broker call, and records
    and index are as they were. *)
Theorem C10_lock_error_drops_order bm order st st1 st' tr acquired err :
  cache.TryLock (models.ID order) (30 * time.Second) st = ((acquired, err), st1) →
  trigger.executeOrder bm order st = (st', tr) →
  let id := models.ID order in
  (is_Some err →
   tr = [TryLockCall id; RemoveCall id "lock acquisition failed"]
   ∧ ¬ calls_broker tr
   ∧ st' = (cache.RemoveOrder id st1).2
   ∧ match (cache.RemoveOrder id st1).1 with
     | Ok _ => record st' id = None ∧ ¬ indexed st' id
     | Err e =>
       (e = Wrapf "failed to remove order" RedisIO
        ∧ redis.kv st' = redis.kv st ∧ redis.zsets st' = redis.zsets st
        ∧ ∀ now score entry ttl,
            redis.faults st' = [] → ids_wf st →
            (score, id) ∈ redis.zset st cache.pending_orders →
            0 ≤ score ≤ time.Unix now →
            record st id = Some (models.JSON entry, ttl) →
            now ≤ models.ExpiryTime entry →
            ∃ res, (cache.GetOrdersDueForExecution now st').1 = Ok res
                   ∧ models.entry_Order entry ∈ res)
       ∨ (e = Wrapf "failed to remove from pending orders" RedisIO
          ∧ record st' id = None ∧ redis.zsets st' = redis.zsets st)
     end)
  ∧ (err = None → acquired = false →
     tr = [TryLockCall id]
     ∧ ¬ calls_broker tr
     ∧ redis.kv st' = redis.kv st ∧ redis.zsets st' = redis.zsets st).
Proof.
  intros Hlock Hexec id. subst id. unfold trigger.executeOrder in Hexec.
  rewrite Hlock in Hexec.
  pose proof (TryLock_data _ _ _ _ _ _ Hlock) as (Hz & Hkv & Hacq & _).
  split.
  - intros [e ->]. unfold trigger.removeOrder in Hexec.
    assert (Hno : acquired = false)
      by (destruct acquired; [by destruct (Hacq eq_refl)|done]).
    specialize (Hkv Hno).
    pose proof (RemoveOrder_outcomes (models.ID order) st1) as Hout.
    destruct (cache.RemoveOrder (models.ID order) st1) as [r st2] eqn:Hrm.
    injection Hexec as <- <-. cbn [fst snd].
    split; [done|]. split; [|split; [done|]].
    + intros [o Ho]. rewrite !elem_of_cons, elem_of_nil in Ho. by destruct Ho as [|[|]].
    + destruct r as [[]|e']; [exact Hout|].
      destruct Hout as [(-> & Hkv2 & Hzs2)|(-> & Hrec & Hzs2)].
      * left. rewrite Hkv2, Hzs2, Hz, Hkv.
        split; [done|]. split; [done|]. split; [done|].
        intros now score entry ttl Hf Hwf Hin Hscore Hrec Hexp.
        assert (Hkv' : redis.kv st2 = redis.kv st) by (by rewrite Hkv2, Hkv).
        assert (Hzs' : redis.zsets st2 = redis.zsets st) by (by rewrite Hzs2, Hz).
        assert (Hwf2 : ids_wf st2).
        { intros id' e' ttl'. unfold record. rewrite Hkv'. apply Hwf. }
        rewrite (due_healthy_result now st2 Hf Hwf2).
        eexists. split; [reflexivity|].
        apply list_elem_of_omap. exists (models.ID order). split.
        -- apply elem_of_zrange. exists score.
           by rewrite (zset_zsets _ _ _ Hzs').
        -- unfold due_entry, record. rewrite Hkv'. unfold record in Hrec. rewrite Hrec.
           unfold time.After. destruct (Z.ltb_spec (models.ExpiryTime entry) now); [lia|done].
      * right. rewrite Hzs2, Hz. done.
  - intros -> ->. cbn in Hexec. injection Hexec as <- <-.
    split; [done|]. split; [|split; [by apply Hkv|done]].
    intros [o Ho]. rewrite !elem_of_cons, elem_of_nil in Ho. by destruct Ho as [|].
Qed.

Lemma C10_lock_error_witness :
  let id := models.ID sample_order in
  let failed := trigger.executeOrder accepting_broker sample_order store_one_fault in
  let busy := trigger.executeOrder accepting_broker sample_order store_locked in
  (failed.2 = [TryLockCall id; RemoveCall id "lock acquisition failed"]
   ∧ record failed.1 id = None)
  ∧ (busy.2 = [TryLockCall id]
     ∧ redis.kv busy.1 = redis.kv store_locked).
Proof.
  intros id failed busy. split.
  - destruct (C10_lock_error_drops_order accepting_broker sample_order store_one_fault
                (cache.TryLock id (30 * time.Second) store_one_fault).2 failed.1 failed.2
                false (Some (Wrapf "failed to acquire lock" RedisIO)))
      as [Herr _].
    + vm_compute. reflexivity.
    + subst failed. by destruct (trigger.executeOrder _ _ _).
    + destruct (Herr (mk_is_Some _ _ eq_refl)) as (Htr & _ & _ & Hgone).
      split; [exact Htr|].
      change (cache.RemoveOrder id (cache.TryLock id (30 * time.Second) store_one_fault).2).1
        with (@Ok unit ()) in Hgone.
      exact (proj1 Hgone).
  - destruct (C10_lock_error_drops_order accepting_broker sample_order store_locked
                (cache.TryLock id (30 * time.Second) store_locked).2 busy.1 busy.2
                false None)
      as [_ Hbusy].
    + vm_compute. reflexivity.
    + subst busy. by destruct (trigger.executeOrder _ _ _).
    + destruct (Hbusy eq_refl eq_refl) as (Htr & _ & Hkv & _).
      split; [exact Htr|exact Hkv].
Defined.

(** * Further properties of the code *)

(** ** The store under arbitrary server behaviour *)

Lemma reach_faults st :
  redis.faults st = [] → redis.faults (redis.reach st).2 = [].
Proof. intros Hf. by rewrite reach_healthy. Qed.

Lemma Set_Ok key value ttl st st1 :
  redis.Set_ key value ttl st = (Ok (), st1) →
  redis.kv st1 = <[key := (value, ttl)]> (redis.kv st)
  ∧ redis.zsets st1 = redis.zsets st.
Proof.
  unfold redis.Set_. pose proof (reach_data st) as [Hkv Hzs].
  destruct (redis.reach st) as [[] st0]; cbn in *; [discriminate|].
  intros [= <-]. cbn. by rewrite Hkv.
Qed.

Lemma Set_Err key value ttl st err st1 :
  redis.Set_ key value ttl st = (Err err, st1) →
  redis.kv st1 = redis.kv st ∧ redis.zsets st1 = redis.zsets st.
Proof.
  unfold redis.Set_. pose proof (reach_data st) as [Hkv Hzs].
  destruct (redis.reach st) as [[] st0]; cbn in *; [|discriminate].
  by intros [= _ <-].
Qed.

Lemma ZAdd_Ok key score member st st1 :
  redis.ZAdd key score member st = (Ok (), st1) →
  redis.kv st1 = redis.kv st
  ∧ redis.zset st1 key = redis.zadd score member (redis.zset st key).
Proof.
  unfold redis.ZAdd. pose proof (reach_data st) as [Hkv Hzs].
  destruct (redis.reach st) as [[] st0]; cbn in *; [discriminate|].
  intros [= <-]. split; [done|].
  unfold redis.zset at 1. cbn. rewrite lookup_insert_eq. cbn.
  unfold redis.zset. by rewrite Hzs.
Qed.

Lemma ZAdd_Err key score member st err st1 :
  redis.ZAdd key score member st = (Err err, st1) →
  redis.kv st1 = redis.kv st ∧ redis.zsets st1 = redis.zsets st.
Proof.
  unfold redis.ZAdd. pose proof (reach_data st) as [Hkv Hzs].
  destruct (redis.reach st) as [[] st0]; cbn in *; [|discriminate].
  by intros [= _ <-].
Qed.

Lemma Del_cases key st :
  redis.zsets (redis.Del key st).2 = redis.zsets st
  ∧ (((redis.Del key st).1 = Ok () ∧ redis.kv (redis.Del key st).2 = delete key (redis.kv st))
     ∨ ((redis.Del key st).1 = Err RedisIO ∧ redis.kv (redis.Del key st).2 = redis.kv st)).
Proof.
  unfold redis.Del. pose proof (reach_data st) as [Hkv Hzs].
  destruct (redis.reach st) as [[] st0]; cbn in *; split; try done.
  - by right.
  - left. by rewrite Hkv.
Qed.

Lemma ZRem_cases key member st :
  redis.kv (redis.ZRem key member st).2 = redis.kv st
  ∧ (((redis.ZRem key member st).1 = Ok ()
      ∧ redis.zset (redis.ZRem key member st).2 key = redis.zrem member (redis.zset st key))
     ∨ ((redis.ZRem key member st).1 = Err RedisIO
        ∧ redis.zsets (redis.ZRem key member st).2 = redis.zsets st)).
Proof.
  unfold redis.ZRem. pose proof (reach_data st) as [Hkv Hzs].
  destruct (redis.reach st) as [[] st0]; cbn in *; split; try done.
  - by right.
  - left. split; [done|]. unfold redis.zset at 1. cbn. rewrite lookup_insert_eq. cbn.
    unfold redis.zset. by rewrite Hzs.
Qed.

Lemma elem_of_zadd s m s0 m0 l :
  (s, m) ∈ redis.zadd s0 m0 l ↔ (s = s0 ∧ m = m0) ∨ ((s, m) ∈ l ∧ m ≠ m0).
Proof.
  unfold redis.zadd. rewrite elem_of_zinsert, elem_of_zrem. split.
  - intros [[= -> ->]|?]; auto.
  - intros [[-> ->]|?]; auto.
Qed.

(** X1: whenever [StoreOrder] reports success - whatever the server did
    to other commands - the record of the order is the new entry, the due
    index holds the order's id exactly once, at the Unix second of its
    scheduled instant and at no other score, and the records and index
    entries of all other ids are as before. *)
Theorem StoreOrder_success_postcondition createdAt now order expiryTime st st' :
  cache.StoreOrder createdAt now order expiryTime st = (Ok (), st') →
  let id := models.ID order in
  let score := time.Unix (models.ScheduledTime order) in
  record st' id
  = Some (models.JSON (models.json_entry {| models.entry_Order := order;
                         models.ExpiryTime := expiryTime;
                         models.entry_CreatedAt := createdAt |}),
          time.Until now expiryTime)
  ∧ now < expiryTime
  ∧ occurrences id (redis.zset st' cache.pending_orders) = 1%nat
  ∧ (∀ s, (s, id) ∈ redis.zset st' cache.pending_orders ↔ s = score)
  ∧ (∀ id', id' ≠ id →
       record st' id' = record st id'
       ∧ ∀ s, (s, id') ∈ redis.zset st' cache.pending_orders
              ↔ (s, id') ∈ redis.zset st cache.pending_orders).
Proof.
  unfold cache.StoreOrder, models.ToJSON. cbn zeta.
  destruct (models.json_float_ok _); [|discriminate].
  destruct (Z.leb_spec (time.Until now expiryTime) 0) as [|Httl]; [discriminate|].
  destruct (redis.Set_ _ _ _ st) as [[[]|err] st1] eqn:Hset; [|discriminate].
  destruct (redis.ZAdd _ _ _ st1) as [[[]|err] st2] eqn:Hadd; [|discriminate].
  intros [= <-].
  apply Set_Ok in Hset as [Hkv1 Hzs1]. apply ZAdd_Ok in Hadd as [Hkv2 Hz2].
  rewrite (zset_zsets _ _ _ Hzs1) in Hz2.
  unfold record. rewrite Hkv2, Hkv1, Hz2.
  split; [by rewrite lookup_insert_eq|].
  split; [destruct (Z.le_gt_cases expiryTime now) as [Hle|]; [|lia];
          apply (proj2 (Until_nonpos _ _)) in Hle; lia|].
  split; [apply occurrences_zadd|].
  split.
  - intros s. rewrite elem_of_zadd. split; [|by auto].
    by intros [[-> _]|[_ ?]].
  - intros id' Hne. split.
    + rewrite lookup_insert_ne; [done|]. by intros ?%orderKey_inj.
    + intros s. rewrite elem_of_zadd. split; [|by auto].
      by intros [[_ ->]|[? _]].
Qed.

Lemma StoreOrder_success_witness :
  let t := monday_6pm - 60 * time.Second in
  let e := time.Add monday_6pm (10 * time.Second) in
  occurrences (models.ID sample_order) (redis.zset store_with_sample cache.pending_orders)
  = 1%nat
  ∧ t < e.
Proof.
  intros t e.
  destruct (StoreOrder_success_postcondition t t sample_order e empty_store
              store_with_sample) as (_ & Hlt & Hocc & _).
  - vm_compute. reflexivity.
  - split; [exact Hocc|exact Hlt].
Defined.

(** X2: whenever [StoreOrder] reports an error, the due index is left as
    it was and so is every record of another id; an insert refused
    before reaching the server (unencodable order, or expiry not ahead)
    changes nothing at all, while an insert that fails at the index step
    has already written the record - a record without index entry. *)
Theorem StoreOrder_failure_effects createdAt now order expiryTime st err st' :
  cache.StoreOrder createdAt now order expiryTime st = (Err err, st') →
  redis.zsets st' = redis.zsets st
  ∧ (∀ id', id' ≠ models.ID order → record st' id' = record st id')
  ∧ ((models.json_float_ok (models.Price order) = false ∨ expiryTime ≤ now) → st' = st)
  ∧ (err = Wrapf "failed to add to pending orders" RedisIO →
     record st' (models.ID order)
     = Some (models.JSON (models.json_entry {| models.entry_Order := order;
                            models.ExpiryTime := expiryTime;
                            models.entry_CreatedAt := createdAt |}),
             time.Until now expiryTime)).
Proof.
  unfold cache.StoreOrder, models.ToJSON. cbn zeta.
  destruct (models.json_float_ok _) eqn:Hjson.
  - destruct (Z.leb_spec (time.Until now expiryTime) 0) as [Hle|Httl].
    + intros [= <- <-]. repeat split; try done; try discriminate.
    + assert (Hahead : now < expiryTime).
      { destruct (Z.le_gt_cases expiryTime now) as [Hle|]; [|lia].
        apply (proj2 (Until_nonpos _ _)) in Hle. lia. }
      destruct (redis.Set_ _ _ _ st) as [[[]|e1] st1] eqn:Hset.
      * destruct (redis.ZAdd _ _ _ st1) as [[[]|e2] st2] eqn:Hadd; [discriminate|].
        intros [= <- <-].
        apply Set_Ok in Hset as [Hkv1 Hzs1]. apply ZAdd_Err in Hadd as [Hkv2 Hzs2].
        split; [by rewrite Hzs2|]. unfold record. rewrite Hkv2, Hkv1.
        split; [|split].
        -- intros id' Hne. rewrite lookup_insert_ne; [done|]. by intros ?%orderKey_inj.
        -- intros [?|?]; [discriminate|lia].
        -- intros _. by rewrite lookup_insert_eq.
      * intros [= <- <-]. apply Set_Err in Hset as [Hkv1 Hzs1].
        split; [done|]. unfold record. rewrite Hkv1.
        split; [done|]. split; [intros [?|?]; [discriminate|lia]|discriminate].
  - intros [= <- <-]. repeat split; try done; try discriminate.
Qed.

Lemma StoreOrder_failure_witness :
  let now := monday_6pm + 10 * time.Second in
  (cache.StoreOrder now now sample_order (time.Add monday_6pm (10 * time.Second))
     store_with_sample).2 = store_with_sample.
Proof.
  intros now.
  destruct (cache.StoreOrder now now sample_order (time.Add monday_6pm (10 * time.Second))
              store_with_sample) as [r st'] eqn:E.
  assert (Hr : r = Err (Errorf "expiry time is in the past"))
    by (vm_compute in E; by injection E as <- _).
  subst r.
  destruct (StoreOrder_failure_effects _ _ _ _ _ _ _ E) as (_ & _ & Hsame & _).
  cbn [snd]. apply Hsame. right. vm_compute. discriminate.
Defined.

Lemma zrem_absent m l : (∀ s, (s, m) ∉ l) → redis.zrem m l = l.
Proof.
  unfold redis.zrem. induction l as [|[s m'] l IH]; intros Habs; [done|].
  rewrite filter_cons. destruct (decide ((s, m').2 ≠ m)) as [_|Heq].
  - f_equal. apply IH. intros s0 Hin. apply (Habs s0). by right.
  - exfalso. apply (Habs s). cbn in Heq. apply dec_stable in Heq as ->. by left.
Qed.

(** X3: whatever the server does, [RemoveOrder] touches nothing but the
    order it is given; when it reports success the record and the index
    entry of that order are gone; and it never drops the index entry while
    the record is still there - if the record survives the call, records
    and index are exactly as before. *)
Theorem RemoveOrder_effects orderID st r st' :
  cache.RemoveOrder orderID st = (r, st') →
  (∀ id', id' ≠ orderID →
     record st' id' = record st id'
     ∧ ∀ s, (s, id') ∈ redis.zset st' cache.pending_orders
            ↔ (s, id') ∈ redis.zset st cache.pending_orders)
  ∧ (r = Ok () → record st' orderID = None ∧ ¬ indexed st' orderID)
  ∧ (record st' orderID ≠ None →
     redis.kv st' = redis.kv st ∧ redis.zsets st' = redis.zsets st).
Proof.
  unfold cache.RemoveOrder.
  pose proof (Del_cases (cache.orderKey orderID) st) as [Hzs1 Hdel].
  destruct (redis.Del _ st) as [r1 st1]; cbn [fst snd] in *.
  destruct Hdel as [[-> Hkv1]|[-> Hkv1]].
  - pose proof (ZRem_cases cache.pending_orders orderID st1) as [Hkv2 Hrem].
    destruct (redis.ZRem _ _ st1) as [r2 st2]; cbn [fst snd] in *.
    rewrite (zset_zsets _ _ _ Hzs1) in Hrem.
    assert (Hgone : record st2 orderID = None)
      by (unfold record; rewrite Hkv2, Hkv1; apply lookup_delete_eq).
    assert (Hframe : ∀ id', id' ≠ orderID → record st2 id' = record st id').
    { intros id' Hne. unfold record. rewrite Hkv2, Hkv1.
      apply lookup_delete_ne. by intros ?%orderKey_inj. }
    destruct Hrem as [[-> Hz2]|[-> Hzs2]]; intros [= <- <-].
    + split; [|split; [|done]].
      * intros id' Hne. split; [by apply Hframe|].
        intros s. rewrite Hz2, elem_of_zrem. tauto.
      * intros _. split; [done|]. intros [s Hin]. rewrite Hz2 in Hin.
        by apply elem_of_zrem in Hin as [_ ?].
    + split; [|split; [discriminate|done]].
      intros id' Hne. split; [by apply Hframe|].
      intros s. by rewrite (zset_zsets _ _ _ Hzs2), (zset_zsets _ _ _ Hzs1).
  - intros [= <- <-]. split; [|split; [discriminate|]].
    + intros id' Hne. unfold record. rewrite Hkv1. split; [done|].
      intros s. by rewrite (zset_zsets _ _ _ Hzs1).
    + done.
Qed.

Lemma RemoveOrder_effects_witness :
  let st' := (cache.RemoveOrder (models.ID sample_order) store_with_sample).2 in
  record st' (models.ID sample_order) = None
  ∧ ¬ indexed st' (models.ID sample_order).
Proof.
  intros st'.
  destruct (RemoveOrder_effects (models.ID sample_order) store_with_sample (Ok ()) st')
    as (_ & Hgone & _).
  - vm_compute. reflexivity.
  - exact (Hgone eq_refl).
Defined.

(** X4: on a healthy server, removing an order that has neither record
    nor index entry succeeds and changes no record and no index entry;
    so does a second removal right after a first one. *)
Theorem RemoveOrder_idempotent orderID st :
  redis.faults st = [] →
  let st1 := (cache.RemoveOrder orderID st).2 in
  let r2 := cache.RemoveOrder orderID st1 in
  (record st orderID = None → ¬ indexed st orderID →
   (cache.RemoveOrder orderID st).1 = Ok ()
   ∧ redis.kv st1 = redis.kv st
   ∧ redis.zset st1 cache.pending_orders = redis.zset st cache.pending_orders)
  ∧ r2.1 = Ok ()
  ∧ redis.kv r2.2 = redis.kv st1
  ∧ redis.zset r2.2 cache.pending_orders = redis.zset st1 cache.pending_orders.
Proof.
  intros Hf. cbn zeta. rewrite RemoveOrder_healthy by done. cbn [fst snd].
  rewrite RemoveOrder_healthy by done. cbn [fst snd redis.kv].
  rewrite !zset_insert. split; [|split; [done|split]].
  - intros Hrec Hidx. split; [done|]. split.
    + by apply delete_id.
    + apply zrem_absent. intros s Hin. apply Hidx. by exists s.
  - by rewrite delete_delete_eq.
  - apply zrem_idemp.
Qed.

Lemma RemoveOrder_idempotent_witness :
  let st1 := (cache.RemoveOrder (models.ID sample_order) store_with_sample).2 in
  (cache.RemoveOrder (models.ID sample_order) st1).1 = Ok ()
  ∧ redis.kv (cache.RemoveOrder (models.ID sample_order) st1).2 = redis.kv st1.
Proof.
  intros st1.
  destruct (RemoveOrder_idempotent (models.ID sample_order) store_with_sample)
    as (_ & Hok & Hkv & _).
  - reflexivity.
  - split; [exact Hok|exact Hkv].
Defined.

(** ** The execution lock *)

Lemma lockKey_inj : Inj (=) (=) cache.lockKey.
Proof. intros a b H. unfold cache.lockKey in H. by apply (inj _) in H. Qed.

(** X5: on a healthy server, a lock that is free is acquired, and while
    it is held a second [TryLock] on the same order returns false and
    changes nothing; locks of other orders, records and index are not
    affected; and [ReleaseLock] brings the store back to what it was
    before the lock was taken, so that the lock can be acquired again. *)
Theorem TryLock_exclusive orderID ttl ttl' st :
  redis.faults st = [] →
  redis.kv st !! cache.lockKey orderID = None →
  let '(r1, st1) := cache.TryLock orderID ttl st in
  r1 = (true, None)
  ∧ cache.TryLock orderID ttl' st1 = ((false, None), st1)
  ∧ (∀ id', id' ≠ orderID →
       redis.kv st1 !! cache.lockKey id' = redis.kv st !! cache.lockKey id')
  ∧ (∀ id', record st1 id' = record st id')
  ∧ redis.zsets st1 = redis.zsets st
  ∧ cache.ReleaseLock orderID st1 = (Ok (), st)
  ∧ (cache.TryLock orderID ttl' (cache.ReleaseLock orderID st1).2).1 = (true, None).
Proof.
  intros Hf Hfree. rewrite TryLock_healthy, Hfree by done.
  split; [done|]. split; [|split; [|split; [|split; [done|]]]].
  - rewrite TryLock_healthy by done. cbn. by rewrite lookup_insert_eq.
  - intros id' Hne. cbn. apply lookup_insert_ne. by intros ?%lockKey_inj.
  - intros id'. unfold record. cbn. apply lookup_insert_ne.
    intros Heq. by apply (orderKey_lockKey id' orderID).
  - assert (Hrel : cache.ReleaseLock orderID
                     {| redis.kv := <[cache.lockKey orderID := (models.Raw "1", ttl)]>
                                      (redis.kv st);
                        redis.zsets := redis.zsets st; redis.faults := [] |}
                   = (Ok (), st)).
    { unfold cache.ReleaseLock. rewrite Del_healthy by done. cbn.
      rewrite delete_insert_eq, delete_id by done.
      destruct st as [m z f]; cbn in *. by subst f. }
    split; [exact Hrel|]. rewrite Hrel. cbn [snd].
    by rewrite TryLock_healthy, Hfree.
Qed.

Lemma TryLock_exclusive_witness :
  cache.TryLock (models.ID sample_order) (30 * time.Second) store_locked
  = ((false, None), store_locked)
  ∧ cache.ReleaseLock (models.ID sample_order) store_locked = (Ok (), store_with_sample).
Proof.
  pose proof (TryLock_exclusive (models.ID sample_order) (30 * time.Second)
                (30 * time.Second) store_with_sample eq_refl eq_refl) as H.
  unfold store_locked.
  destruct (cache.TryLock (models.ID sample_order) (30 * time.Second) store_with_sample)
    as [r1 st1].
  destruct H as (_ & Hagain & _ & _ & _ & Hrel & _).
  split; [exact Hagain|exact Hrel].
Defined.

(** ** The due query on a healthy server *)

(** X6: on a healthy server whose records sit under their own ids, the
    due query returns, in index order, exactly the orders of the index
    entries with score between 0 and the Unix second of the clock whose
    record decodes and whose expiry the clock has not passed: once per
    index entry, nothing else, nothing skipped. *)
Theorem GetOrdersDueForExecution_exact now st :
  redis.faults st = [] →
  ids_wf st →
  (cache.GetOrdersDueForExecution now st).1
  = Ok (omap (due_entry now st)
          (redis.zrange 0 (time.Unix now) (redis.zset st cache.pending_orders))).
Proof. apply due_healthy_result. Qed.

Lemma GetOrdersDueForExecution_exact_witness :
  (cache.GetOrdersDueForExecution (monday_6pm + 5 * time.Second) store_with_sample).1
  = Ok [sample_order].
Proof.
  rewrite (GetOrdersDueForExecution_exact (monday_6pm + 5 * time.Second) store_with_sample
             eq_refl store_with_sample_wf).
  vm_compute. reflexivity.
Defined.

Lemma ZRem_shrinks key member st p :
  p ∈ redis.zset (redis.ZRem key member st).2 cache.pending_orders →
  p ∈ redis.zset st cache.pending_orders.
Proof.
  unfold redis.ZRem. pose proof (reach_data st) as [Hkv Hzs].
  destruct (redis.reach st) as [[] st0]; cbn in *.
  - by rewrite (zset_zsets _ _ _ Hzs).
  - unfold redis.zset at 1. cbn.
    destruct (decide (key = cache.pending_orders)) as [->|Hne].
    + rewrite lookup_insert_eq. cbn. destruct p as [s m].
      intros [Hin _]%elem_of_zrem. by rewrite (zset_zsets _ _ _ Hzs) in Hin.
    + rewrite lookup_insert_ne by done. fold (redis.zset st0 cache.pending_orders).
      by rewrite (zset_zsets _ _ _ Hzs).
Qed.

Lemma RemoveOrder_shrinks orderID st p :
  p ∈ redis.zset (cache.RemoveOrder orderID st).2 cache.pending_orders →
  p ∈ redis.zset st cache.pending_orders.
Proof.
  unfold cache.RemoveOrder.
  pose proof (Del_cases (cache.orderKey orderID) st) as [Hzs1 _].
  destruct (redis.Del _ st) as [[[]|err] st1]; cbn [fst snd] in *.
  - pose proof (ZRem_shrinks cache.pending_orders orderID st1 p) as Hrem.
    destruct (redis.ZRem _ _ st1) as [[[]|err] st2]; cbn [fst snd] in *;
      intros Hin%Hrem; by rewrite (zset_zsets _ _ _ Hzs1) in Hin.
  - by rewrite (zset_zsets _ _ _ Hzs1).
Qed.

Lemma collectDue_shrinks now orderIDs :
  ∀ orders st p,
    p ∈ redis.zset (cache.collectDue now orderIDs orders st).2 cache.pending_orders →
    p ∈ redis.zset st cache.pending_orders.
Proof.
  induction orderIDs as [|orderID rest IH]; intros orders st p; cbn; [done|].
  assert (Hget : redis.zsets (redis.Get (cache.orderKey orderID) st).2 = redis.zsets st).
  { unfold redis.Get. pose proof (reach_data st) as [_ Hzs].
    destruct (redis.reach st) as [[] st0]; cbn in *; [done|].
    by destruct (redis.kv st0 !! _) as [[]|]. }
  destruct (redis.Get _ st) as [[data|err] st1]; cbn [snd] in Hget.
  - destruct (models.FromJSON data) as [entry|].
    + destruct (time.After now (models.ExpiryTime entry)).
      * pose proof (RemoveOrder_shrinks (models.ID (models.entry_Order entry)) st1 p) as Hrm.
        destruct (cache.RemoveOrder _ st1) as [r st2]; cbn [snd] in Hrm.
        intros Hin%IH%Hrm. by rewrite (zset_zsets _ _ _ Hget) in Hin.
      * intros Hin%IH. by rewrite (zset_zsets _ _ _ Hget) in Hin.
    + intros Hin%IH. by rewrite (zset_zsets _ _ _ Hget) in Hin.
  - assert (Hskip : p ∈ redis.zset (cache.collectDue now rest orders st1).2
                          cache.pending_orders →
                    p ∈ redis.zset st cache.pending_orders)
      by (intros Hin%IH; by rewrite (zset_zsets _ _ _ Hget) in Hin).
    destruct err; try exact Hskip.
    pose proof (ZRem_shrinks cache.pending_orders orderID st1 p) as Hrm.
    destruct (redis.ZRem _ _ st1) as [r st2]; cbn [snd] in Hrm.
    intros Hin%IH%Hrm. by rewrite (zset_zsets _ _ _ Hget) in Hin.
Qed.

(** X7: the due query never creates or alters a record or an index
    entry, whatever the server does: records and index afterwards are
    part of what they were.  On a healthy server whose records sit under
    their own ids, an order that the query yields keeps its record and
    its index entries. *)
Theorem GetOrdersDueForExecution_only_evicts now st r st' :
  cache.GetOrdersDueForExecution now st = (r, st') →
  redis.kv st' ⊆ redis.kv st
  ∧ (∀ p, p ∈ redis.zset st' cache.pending_orders →
          p ∈ redis.zset st cache.pending_orders)
  ∧ (redis.faults st = [] → ids_wf st →
     ∀ id o, due_entry now st id = Some o →
       record st' id = record st id
       ∧ ∀ s, (s, id) ∈ redis.zset st cache.pending_orders →
              (s, id) ∈ redis.zset st' cache.pending_orders).
Proof.
  unfold cache.GetOrdersDueForExecution, redis.ZRangeByScore.
  pose proof (reach_data st) as [Hkv Hzs].
  destruct (redis.reach st) as [failed st1] eqn:Hreach; cbn in Hkv, Hzs.
  destruct failed.
  - intros [= <- <-]. rewrite Hkv, (zset_zsets _ _ _ Hzs).
    split; [done|]. split; [done|]. intros Hf. by rewrite reach_healthy in Hreach.
  - destruct (cache.collectDue now _ [] st1) as [orders st2] eqn:Hloop.
    intros [= <- <-].
    destruct (collectDue_sound _ _ _ _ _ _ Hloop) as [Hsub _].
    split; [by rewrite <- Hkv|]. split.
    + intros p Hin.
      pose proof (collectDue_shrinks now
                    (redis.zrange 0 (time.Unix now) (redis.zset st1 cache.pending_orders))
                    [] st1 p) as Hsh.
      rewrite Hloop in Hsh. cbn [snd] in Hsh.
      rewrite <- (zset_zsets _ _ _ Hzs). by apply Hsh.
    + intros Hf Hwf id o Hdue.
      rewrite reach_healthy in Hreach by done. injection Hreach as <-.
      pose proof (collectDue_keeps now
                    (redis.zrange 0 (time.Unix now) (redis.zset st cache.pending_orders))
                    [] st id o Hf Hwf Hdue) as Hk.
      cbn zeta in Hk. by rewrite Hloop in Hk.
Qed.

Lemma GetOrdersDueForExecution_only_evicts_witness :
  let now := monday_6pm + 5 * time.Second in
  record (cache.GetOrdersDueForExecution now store_with_sample).2 (models.ID sample_order)
  = record store_with_sample (models.ID sample_order).
Proof.
  intros now.
  destruct (cache.GetOrdersDueForExecution now store_with_sample) as [r st'] eqn:E.
  destruct (GetOrdersDueForExecution_only_evicts _ _ _ _ E) as (_ & _ & Hkeep).
  destruct (Hkeep eq_refl store_with_sample_wf (models.ID sample_order) sample_order)
    as [Hrec _]; [vm_compute; reflexivity|exact Hrec].
Defined.

Lemma collectDue_heals now orderIDs :
  ∀ orders st id,
    redis.faults st = [] →
    id ∈ orderIDs →
    record st id = None →
    ¬ indexed (cache.collectDue now orderIDs orders st).2 id.
Proof.
  induction orderIDs as [|orderID rest IH]; intros orders st id Hf Hin Hrec;
    [by apply elem_of_nil in Hin|].
  destruct (decide (id = orderID)) as [->|Hne].
  - cbn. rewrite Get_healthy by done. unfold record in Hrec. rewrite Hrec.
    rewrite ZRem_healthy by done. intros [s Hs].
    apply collectDue_shrinks in Hs. rewrite zset_insert in Hs.
    by apply elem_of_zrem in Hs as [_ ?].
  - apply elem_of_cons in Hin as [?|Hin]; [done|].
    intros [s Hs]. revert Hs. cbn. rewrite Get_healthy by done.
    destruct (redis.kv st !! cache.orderKey orderID) as [[data ttl0]|] eqn:Hrec0.
    + destruct data as [e0|raw]; cbn.
      * destruct (time.After now (models.ExpiryTime e0)).
        -- rewrite RemoveOrder_healthy by done. intros Hs.
           match type of Hs with
           | context [cache.collectDue now rest ?os ?st2] =>
             apply (IH os st2 id eq_refl Hin); [|by exists s]
           end.
           unfold record in *. cbn. by apply lookup_delete_None; right.
        -- intros Hs. eapply (IH _ st id Hf Hin Hrec). by exists s.
      * intros Hs. eapply (IH _ st id Hf Hin Hrec). by exists s.
    + rewrite ZRem_healthy by done. intros Hs.
      match type of Hs with
      | context [cache.collectDue now rest ?os ?st2] =>
        apply (IH os st2 id eq_refl Hin); [|by exists s]
      end.
      exact Hrec.
Qed.

(** X8: on a healthy server, an index entry in range whose record is
    missing (expired at the server, or removed) is dropped from the index
    by the due query. *)
Theorem GetOrdersDueForExecution_heals now st score id :
  redis.faults st = [] →
  (score, id) ∈ redis.zset st cache.pending_orders →
  0 ≤ score ≤ time.Unix now →
  record st id = None →
  ¬ indexed (cache.GetOrdersDueForExecution now st).2 id.
Proof.
  intros Hf Hin Hscore Hrec.
  unfold cache.GetOrdersDueForExecution, redis.ZRangeByScore.
  rewrite reach_healthy by done.
  pose proof (collectDue_heals now
                (redis.zrange 0 (time.Unix now) (redis.zset st cache.pending_orders))
                [] st id Hf) as Hheal.
  destruct (cache.collectDue now _ [] st) as [orders st2]. cbn in *.
  apply Hheal; [|done]. apply elem_of_zrange. by exists score.
Qed.

Lemma GetOrdersDueForExecution_heals_witness :
  let st := redis.Expire (cache.orderKey (models.ID sample_order)) store_with_sample in
  indexed st (models.ID sample_order)
  ∧ ¬ indexed (cache.GetOrdersDueForExecution (monday_6pm + 5 * time.Second) st).2
        (models.ID sample_order).
Proof.
  intros st.
  assert (Hin : (time.Unix monday_6pm, models.ID sample_order)
                ∈ redis.zset st cache.pending_orders) by (vm_compute; left).
  split; [by exists (time.Unix monday_6pm)|].
  apply (GetOrdersDueForExecution_heals (monday_6pm + 5 * time.Second) st
           (time.Unix monday_6pm) (models.ID sample_order)).
  - reflexivity.
  - exact Hin.
  - vm_compute. split; discriminate.
  - vm_compute. reflexivity.
Defined.

(** ** The order of the due index *)

Lemma zlt_false_le x y : redis.zlt x y = false → y.1 ≤ x.1.
Proof.
  unfold redis.zlt. intros [Hlt _]%orb_false_iff. by apply Z.ltb_ge in Hlt.
Qed.

Lemma zlt_true_le x y : redis.zlt x y = true → x.1 ≤ y.1.
Proof.
  unfold redis.zlt. intros [Hlt%Z.ltb_lt|[Heq%Z.eqb_eq _]%andb_true_iff]%orb_true_iff; lia.
Qed.

Lemma zinsert_sorted x l : score_sorted l → score_sorted (redis.zinsert x l).
Proof.
  unfold score_sorted. induction 1 as [|y l Hl IH Hy]; cbn [redis.zinsert].
  - repeat constructor.
  - destruct (redis.zlt x y) eqn:Hlt.
    + constructor; [by constructor|].
      apply zlt_true_le in Hlt. constructor; [done|].
      eapply Forall_impl; [exact Hy|]. cbn. intros z Hz. lia.
    + constructor; [done|]. apply Forall_forall. intros z [->|Hz]%elem_of_zinsert.
      * by apply zlt_false_le.
      * by eapply Forall_forall in Hy.
Qed.

Lemma filter_score_sorted (P : Z * string → Prop) `{∀ p, Decision (P p)} l :
  score_sorted l → score_sorted (filter P l).
Proof.
  unfold score_sorted. induction 1 as [|y l Hl IH Hy]; [constructor|].
  rewrite filter_cons. destruct (decide (P y)); [|done].
  constructor; [done|]. apply Forall_forall. intros z [_ Hz]%list_elem_of_filter.
  by eapply Forall_forall in Hy.
Qed.

Lemma zadd_sorted score member l : score_sorted l → score_sorted (redis.zadd score member l).
Proof. intros Hl. apply zinsert_sorted. by apply filter_score_sorted. Qed.

Lemma ZRem_sorted member st :
  score_sorted (redis.zset st cache.pending_orders) →
  score_sorted (redis.zset (redis.ZRem cache.pending_orders member st).2 cache.pending_orders).
Proof.
  intros Hs. pose proof (ZRem_cases cache.pending_orders member st) as [_ [[_ ->]|[_ Hzs]]].
  - by apply filter_score_sorted.
  - by rewrite (zset_zsets _ _ _ Hzs).
Qed.

Lemma RemoveOrder_sorted orderID st :
  score_sorted (redis.zset st cache.pending_orders) →
  score_sorted (redis.zset (cache.RemoveOrder orderID st).2 cache.pending_orders).
Proof.
  intros Hs. unfold cache.RemoveOrder.
  pose proof (Del_cases (cache.orderKey orderID) st) as [Hzs1 _].
  destruct (redis.Del _ st) as [[[]|err] st1]; cbn [fst snd] in *.
  - pose proof (ZRem_sorted orderID st1) as Hrem.
    rewrite (zset_zsets _ _ _ Hzs1) in Hrem. specialize (Hrem Hs).
    by destruct (redis.ZRem _ _ st1) as [[[]|err] st2].
  - by rewrite (zset_zsets _ _ _ Hzs1).
Qed.

Lemma collectDue_sorted now orderIDs :
  ∀ orders st,
    score_sorted (redis.zset st cache.pending_orders) →
    score_sorted (redis.zset (cache.collectDue now orderIDs orders st).2
                    cache.pending_orders).
Proof.
  induction orderIDs as [|orderID rest IH]; intros orders st Hs; cbn; [done|].
  assert (Hget : redis.zsets (redis.Get (cache.orderKey orderID) st).2 = redis.zsets st).
  { unfold redis.Get. pose proof (reach_data st) as [_ Hzs].
    destruct (redis.reach st) as [[] st0]; cbn in *; [done|].
    by destruct (redis.kv st0 !! _) as [[]|]. }
  destruct (redis.Get _ st) as [[data|err] st1]; cbn [snd] in Hget;
    rewrite <- (zset_zsets _ _ _ Hget) in Hs.
  - destruct (models.FromJSON data) as [entry|]; [|by apply IH].
    destruct (time.After now (models.ExpiryTime entry)); [|by apply IH].
    pose proof (RemoveOrder_sorted (models.ID (models.entry_Order entry)) st1 Hs) as Hrm.
    destruct (cache.RemoveOrder _ st1) as [r st2]. by apply IH.
  - destruct err; try (by apply IH).
    pose proof (ZRem_sorted orderID st1 Hs) as Hrm.
    destruct (redis.ZRem _ _ st1) as [r st2]. by apply IH.
Qed.

(** X9: the due index stays in non-decreasing score order under every
    operation of the cache that touches it - insert, remove and the due
    query - whatever the server does. *)
Theorem index_order_preserved st :
  score_sorted (redis.zset st cache.pending_orders) →
  (∀ createdAt now order expiryTime,
     score_sorted (redis.zset (cache.StoreOrder createdAt now order expiryTime st).2
                     cache.pending_orders))
  ∧ (∀ orderID,
       score_sorted (redis.zset (cache.RemoveOrder orderID st).2 cache.pending_orders))
  ∧ (∀ now,
       score_sorted (redis.zset (cache.GetOrdersDueForExecution now st).2
                       cache.pending_orders)).
Proof.
  intros Hs. split; [|split].
  - intros createdAt now order expiryTime.
    destruct (cache.StoreOrder createdAt now order expiryTime st) as [[[]|err] st'] eqn:E;
      cbn [snd].
    + revert E. unfold cache.StoreOrder, models.ToJSON. cbn zeta.
      destruct (models.json_float_ok _); [|discriminate].
      destruct (time.Until now expiryTime <=? 0); [discriminate|].
      destruct (redis.Set_ _ _ _ st) as [[[]|e1] st1] eqn:Hset; [|discriminate].
      destruct (redis.ZAdd _ _ _ st1) as [[[]|e2] st2] eqn:Hadd; [|discriminate].
      intros [= <-]. apply Set_Ok in Hset as [_ Hzs1]. apply ZAdd_Ok in Hadd as [_ ->].
      rewrite (zset_zsets _ _ _ Hzs1). by apply zadd_sorted.
    + revert E. unfold cache.StoreOrder, models.ToJSON. cbn zeta.
      destruct (models.json_float_ok _); [|by intros [= _ <-]].
      destruct (time.Until now expiryTime <=? 0); [by intros [= _ <-]|].
      destruct (redis.Set_ _ _ _ st) as [[[]|e1] st1] eqn:Hset.
      * destruct (redis.ZAdd _ _ _ st1) as [[[]|e2] st2] eqn:Hadd; [discriminate|].
        intros [= _ <-]. apply Set_Ok in Hset as [_ Hzs1].
        apply ZAdd_Err in Hadd as [_ Hzs2]. cbn.
        by rewrite (zset_zsets _ _ _ Hzs2), (zset_zsets _ _ _ Hzs1).
      * intros [= _ <-]. apply Set_Err in Hset as [_ Hzs1]. cbn.
        by rewrite (zset_zsets _ _ _ Hzs1).
  - intros orderID. by apply RemoveOrder_sorted.
  - intros now. unfold cache.GetOrdersDueForExecution, redis.ZRangeByScore.
    pose proof (reach_data st) as [_ Hzs].
    destruct (redis.reach st) as [[] st1]; cbn in *; [by rewrite (zset_zsets _ _ _ Hzs)|].
    pose proof (collectDue_sorted now
                  (redis.zrange 0 (time.Unix now) (redis.zset st1 cache.pending_orders))
                  [] st1) as Hloop.
    destruct (cache.collectDue now _ [] st1) as [orders st2]. cbn in *.
    apply Hloop. by rewrite (zset_zsets _ _ _ Hzs).
Qed.

Lemma index_order_witness :
  score_sorted (redis.zset store_with_sample cache.pending_orders)
  ∧ score_sorted
      (redis.zset (cache.RemoveOrder (models.ID sample_order) store_with_sample).2
         cache.pending_orders).
Proof.
  assert (Hempty : score_sorted (redis.zset empty_store cache.pending_orders))
    by constructor.
  destruct (index_order_preserved empty_store Hempty) as [Hstore _].
  pose proof (Hstore (monday_6pm - 60 * time.Second) (monday_6pm - 60 * time.Second)
                sample_order (time.Add monday_6pm (10 * time.Second))) as Hsample.
  split; [exact Hsample|].
  destruct (index_order_preserved store_with_sample Hsample) as (_ & Hremove & _).
  apply Hremove.
Defined.

Lemma due_entry_score now st s id o :
  index_consistent st →
  (s, id) ∈ redis.zset st cache.pending_orders →
  due_entry now st id = Some o →
  s = time.Unix (models.ScheduledTime o).
Proof.
  intros Hcons Hin. unfold due_entry.
  destruct (record st id) as [[[e|raw] ttl]|] eqn:Hrec; try discriminate.
  destruct (time.After now (models.ExpiryTime e)); [discriminate|].
  intros [= <-]. by apply (Hcons s id e ttl).
Qed.

Lemma due_entries_sorted now st l :
  index_consistent st →
  score_sorted l →
  (∀ p, p ∈ l → p ∈ redis.zset st cache.pending_orders) →
  StronglySorted
    (λ a b, time.Unix (models.ScheduledTime a) ≤ time.Unix (models.ScheduledTime b))
    (omap (due_entry now st) (l.*2)).
Proof.
  intros Hcons Hs. unfold score_sorted in Hs.
  induction Hs as [|[s id] l Hl IH Hy]; intros Hsub; [constructor|].
  assert (Hsub' : ∀ p, p ∈ l → p ∈ redis.zset st cache.pending_orders)
    by (intros p Hp; apply Hsub; by right).
  cbn. destruct (due_entry now st id) as [o|] eqn:Hdue; [|by apply IH].
  constructor; [by apply IH|].
  apply Forall_forall. intros o' (id' & Hid' & Hdue')%list_elem_of_omap.
  apply list_elem_of_fmap in Hid' as ([s' id''] & -> & Hp). cbn in *.
  rewrite <- (due_entry_score now st s id o Hcons (Hsub _ (list_elem_of_here _ _)) Hdue).
  rewrite <- (due_entry_score now st s' id'' o' Hcons (Hsub' _ Hp) Hdue').
  rewrite Forall_forall in Hy. exact (Hy (s', id'') Hp).
Qed.

(** X10: on a healthy server whose records sit under their own ids,
    with a sorted index whose scores are the scheduled seconds of the
    records, the due query returns the orders in non-decreasing order of
    the Unix second of their scheduled instant. *)
Theorem GetOrdersDueForExecution_ordered now st res :
  redis.faults st = [] →
  ids_wf st →
  index_consistent st →
  score_sorted (redis.zset st cache.pending_orders) →
  (cache.GetOrdersDueForExecution now st).1 = Ok res →
  StronglySorted
    (λ a b, time.Unix (models.ScheduledTime a) ≤ time.Unix (models.ScheduledTime b))
    res.
Proof.
  intros Hf Hwf Hcons Hs. rewrite due_healthy_result by done. intros [= <-].
  unfold redis.zrange. apply due_entries_sorted; [done| |].
  - by apply filter_score_sorted.
  - by intros p [_ ?]%list_elem_of_filter.
Qed.

Lemma store_with_two_invariants :
  redis.faults store_with_two = []
  ∧ ids_wf store_with_two
  ∧ index_consistent store_with_two
  ∧ score_sorted (redis.zset store_with_two cache.pending_orders).
Proof.
  split; [reflexivity|]. split; [|split].
  - apply StoreOrder_wf; [reflexivity|].
    apply StoreOrder_wf; [reflexivity|]. apply empty_store_invariants.
  - apply StoreOrder_consistent; [reflexivity|reflexivity|by vm_compute|].
    apply StoreOrder_consistent; [reflexivity|reflexivity|by vm_compute|].
    apply empty_store_invariants.
  - unfold store_with_two. cbn zeta.
    rewrite (StoreOrder_healthy _ _ later_order); [|reflexivity|reflexivity|by vm_compute].
    cbn [snd].
    rewrite (StoreOrder_healthy _ _ sample_order); [|reflexivity|reflexivity|by vm_compute].
    cbn [snd]. rewrite !zset_insert. apply zadd_sorted, zadd_sorted. constructor.
Qed.

Lemma GetOrdersDueForExecution_ordered_witness :
  let now := monday_6pm + 5 * time.Second in
  (cache.GetOrdersDueForExecution now store_with_two).1 = Ok [sample_order; later_order]
  ∧ StronglySorted
      (λ a b, time.Unix (models.ScheduledTime a) ≤ time.Unix (models.ScheduledTime b))
      [sample_order; later_order].
Proof.
  intros now.
  assert (Hres : (cache.GetOrdersDueForExecution now store_with_two).1
                 = Ok [sample_order; later_order]) by (vm_compute; reflexivity).
  split; [exact Hres|].
  destruct store_with_two_invariants as (Hf & Hwf & Hcons & Hsorted).
  exact (GetOrdersDueForExecution_ordered now store_with_two _ Hf Hwf Hcons Hsorted Hres).
Defined.

(** ** From ingestion to the due query *)

(** X11: an order whose texts are well-formed UTF-8, so that it comes
    back from its JSON text unchanged, whose instants are within the
    years that [time.Time] marshals, and that the ingester cached on a
    healthy store (ten seconds of grace after its scheduled instant) is
    returned by the due query exactly while it is due: at every clock
    whose Unix second has reached the order's scheduled second and that
    has not passed the scheduled instant plus ten seconds; at a later
    clock, or before the scheduled second, no order with its id is
    returned. *)
Theorem cached_order_due_in_grace_window clock k order st now res :
  redis.faults st = [] →
  ids_wf st →
  models.json_order order = order →
  models.json_float_ok (models.Price order) = true →
  Forall (λ t, models.json_time_ok t = true)
    [models.ScheduledTime order; models.CreatedAt order;
     models.ScheduledTime order + 10 * time.Second; clock k] →
  clock (S k) < models.ScheduledTime order + 10 * time.Second →
  0 ≤ models.ScheduledTime order →
  (cache.GetOrdersDueForExecution now (reader.cacheOrders clock k [order] st)).1 = Ok res →
  (time.Unix (models.ScheduledTime order) ≤ time.Unix now →
   now ≤ models.ScheduledTime order + 10 * time.Second →
   order ∈ res)
  ∧ (models.ScheduledTime order + 10 * time.Second < now
     ∨ time.Unix now < time.Unix (models.ScheduledTime order) →
     ∀ o, o ∈ res → models.ID o ≠ models.ID order).
Proof.
  intros Hf Hwf Hutf8 Hjson _ Hclock Hepoch. cbn [reader.cacheOrders]. unfold time.Add.
  assert (Hidok : models.json_string (models.ID order) = models.ID order)
    by (by apply (f_equal models.ID) in Hutf8).
  pose proof (StoreOrder_wf (clock k) (clock (S k)) order
                (models.ScheduledTime order + 10 * time.Second) st Hidok Hwf) as Hwf'.
  rewrite StoreOrder_healthy in Hwf' |- * by done. cbn [snd] in Hwf' |- *.
  set (st' := {| redis.kv := _; redis.zsets := _; redis.faults := [] |}) in *.
  rewrite (due_healthy_result now st' eq_refl Hwf'). intros [= <-].
  assert (Hrec : record st' (models.ID order)
                 = Some (models.JSON (models.json_entry {| models.entry_Order := order;
                                        models.ExpiryTime :=
                                          models.ScheduledTime order + 10 * time.Second;
                                        models.entry_CreatedAt := clock k |}),
                         time.Until (clock (S k))
                           (models.ScheduledTime order + 10 * time.Second)))
    by (unfold record, st'; cbn; apply lookup_insert_eq).
  assert (Hidx : ∀ s, (s, models.ID order) ∈ redis.zset st' cache.pending_orders
                      ↔ s = time.Unix (models.ScheduledTime order)).
  { intros s. unfold st'. rewrite zset_insert, elem_of_zadd. split; [|by auto].
    by intros [[-> _]|[_ ?]]. }
  assert (Hscore : 0 ≤ time.Unix (models.ScheduledTime order)).
  { unfold time.Unix, time.Second. apply Z.div_pos; lia. }
  split.
  - intros Hreached Hgrace. apply list_elem_of_omap. exists (models.ID order). split.
    + apply elem_of_zrange. exists (time.Unix (models.ScheduledTime order)).
      split; [by apply Hidx|lia].
    + unfold due_entry. rewrite Hrec. cbn [models.json_entry models.ExpiryTime
                                           models.entry_Order].
      rewrite Hutf8. unfold time.After.
      by destruct (Z.ltb_spec (models.ScheduledTime order + 10 * time.Second) now); [lia|].
  - intros Hout o (id & Hid & Hdue)%list_elem_of_omap Heq.
    unfold due_entry in Hdue.
    destruct (record st' id) as [[[e|raw] ttl]|] eqn:Hrec'; try discriminate.
    destruct (time.After now (models.ExpiryTime e)) eqn:Hexp; [discriminate|].
    injection Hdue as <-. pose proof (Hwf' id e ttl Hrec') as Hid'.
    rewrite Heq in Hid'. subst id. rewrite Hrec in Hrec'. injection Hrec' as <- _.
    cbn in Hexp. unfold time.After in Hexp. apply Z.ltb_ge in Hexp.
    apply elem_of_zrange in Hid as (s & Hs%Hidx & Hrange). lia.
Qed.

Lemma cached_order_due_witness :
  let clock := λ _ : nat, monday_6pm - 60 * time.Second in
  let st := reader.cacheOrders clock 0 [sample_order] empty_store in
  sample_order ∈ default [] (match (cache.GetOrdersDueForExecution
                                      (monday_6pm + 10 * time.Second) st).1 with
                             | Ok res => Some res
                             | Err _ => None
                             end).
Proof.
  intros clock st.
  destruct (cache.GetOrdersDueForExecution (monday_6pm + 10 * time.Second) st)
    as [[res|err] st'] eqn:E; [|vm_compute in E; discriminate E].
  cbn.
  destruct (cached_order_due_in_grace_window clock 0 sample_order empty_store
              (monday_6pm + 10 * time.Second) res) as [Hin _].
  - reflexivity.
  - apply empty_store_invariants.
  - reflexivity.
  - reflexivity.
  - repeat constructor.
  - by vm_compute.
  - by vm_compute.
  - fold st. by rewrite E.
  - apply Hin; by vm_compute.
Defined.

(** ** Workers on a healthy store *)

Lemma broker_calls_app tr1 tr2 :
  broker_calls (tr1 ++ tr2) = (broker_calls tr1 ++ broker_calls tr2)%list.
Proof. unfold broker_calls. apply omap_app. Qed.

(** The attempt of a worker that finds the lock free on a healthy
    server. *)
Lemma executeOrder_healthy_free bm order st :
  redis.faults st = [] →
  redis.kv st !! cache.lockKey (models.ID order) = None →
  (trigger.executeOrder bm order st).1
  = {| redis.kv := delete (cache.orderKey (models.ID order)) (redis.kv st);
       redis.zsets :=
         <[cache.pending_orders :=
             redis.zrem (models.ID order) (redis.zset st cache.pending_orders)]>
           (redis.zsets st);
       redis.faults := [] |}
  ∧ broker_calls (trigger.executeOrder bm order st).2
    = match broker.wait bm with None => [order] | Some _ => [] end.
Proof.
  intros Hf Hfree.
  assert (Hlock : cache.TryLock (models.ID order) (30 * time.Second) st
                  = ((true, None),
                     {| redis.kv := <[cache.lockKey (models.ID order) :=
                                        (models.Raw "1", 30 * time.Second)]> (redis.kv st);
                        redis.zsets := redis.zsets st; redis.faults := [] |}))
    by (by rewrite TryLock_healthy, Hfree).
  rewrite (executeOrder_locked _ _ _ _ Hlock). cbn [fst snd].
  split; [by apply executeOrder_store_healthy|].
  unfold broker.ExecuteOrder. destruct (broker.wait bm) as [werr|]; [reflexivity|].
  by destruct (broker.execute bm order) as [result [err|]].
Qed.

Lemma worker_healthy cancelled bm orders :
  ∀ k st,
    redis.faults st = [] →
    (∀ i, cancelled i = false) →
    (∀ o, o ∈ orders → redis.kv st !! cache.lockKey (models.ID o) = None) →
    let r := trigger.worker cancelled bm k orders st in
    redis.faults r.1 = []
    ∧ (∀ id, redis.kv r.1 !! cache.lockKey id = redis.kv st !! cache.lockKey id)
    ∧ (∀ id, record r.1 id
             = if decide (id ∈ models.ID <$> orders) then None else record st id)
    ∧ (∀ s id, (s, id) ∈ redis.zset r.1 cache.pending_orders
               ↔ (s, id) ∈ redis.zset st cache.pending_orders
                 ∧ id ∉ models.ID <$> orders)
    ∧ broker_calls r.2 = filter (λ o, broker.wait (bm o) = None) orders.
Proof.
  induction orders as [|order rest IH]; intros k st Hf Hrun Hfree; cbn zeta.
  - cbn. split; [done|]. split; [done|]. split; [done|]. split; [|done].
    intros s id. rewrite elem_of_nil. tauto.
  - cbn [trigger.worker]. rewrite Hrun.
    destruct (executeOrder_healthy_free (bm order) order st Hf) as [Hst1 Hcalls1];
      [apply Hfree; by left|].
    destruct (trigger.executeOrder (bm order) order st) as [st1 tr1]. cbn [fst snd] in *.
    assert (Hfree1 : ∀ o, o ∈ rest →
              redis.kv st1 !! cache.lockKey (models.ID o) = None).
    { intros o Ho. rewrite Hst1. cbn. rewrite lookup_delete_ne.
      - apply Hfree. by right.
      - apply orderKey_lockKey. }
    assert (Hf1 : redis.faults st1 = []) by (by rewrite Hst1).
    specialize (IH (S k) st1 Hf1 Hrun Hfree1). cbn zeta in IH.
    destruct (trigger.worker cancelled bm (S k) rest st1) as [st2 tr2]. cbn [fst snd] in *.
    destruct IH as (Hf2 & Hlocks & Hrecs & Hidx & Hcalls2).
    split; [done|]. split; [|split; [|split]].
    + intros id. rewrite Hlocks, Hst1. cbn. apply lookup_delete_ne, orderKey_lockKey.
    + intros id. rewrite Hrecs, fmap_cons.
      destruct (decide (id ∈ models.ID <$> rest)) as [Hin|Hnin].
      * rewrite decide_True; [done|]. by right.
      * unfold record. rewrite Hst1. cbn.
        destruct (decide (id = models.ID order)) as [->|Hne].
        -- rewrite decide_True by (by left). apply lookup_delete_eq.
        -- rewrite decide_False by (by intros [?|?]%elem_of_cons).
           apply lookup_delete_ne. by intros ?%orderKey_inj.
    + intros s id. rewrite Hidx, Hst1, zset_insert, elem_of_zrem, fmap_cons, not_elem_of_cons.
      tauto.
    + rewrite broker_calls_app, Hcalls1, Hcalls2, filter_cons.
      by destruct (broker.wait (bm order)); [rewrite decide_False|rewrite decide_True].
Qed.

(** X12: on a healthy server, a worker that is not cancelled and finds
    the locks of its orders free removes every order it was handed -
    record and index entry - leaves all locks as they were, touches no
    other order, and hands to the broker exactly the orders whose wait at
    the rate gate succeeded, each once per entry of its list and in list
    order. *)
Theorem worker_drains cancelled bm k orders st :
  redis.faults st = [] →
  (∀ i, cancelled i = false) →
  (∀ o, o ∈ orders → redis.kv st !! cache.lockKey (models.ID o) = None) →
  let r := trigger.worker cancelled bm k orders st in
  (∀ o, o ∈ orders →
     record r.1 (models.ID o) = None ∧ ¬ indexed r.1 (models.ID o))
  ∧ (∀ id, redis.kv r.1 !! cache.lockKey id = redis.kv st !! cache.lockKey id)
  ∧ (∀ id, id ∉ models.ID <$> orders →
       record r.1 id = record st id
       ∧ ∀ s, (s, id) ∈ redis.zset r.1 cache.pending_orders
              ↔ (s, id) ∈ redis.zset st cache.pending_orders)
  ∧ broker_calls r.2 = filter (λ o, broker.wait (bm o) = None) orders.
Proof.
  intros Hf Hrun Hfree r.
  destruct (worker_healthy cancelled bm orders k st Hf Hrun Hfree)
    as (_ & Hlocks & Hrecs & Hidx & Hcalls).
  fold r in Hlocks, Hrecs, Hidx, Hcalls.
  split; [|split; [done|split; [|done]]].
  - intros o Ho.
    assert (Hin : models.ID o ∈ models.ID <$> orders) by (by apply list_elem_of_fmap_2).
    split.
    + by rewrite Hrecs, decide_True.
    + intros [s Hs]. apply Hidx in Hs as [_ ?]. done.
  - intros id Hnin. split.
    + by rewrite Hrecs, decide_False.
    + intros s. rewrite Hidx. tauto.
Qed.

Lemma worker_drains_witness :
  let bm := λ o : models.Order,
              if decide (models.ID o = models.ID later_order) then cancelled_gate
              else accepting_broker in
  let r := trigger.worker (λ _, false) bm 0 [sample_order; later_order] store_with_two in
  record r.1 (models.ID sample_order) = None
  ∧ record r.1 (models.ID later_order) = None
  ∧ broker_calls r.2 = [sample_order].
Proof.
  intros bm r.
  destruct (worker_drains (λ _, false) bm 0 [sample_order; later_order] store_with_two)
    as (Hgone & _ & _ & Hcalls).
  - reflexivity.
  - reflexivity.
  - intros o [->|[->|[]%elem_of_nil]%elem_of_cons]%elem_of_cons; by vm_compute.
  - split; [apply Hgone; by left|]. split; [apply Hgone; right; by left|].
    fold r in Hcalls. rewrite Hcalls. by vm_compute.
Defined.

(** X13: the attempt never looks at the store for the order it was
    handed: on a healthy server a worker that finds the lock free calls the
    broker once when the wait at the rate gate succeeds and never
    otherwise, whether or not the store holds a record of the order; in
    particular a second attempt on the same copy of the order, after the
    first one removed it and released the lock, calls the broker again. *)
Theorem executeOrder_dispatches_stale_copy bm order st :
  redis.faults st = [] →
  redis.kv st !! cache.lockKey (models.ID order) = None →
  let first := trigger.executeOrder bm order st in
  let second := trigger.executeOrder bm order first.1 in
  broker_calls first.2 = match broker.wait bm with None => [order] | Some _ => [] end
  ∧ record first.1 (models.ID order) = None
  ∧ broker_calls second.2 = match broker.wait bm with None => [order] | Some _ => [] end.
Proof.
  intros Hf Hfree. cbn zeta.
  destruct (executeOrder_healthy_free bm order st Hf Hfree) as [Hst1 Hcalls1].
  split; [done|]. split.
  - rewrite Hst1. unfold record. cbn. apply lookup_delete_eq.
  - apply executeOrder_healthy_free.
    + by rewrite Hst1.
    + rewrite Hst1. cbn. rewrite lookup_delete_ne; [done|]. apply orderKey_lockKey.
Qed.

Lemma executeOrder_dispatches_stale_copy_witness :
  let first := trigger.executeOrder accepting_broker sample_order store_with_sample in
  record first.1 (models.ID sample_order) = None
  ∧ broker_calls (trigger.executeOrder accepting_broker sample_order first.1).2
    = [sample_order].
Proof.
  intros first.
  destruct (executeOrder_dispatches_stale_copy accepting_broker sample_order
              store_with_sample eq_refl eq_refl) as (_ & Hgone & Hagain).
  split; [exact Hgone|exact Hagain].
Defined.

(** X14: on a healthy server an attempt leaves every lock as it found
    it: a lock it acquired is released on each path, and a lock held by
    another worker is neither released nor replaced. *)
Theorem executeOrder_leaves_locks bm order st :
  redis.faults st = [] →
  ∀ id, redis.kv (trigger.executeOrder bm order st).1 !! cache.lockKey id
        = redis.kv st !! cache.lockKey id.
Proof.
  intros Hf id.
  destruct (redis.kv st !! cache.lockKey (models.ID order)) as [held|] eqn:Hlock.
  - unfold trigger.executeOrder. rewrite TryLock_healthy, Hlock by done. done.
  - destruct (executeOrder_healthy_free bm order st Hf Hlock) as [-> _]. cbn.
    apply lookup_delete_ne, orderKey_lockKey.
Qed.

Lemma executeOrder_leaves_locks_witness :
  redis.kv (trigger.executeOrder accepting_broker sample_order store_locked).1
    !! cache.lockKey (models.ID sample_order)
  = Some (models.Raw "1", 30 * time.Second).
Proof.
  rewrite (executeOrder_leaves_locks accepting_broker sample_order store_locked eq_refl).
  reflexivity.
Defined.

(** ** Shortening and masking text *)

Lemma append_cons a s t : String a s +:+ t = String a (s +:+ t).
Proof. reflexivity. Qed.

Lemma length_cons a s : String.length (String a s) = S (String.length s).
Proof. reflexivity. Qed.

Lemma length_append s t :
  String.length (s +:+ t) = (String.length s + String.length t)%nat.
Proof.
  induction s as [|a s IH]; [reflexivity|].
  by rewrite append_cons, !length_cons, IH.
Qed.

Lemma append_nil_r s : s +:+ "" = s.
Proof. induction s as [|a s IH]; [reflexivity|]. by rewrite append_cons, IH. Qed.

Lemma append_assoc s t u : (s +:+ t) +:+ u = s +:+ t +:+ u.
Proof. induction s as [|a s IH]; [reflexivity|]. by rewrite !append_cons, IH. Qed.

Lemma length_take n s : String.length (take n s) = Nat.min n (String.length s).
Proof.
  revert s. induction n as [|n IH]; intros [|a s]; try reflexivity.
  cbn [take]. rewrite !length_cons, IH. reflexivity.
Qed.

Lemma length_drop n s : String.length (drop n s) = (String.length s - n)%nat.
Proof.
  revert s. induction n as [|n IH]; intros [|a s]; try reflexivity.
  cbn [drop]. rewrite length_cons, IH. reflexivity.
Qed.

Lemma length_stars n : String.length (stars n) = n.
Proof. induction n as [|n IH]; [reflexivity|]. cbn [stars]. by rewrite length_cons, IH. Qed.

Lemma get_stars n i : (i < n)%nat → String.get i (stars n) = Some "*"%char.
Proof.
  revert i. induction n as [|n IH]; intros [|i] Hi; try lia; [reflexivity|].
  cbn [stars String.get]. apply IH. lia.
Qed.

Lemma take_append_length h t : take (String.length h) (h +:+ t) = h.
Proof.
  induction h as [|a h IH]; [by destruct t|].
  rewrite append_cons, length_cons. cbn [take]. by rewrite IH.
Qed.

Lemma drop_append_length h t : drop (String.length h) (h +:+ t) = t.
Proof.
  induction h as [|a h IH]; [by destruct t|].
  rewrite append_cons, length_cons. cbn [drop]. exact IH.
Qed.

(** X15: for a non-negative limit, [truncateString] returns at most
    [maxLen] bytes: the string itself when it fits, otherwise exactly
    [maxLen] bytes that start with a prefix of the string (followed by
    "..." when the limit exceeds 3); a negative limit makes it panic. *)
Theorem truncateString_bound s maxLen :
  (0 ≤ maxLen →
   ∃ r, trigger.truncateString s maxLen = Some r
        ∧ len r ≤ maxLen
        ∧ (len s ≤ maxLen → r = s)
        ∧ (maxLen < len s →
           len r = maxLen
           ∧ ∃ kept, r = take kept s +:+ (if maxLen <=? 3 then "" else "...")))
  ∧ (maxLen < 0 → trigger.truncateString s maxLen = None).
Proof.
  unfold trigger.truncateString, slice_to, len. split.
  - intros Hpos. destruct (Z.leb_spec (Z.of_nat (String.length s)) maxLen) as [Hfit|Hlong].
    + exists s. split; [done|]. split; [done|]. split; [done|lia].
    + destruct (Z.leb_spec maxLen 3) as [Hsmall|Hbig].
      * destruct (Z.ltb_spec maxLen 0); [lia|].
        destruct (Z.ltb_spec (Z.of_nat (String.length s)) maxLen); [lia|].
        cbn [orb].
        eexists. split; [reflexivity|].
        rewrite length_take.
        split; [lia|]. split; [lia|]. intros _. split; [lia|].
        exists (Z.to_nat maxLen). by rewrite append_nil_r.
      * destruct (Z.ltb_spec (maxLen - 3) 0); [lia|].
        destruct (Z.ltb_spec (Z.of_nat (String.length s)) (maxLen - 3)); [lia|].
        cbn [orb].
        eexists. split; [reflexivity|].
        rewrite length_append, length_take.
        change (String.length "...") with 3%nat.
        split; [lia|]. split; [lia|]. intros _. split; [lia|].
        by exists (Z.to_nat (maxLen - 3)).
  - intros Hneg. destruct (Z.leb_spec (Z.of_nat (String.length s)) maxLen); [lia|].
    destruct (Z.leb_spec maxLen 3); [|lia].
    by destruct (Z.ltb_spec maxLen 0); [|lia].
Qed.

Lemma truncateString_bound_witness :
  trigger.truncateString "XYZ:2025-03-10T18:00:00+05:30" 20 = Some "XYZ:2025-03-10T18..."
  ∧ ∃ r, trigger.truncateString "XYZ:2025-03-10T18:00:00+05:30" 20 = Some r ∧ len r ≤ 20.
Proof.
  split; [reflexivity|].
  destruct (truncateString_bound "XYZ:2025-03-10T18:00:00+05:30" 20) as [Hbound _].
  destruct Hbound as (r & Hr & Hlen & _); [lia|].
  exists r. split; [exact Hr|exact Hlen].
Defined.

Lemma wrap_int_small z : - 2 ^ 63 ≤ z < 2 ^ 63 → wrap_int z = z.
Proof.
  intros Hz. unfold wrap_int. rewrite Z.mod_small; lia.
Qed.

(** X16: on a string (its length fits Go's int) and a number of visible
    characters from 0 up to 2^62 - 1, [maskString] returns a string of the
    same length as its input in which every position from [visibleChars]
    up to [visibleChars] before the end holds '*' - all of them when the
    input has at most twice [visibleChars] bytes; the first and last
    [visibleChars] bytes of a longer input are kept.  From 2^62 on the
    doubled number wraps around to a negative one, and the call panics on
    every string shorter than [visibleChars]. *)
Theorem maskString_hides s visibleChars :
  len s < 2 ^ 63 →
  (0 ≤ visibleChars < 2 ^ 62 →
   ∃ r, kite.maskString s visibleChars = Some r
        ∧ len r = len s
        ∧ (∀ i : nat, visibleChars ≤ Z.of_nat i < len s - visibleChars →
             String.get i r = Some "*"%char)
        ∧ (len s ≤ visibleChars * 2 →
           ∀ i : nat, Z.of_nat i < len s → String.get i r = Some "*"%char)
        ∧ (visibleChars * 2 < len s →
           take (Z.to_nat visibleChars) r = take (Z.to_nat visibleChars) s
           ∧ drop (Z.to_nat (len s - visibleChars)) r
             = drop (Z.to_nat (len s - visibleChars)) s))
  ∧ (2 ^ 62 ≤ visibleChars < 2 ^ 63 → len s < visibleChars →
     kite.maskString s visibleChars = None).
Proof.
  intros Hs. split.
  - intros Hv. unfold kite.maskString.
    rewrite (wrap_int_small (visibleChars * 2)) by lia.
    destruct (Z.leb_spec (len s) (visibleChars * 2)) as [Hshort|Hlong].
    + unfold Repeat_star, len in *. set (n := String.length s) in *.
      destruct (Z.ltb_spec (Z.of_nat n) 0); [lia|].
      eexists. split; [reflexivity|]. rewrite length_stars, Nat2Z.id.
      split; [done|]. split; [|split; [|lia]].
      * intros i Hi. apply get_stars. lia.
      * intros _ i Hi. apply get_stars. lia.
    + assert (Hlen0 : 0 ≤ len s) by (unfold len; lia).
      rewrite (wrap_int_small (len s - visibleChars * 2)) by lia.
      rewrite (wrap_int_small (len s - visibleChars)) by lia.
      unfold Repeat_star, slice_to, slice_from, len in *.
      set (n := String.length s) in *.
      destruct (Z.ltb_spec visibleChars 0); [lia|].
      destruct (Z.ltb_spec (Z.of_nat n) visibleChars); [lia|].
      destruct (Z.ltb_spec (Z.of_nat n - visibleChars * 2) 0); [lia|].
      destruct (Z.ltb_spec (Z.of_nat n - visibleChars) 0); [lia|].
      destruct (Z.ltb_spec (Z.of_nat n) (Z.of_nat n - visibleChars)); [lia|].
      cbn [orb].
      set (v := Z.to_nat visibleChars).
      assert (Hv2 : (2 * v < n)%nat) by lia.
      replace (Z.to_nat (Z.of_nat n - visibleChars * 2)) with (n - 2 * v)%nat by lia.
      replace (Z.to_nat (Z.of_nat n - visibleChars)) with (n - v)%nat by lia.
      assert (Hhead : String.length (take v s) = v) by (rewrite length_take; fold n; lia).
      eexists. split; [reflexivity|].
      split; [|split; [|split; [lia|]]].
      * rewrite !length_append, Hhead, length_stars, length_drop. fold n. lia.
      * intros i Hi.
        replace i with ((i - v) + String.length (take v s))%nat by lia.
        rewrite <- String.append_correct2.
        rewrite <- String.append_correct1 by (rewrite length_stars; lia).
        apply get_stars. lia.
      * intros _. split.
        -- rewrite <- Hhead at 1. apply take_append_length.
        -- rewrite <- append_assoc.
           assert (Hlen : String.length (take v s +:+ stars (n - 2 * v)) = (n - v)%nat)
             by (rewrite length_append, Hhead, length_stars; lia).
           rewrite <- Hlen at 1. apply drop_append_length.
  - intros Hv Hshort. unfold kite.maskString.
    assert (Hwrap : wrap_int (visibleChars * 2) < 0).
    { unfold wrap_int.
      replace (visibleChars * 2 + 2 ^ 63)
        with ((visibleChars * 2 - 2 ^ 63) + 1 * 2 ^ 64) by lia.
      rewrite Z.mod_add by lia. rewrite Z.mod_small by lia. lia. }
    assert (Hlen0 : 0 ≤ len s) by (unfold len; lia).
    destruct (Z.leb_spec (len s) (wrap_int (visibleChars * 2))); [lia|].
    unfold slice_to.
    destruct (Z.ltb_spec visibleChars 0); [lia|].
    destruct (Z.ltb_spec (len s) visibleChars); [|lia].
    reflexivity.
Qed.

Lemma maskString_hides_witness :
  kite.maskString "abcd1234efgh5678" 4 = Some "abcd********5678"
  ∧ (∃ r, kite.maskString "abcd1234efgh5678" 4 = Some r ∧ len r = len "abcd1234efgh5678")
  ∧ kite.maskString "abc" (2 ^ 62) = None.
Proof.
  split; [reflexivity|]. split.
  - destruct (maskString_hides "abcd1234efgh5678" 4) as [Hmask _];
      [vm_compute; reflexivity|].
    destruct Hmask as (r & Hr & Hlen & _); [lia|].
    exists r. split; [exact Hr|exact Hlen].
  - destruct (maskString_hides "abc" (2 ^ 62)) as [_ Hpanic];
      [vm_compute; reflexivity|].
    apply Hpanic; [lia|vm_compute; reflexivity].
Defined.

(** ** The next opening of the market *)

Lemma wallSeconds_open_on loc day :
  time.wallSeconds loc (open_on loc day) = day * 86400 + 32400.
Proof.
  unfold time.wallSeconds, time.Unix, open_on, time.Second.
  rewrite Z.div_mul by done. lia.
Qed.

Lemma open_on_clock loc day :
  civil_day loc (open_on loc day) = day
  ∧ time.Weekday loc (open_on loc day) = (day + 4) `mod` 7
  ∧ time.Hour loc (open_on loc day) = 9
  ∧ time.Minute loc (open_on loc day) = 0.
Proof.
  unfold civil_day, time.Weekday, time.Hour, time.Minute.
  rewrite wallSeconds_open_on.
  assert (Hd : (day * 86400 + 32400) `div` 86400 = day)
    by (symmetry; apply (Z.div_unique _ _ _ 32400); lia).
  assert (Hm : (day * 86400 + 32400) `mod` 86400 = 32400)
    by (symmetry; apply (Z.mod_unique _ _ day); lia).
  assert (Hs : (day * 86400 + 32400) `mod` 3600 = 0)
    by (symmetry; apply (Z.mod_unique _ _ (day * 24 + 9)); lia).
  rewrite Hd, Hm, Hs. done.
Qed.

Lemma open_on_next loc day :
  time.Add (open_on loc day) (24 * time.HourDuration) = open_on loc (day + 1).
Proof. unfold time.Add, open_on, time.HourDuration, time.Second. lia. Qed.

Lemma open_on_is_open tzdata day :
  weekend day = false →
  market_hours.IsMarketOpen tzdata market_hours.NewMarketHours
    (open_on (time.LoadLocationOrUTC tzdata) day) = true.
Proof.
  unfold weekend, market_hours.IsMarketOpen. intros Hw.
  destruct (open_on_clock (time.LoadLocationOrUTC tzdata) day) as (_ & -> & -> & ->).
  rewrite Hw. reflexivity.
Qed.

Lemma weekend_run day :
  ∃ k, 0 ≤ k ≤ 2 ∧ weekend (day + k) = false
       ∧ (0 < k → weekend day = true)
       ∧ (k = 2 → weekend (day + 1) = true).
Proof.
  unfold weekend, time.Saturday, time.Sunday.
  destruct (decide ((day + 4) `mod` 7 = 6)) as [H6|H6].
  - exists 2. split; [lia|].
    replace ((day + 2 + 4) `mod` 7) with 1 by (Z.div_mod_to_equations; lia).
    replace ((day + 1 + 4) `mod` 7) with 0 by (Z.div_mod_to_equations; lia).
    rewrite H6. done.
  - destruct (decide ((day + 4) `mod` 7 = 0)) as [H0|H0].
    + exists 1. split; [lia|].
      replace ((day + 1 + 4) `mod` 7) with 1 by (Z.div_mod_to_equations; lia).
      rewrite H0. split; [done|]. split; [done|lia].
    + exists 0. split; [lia|]. rewrite Z.add_0_r.
      apply Z.eqb_neq in H6, H0. rewrite H6, H0. split; [done|]. split; lia.
Qed.

Lemma skipWeekends_open_on fuel loc day :
  (3 ≤ fuel)%nat →
  ∃ k, 0 ≤ k ≤ 2
       ∧ market_hours.skipWeekends fuel loc (open_on loc day) = Some (open_on loc (day + k))
       ∧ weekend (day + k) = false
       ∧ (0 < k → weekend day = true).
Proof.
  intros Hfuel.
  destruct (weekend_run day) as (k & Hk & Hopen & Hfirst & Hsecond).
  exists k. split; [done|]. split; [|done].
  assert (Hstep : ∀ f d, market_hours.skipWeekends (S f) loc (open_on loc d)
            = if weekend d then market_hours.skipWeekends f loc (open_on loc (d + 1))
              else Some (open_on loc d)).
  { intros f d. cbn [market_hours.skipWeekends].
    destruct (open_on_clock loc d) as (_ & -> & _). fold (weekend d).
    by rewrite open_on_next. }
  destruct fuel as [|[|[|fuel]]]; try lia.
  assert (Hcases : k = 0 ∨ k = 1 ∨ k = 2) by lia.
  destruct Hcases as [->|[->| ->]].
  - rewrite Z.add_0_r in *. by rewrite Hstep, Hopen.
  - rewrite Hstep, Hfirst by lia. by rewrite Hstep, Hopen.
  - rewrite Hstep, Hfirst by lia. rewrite Hstep, Hsecond by done.
    replace (day + 1 + 1) with (day + 2) by lia. by rewrite Hstep, Hopen.
Qed.

Lemma DateAtHour_open_on loc now :
  time.DateAtHour loc now 9 = open_on loc (civil_day loc now).
Proof. reflexivity. Qed.

(** The clock reading of an instant against the opening of its own day. *)
Lemma clock_against_open loc now :
  let day := civil_day loc now in
  let minutes := time.Hour loc now * 60 + time.Minute loc now in
  time.Weekday loc now = (day + 4) `mod` 7
  ∧ (540 ≤ minutes → open_on loc day ≤ now)
  ∧ (minutes < 540 → now < open_on loc day)
  ∧ now < open_on loc (day + 1).
Proof.
  cbn zeta. unfold civil_day, open_on, time.Weekday, time.Hour, time.Minute,
    time.wallSeconds, time.Unix, time.Second.
  split; [done|].
  set (s := now `div` 1000000000).
  assert (Hs : s * 1000000000 ≤ now < (s + 1) * 1000000000)
    by (unfold s; Z.div_mod_to_equations; lia).
  clearbody s.
  set (w := s + loc). assert (Hw : s = w - loc) by (unfold w; lia). clearbody w. subst s.
  Z.div_mod_to_equations. lia.
Qed.

Lemma GetNextMarketOpenTime_day fuel tzdata m now :
  (3 ≤ fuel)%nat →
  let loc := time.LoadLocationOrUTC tzdata in
  let day := civil_day loc now in
  let moved := time.After now (open_on loc day)
               && negb (market_hours.IsMarketOpen tzdata m now) in
  ∃ k, 0 ≤ k ≤ 2
    ∧ market_hours.GetNextMarketOpenTime fuel tzdata m now
      = Some (open_on loc ((if moved then day + 1 else day) + k))
    ∧ weekend ((if moved then day + 1 else day) + k) = false
    ∧ (0 < k → weekend (if moved then day + 1 else day) = true).
Proof.
  intros Hfuel loc day moved.
  unfold market_hours.GetNextMarketOpenTime. fold loc.
  rewrite DateAtHour_open_on. fold day. fold moved.
  destruct moved.
  - rewrite open_on_next. by apply skipWeekends_open_on.
  - by apply skipWeekends_open_on.
Qed.

(** X17: [GetNextMarketOpenTime] always returns, after at most two turns
    of its weekend loop, and what it returns is 09:00:00 in the market
    timezone on a day from Monday to Friday, an instant at which the
    market clock says open, on the civil day of [now] or one of the three
    days after it. *)
Theorem GetNextMarketOpenTime_is_an_opening fuel tzdata m now :
  (3 ≤ fuel)%nat →
  let loc := time.LoadLocationOrUTC tzdata in
  ∃ r, market_hours.GetNextMarketOpenTime fuel tzdata m now = Some r
       ∧ time.Weekday loc r ≠ time.Saturday
       ∧ time.Weekday loc r ≠ time.Sunday
       ∧ time.Hour loc r = 9
       ∧ time.Minute loc r = 0
       ∧ market_hours.IsMarketOpen tzdata market_hours.NewMarketHours r = true
       ∧ civil_day loc now ≤ civil_day loc r ≤ civil_day loc now + 3.
Proof.
  intros Hfuel loc.
  destruct (GetNextMarketOpenTime_day fuel tzdata m now Hfuel)
    as (k & Hk & Hres & Hweek & _).
  fold loc in Hres, Hweek.
  eexists. split; [exact Hres|].
  match type of Hres with _ = Some (open_on _ ?x) => set (d := x) in * end.
  destruct (open_on_clock loc d) as (Hday & Hwd & Hh & Hm).
  rewrite Hwd, Hh, Hm, Hday.
  unfold weekend in Hweek. apply orb_false_iff in Hweek as [H6%Z.eqb_neq H0%Z.eqb_neq].
  split; [done|]. split; [done|]. split; [done|]. split; [done|].
  split.
  - apply open_on_is_open. unfold weekend.
    apply Z.eqb_neq in H6, H0. by rewrite H6, H0.
  - unfold d. destruct (_ && _); lia.
Qed.

Lemma GetNextMarketOpenTime_is_an_opening_witness :
  market_hours.GetNextMarketOpenTime 3 true market_hours.NewMarketHours saturday_10am
  = Some (1741577400 * time.Second)
  ∧ ∃ r, market_hours.GetNextMarketOpenTime 3 true market_hours.NewMarketHours
           saturday_10am = Some r
         ∧ time.Hour time.Kolkata r = 9.
Proof.
  split; [vm_compute; reflexivity|].
  destruct (GetNextMarketOpenTime_is_an_opening 3 true market_hours.NewMarketHours
              saturday_10am) as (r & Hr & _ & _ & Hh & _); [lia|].
  exists r. split; [exact Hr|exact Hh].
Defined.

Lemma skipWeekends_more fuel extra loc marketOpen r :
  market_hours.skipWeekends fuel loc marketOpen = Some r →
  market_hours.skipWeekends (fuel + extra) loc marketOpen = Some r.
Proof.
  revert marketOpen. induction fuel as [|fuel IH]; intros marketOpen; [done|].
  cbn [market_hours.skipWeekends Nat.add].
  destruct (_ || _); [apply IH|done].
Qed.

(** X18: with the standard hours, when the market is closed at [now]
    the instant returned by [GetNextMarketOpenTime] is strictly after
    [now]; when the market is open at [now] it is the opening of the same
    day, which is not after [now]. *)
Theorem GetNextMarketOpenTime_against_now fuel tzdata now r :
  market_hours.GetNextMarketOpenTime fuel tzdata market_hours.NewMarketHours now = Some r →
  (market_hours.IsMarketOpen tzdata market_hours.NewMarketHours now = false → now < r)
  ∧ (market_hours.IsMarketOpen tzdata market_hours.NewMarketHours now = true → r ≤ now).
Proof.
  intros Hres.
  assert (Hres3 : market_hours.GetNextMarketOpenTime (fuel + 3) tzdata
                    market_hours.NewMarketHours now = Some r)
    by (by apply skipWeekends_more).
  clear Hres.
  destruct (GetNextMarketOpenTime_day (fuel + 3) tzdata market_hours.NewMarketHours now)
    as (k & Hk & Hres & Hweek & Hfirst); [lia|].
  rewrite Hres in Hres3. injection Hres3 as <-. clear Hres.
  set (loc := time.LoadLocationOrUTC tzdata) in *.
  set (day := civil_day loc now) in *.
  destruct (clock_against_open loc now) as (Hwd & Hafter & Hbefore & Hnext).
  fold day in Hwd, Hafter, Hbefore, Hnext.
  assert (Hopen : market_hours.IsMarketOpen tzdata market_hours.NewMarketHours now
                  = negb (weekend day)
                    && ((540 <=? time.Hour loc now * 60 + time.Minute loc now)
                        && (time.Hour loc now * 60 + time.Minute loc now <? 930))).
  { unfold market_hours.IsMarketOpen, weekend. fold loc. rewrite Hwd.
    by destruct (_ || _). }
  assert (Hmono : ∀ a b, a ≤ b → open_on loc a ≤ open_on loc b)
    by (intros a b; unfold open_on, time.Second; lia).
  rewrite Hopen in *. clear Hopen.
  unfold time.After in *.
  split.
  - intros Hclosed. rewrite Hclosed in *. cbn [negb] in *. rewrite andb_true_r in *.
    destruct (Z.ltb_spec (open_on loc day) now) as [Hpast|Hnot].
    + pose proof (Hmono (day + 1) (day + 1 + k)) as Hm. lia.
    + destruct (decide (k = 0)) as [->|Hk0].
      * rewrite Z.add_0_r.
        destruct (weekend day) eqn:Hwk.
        -- rewrite Z.add_0_r, Hwk in Hweek. done.
        -- cbn [negb andb] in Hclosed.
           destruct (Z.leb_spec 540 (time.Hour loc now * 60 + time.Minute loc now));
             [|by apply Hbefore].
           assert (Hnow : now = open_on loc day) by lia.
           destruct (open_on_clock loc day) as (_ & _ & Hh & Hm).
           rewrite <- Hnow in Hh, Hm. rewrite Hh, Hm in Hclosed. done.
      * pose proof (Hmono (day + 1) (day + k)) as Hm. lia.
  - intros Hisopen. rewrite Hisopen in *. cbn [negb] in *. rewrite andb_false_r in *.
    apply andb_true_iff in Hisopen as [Hwk%negb_true_iff [H9%Z.leb_le _]%andb_true_iff].
    destruct (decide (k = 0)) as [->|Hk0].
    + rewrite Z.add_0_r. by apply Hafter.
    + rewrite Hfirst in Hwk by lia. done.
Qed.

Lemma GetNextMarketOpenTime_against_now_witness :
  saturday_10am < 1741577400 * time.Second.
Proof.
  apply (GetNextMarketOpenTime_against_now 3 true saturday_10am (1741577400 * time.Second));
    vm_compute; reflexivity.
Defined.

(** ** The Kite adapter *)

Ltac form_lookup :=
  repeat (rewrite lookup_insert_ne by done); rewrite ?lookup_insert_eq, ?lookup_empty.

Lemma Error_nonempty_Wrapf msg c : Error (Wrapf msg c) ≠ "".
Proof. cbn [Error]. destruct msg; done. Qed.

Lemma send_cases Do amo req :
  (∃ resp, kite.send Do amo req = ([req], Ok resp)
           ∧ ∃ body, Do req = kite.Response 200 body (Some resp))
  ∨ (∃ err, kite.send Do amo req = ([req], Err err) ∧ Error err ≠ ""
            ∧ ∀ body resp, Do req ≠ kite.Response 200 body (Some resp)).
Proof.
  unfold kite.send.
  destruct (Do req) as [| |code body [resp|]] eqn:HDo.
  - right. eexists. split; [done|]. split; [apply Error_nonempty_Wrapf|done].
  - right. eexists. split; [done|]. split; [apply Error_nonempty_Wrapf|done].
  - destruct (Z.eqb_spec code 200) as [->|Hcode]; cbn [negb].
    + left. eauto.
    + right. eexists. split; [done|]. split; [by destruct amo|].
      intros b r [= ? _]. done.
  - right. destruct (negb _); eexists; (split; [done|]); split;
      try done; try apply Error_nonempty_Wrapf; by destruct amo.
Qed.

Ltac kite_paths k order :=
  unfold kite.ExecuteOrder;
  destruct (if decide (models.Exchange order ≠ "") then _ else _)
    as [exchange tradingsymbol] eqn:Hsymbol;
  destruct (models.IsAMO order) eqn:Hamo;
  unfold kite.placeOrder, kite.placeAMOOrder;
  cbn [kite.Variety kite.Exchange kite.Tradingsymbol kite.TransactionType
       kite.OrderType kite.Quantity kite.Price kite.Product kite.Validity];
  rewrite ?(decide_False (P := "regular" = "amo")) by done;
  unfold kite.getAccessToken;
  destruct (decide (kite.accessToken k = "")) as [Htoken|Htoken].

(** X19: what the Kite adapter reports for an order: the result names
    the order and the clock reading; [Success] is true exactly when the
    error is nil, and exactly when one request went out and the remote end
    accepted it, the execution id being the one of the reply; a success
    reports the order's own quantity and price as executed, a failure
    reports quantity 0, no execution id and a non-empty error message. *)
Theorem kite_ExecuteOrder_outcome Sprintf_2f Do k now order sent res err :
  kite.ExecuteOrder Sprintf_2f Do k now order = (sent, (res, err)) →
  models.OrderID res = models.ID order
  ∧ models.ExecutedAt res = now
  ∧ (models.Success res = true ↔ err = None)
  ∧ (models.Success res = true ↔
     ∃ req, sent = [req] ∧ accepted Do req (models.ExecutionID res))
  ∧ (models.Success res = true →
     models.ExecutedQuantity res = models.Quantity order
     ∧ models.ExecutedPrice res = models.Price order
     ∧ models.ErrorMessage res = "")
  ∧ (models.Success res = false →
     models.ExecutedQuantity res = 0
     ∧ models.ExecutionID res = ""
     ∧ models.ErrorMessage res ≠ "").
Proof.
  assert (Hfail : ∀ msg (e : error) s,
    msg ≠ "" →
    (∀ req, s = [req] → ∀ id, ¬ accepted Do req id) →
    ( s,
      ({| models.OrderID := models.ID order; models.Success := false;
          models.ExecutionID := ""; models.ExecutedAt := now;
          models.ErrorMessage := msg; models.ExecutedPrice := S754_zero false;
          models.ExecutedQuantity := 0 |}, Some e)) = (sent, (res, err)) →
    models.OrderID res = models.ID order
    ∧ models.ExecutedAt res = now
    ∧ (models.Success res = true ↔ err = None)
    ∧ (models.Success res = true ↔
       ∃ req, sent = [req] ∧ accepted Do req (models.ExecutionID res))
    ∧ (models.Success res = true →
       models.ExecutedQuantity res = models.Quantity order
       ∧ models.ExecutedPrice res = models.Price order
       ∧ models.ErrorMessage res = "")
    ∧ (models.Success res = false →
       models.ExecutedQuantity res = 0
       ∧ models.ExecutionID res = ""
       ∧ models.ErrorMessage res ≠ "")).
  { intros msg e s Hmsg Hno [= <- <- <-]. cbn.
    split; [done|]. split; [done|]. split; [done|].
    split; [|done].
    split; [done|]. intros (req & Hs & Hacc). by destruct (Hno req Hs ""). }
  assert (Hsend : ∀ amo req,
    match kite.send Do amo req with
    | (sent0, Ok result) =>
      if decide (kite.Status result ≠ "success") then
        (sent0,
         ({| models.OrderID := models.ID order; models.Success := false;
             models.ExecutionID := ""; models.ExecutedAt := now;
             models.ErrorMessage :=
               if decide (kite.Message result = "") then "Order placement failed"
               else kite.Message result;
             models.ExecutedPrice := S754_zero false;
             models.ExecutedQuantity := 0 |},
          Some (Errorf ("kite order failed: " +:+
                        (if decide (kite.Message result = "")
                         then "Order placement failed" else kite.Message result)))))
      else
        (sent0,
         ({| models.OrderID := models.ID order; models.Success := true;
             models.ExecutionID := kite.Data_OrderID result; models.ExecutedAt := now;
             models.ErrorMessage := ""; models.ExecutedPrice := models.Price order;
             models.ExecutedQuantity := models.Quantity order |}, None))
    | (sent0, Err err0) =>
      (sent0,
       ({| models.OrderID := models.ID order; models.Success := false;
           models.ExecutionID := ""; models.ExecutedAt := now;
           models.ErrorMessage := Error err0; models.ExecutedPrice := S754_zero false;
           models.ExecutedQuantity := 0 |}, Some err0))
    end = (sent, (res, err)) →
    models.OrderID res = models.ID order
    ∧ models.ExecutedAt res = now
    ∧ (models.Success res = true ↔ err = None)
    ∧ (models.Success res = true ↔
       ∃ req, sent = [req] ∧ accepted Do req (models.ExecutionID res))
    ∧ (models.Success res = true →
       models.ExecutedQuantity res = models.Quantity order
       ∧ models.ExecutedPrice res = models.Price order
       ∧ models.ErrorMessage res = "")
    ∧ (models.Success res = false →
       models.ExecutedQuantity res = 0
       ∧ models.ExecutionID res = ""
       ∧ models.ErrorMessage res ≠ "")).
  { intros amo req.
    destruct (send_cases Do amo req)
      as [(resp & -> & body & HDo)|(e & -> & Hne & Hno)].
    - destruct (decide (kite.Status resp ≠ "success")) as [Hbad|Hgood].
      + apply Hfail.
        * by destruct (decide (kite.Message resp = "")).
        * intros req' [= <-] id (body' & resp' & HDo' & Hst & _).
          rewrite HDo in HDo'. injection HDo' as _ <-. done.
      + intros [= <- <- <-]. cbn.
        split; [done|]. split; [done|]. split; [done|].
        split; [|done].
        split; [|done]. intros _. exists req. split; [done|].
        exists body, resp. split; [done|]. split; [|done].
        by destruct (decide (kite.Status resp = "success")); [|destruct Hgood].
    - apply Hfail; [done|].
      intros req' [= <-] id (body' & resp' & HDo' & _). by destruct (Hno body' resp'). }
  kite_paths k order; try apply Hsend; by apply Hfail.
Qed.

Lemma kite_ExecuteOrder_outcome_witness :
  ∃ res, (kite.ExecuteOrder (λ _, "100.00") reply_ok (kite_at "") 0 sample_order).2
         = (res, None)
         ∧ models.Success res = true
         ∧ models.ExecutedQuantity res = 5.
Proof.
  destruct (kite.ExecuteOrder (λ _, "100.00") reply_ok (kite_at "") 0 sample_order)
    as [sent [res err]] eqn:E.
  destruct (kite_ExecuteOrder_outcome _ _ _ _ _ _ _ _ E) as (_ & _ & Hiff & _ & Hok & _).
  assert (Herr : err = None) by (vm_compute in E; by injection E as _ _ <-).
  exists res. cbn. split; [by rewrite Herr|].
  split; [by apply Hiff|]. by destruct (Hok (proj2 Hiff Herr)) as (-> & _).
Defined.

Lemma withPrice_lookup Sprintf_2f orderReq formData key :
  key ≠ "price" →
  kite.withPrice Sprintf_2f orderReq formData !! key = formData !! key.
Proof.
  intros Hkey. unfold kite.withPrice.
  destruct (_ && _); [|done]. by rewrite lookup_insert_ne.
Qed.

Lemma withPrice_price Sprintf_2f orderReq formData :
  formData !! "price" = None →
  kite.withPrice Sprintf_2f orderReq formData !! "price"
  = if bool_decide (kite.OrderType orderReq = "LIMIT")
       && SFltb (S754_zero false) (kite.Price orderReq)
    then Some (Sprintf_2f (kite.Price orderReq)) else None.
Proof.
  intros Hnone. unfold kite.withPrice.
  destruct (_ && _); [by rewrite lookup_insert_eq|done].
Qed.

Lemma send_fst Do amo req : (kite.send Do amo req).1 = [req].
Proof. destruct (kite.send Do amo req) as [sent res] eqn:E. by apply send_sent in E. Qed.

Lemma kite_request_aux Sprintf_2f Do k now order :
  let sent := (kite.ExecuteOrder Sprintf_2f Do k now order).1 in
  (kite.accessToken k = "" → sent = [])
  ∧ (kite.accessToken k ≠ "" →
     ∃ req, sent = [req]
       ∧ kite.Method req = "POST"
       ∧ kite.Header req !! "Authorization"
         = Some ("token " +:+ kite.apiKey k +:+ ":" +:+ kite.accessToken k)
       ∧ kite.Header req !! "X-Kite-Version" = Some "3"
       ∧ kite.Form req !! "variety"
         = Some (if models.IsAMO order then "amo" else "regular")
       ∧ kite.Form req !! "product" = Some "CNC"
       ∧ kite.Form req !! "validity" = Some "DAY"
       ∧ kite.Form req !! "quantity" = Some (Sprintf_d (models.Quantity order))
       ∧ kite.Form req !! "transaction_type"
         = Some (if decide (reader.ToUpper (models.Side order) = "SELL")
                 then "SELL" else "BUY")
       ∧ kite.Form req !! "order_type"
         = Some (if decide (reader.ToUpper (models.OrderType order) = "LIMIT")
                 then "LIMIT" else "MARKET")
       ∧ kite.Form req !! "price"
         = if decide (reader.ToUpper (models.OrderType order) = "LIMIT")
           then if SFltb (S754_zero false) (models.Price order)
                then Some (Sprintf_2f (models.Price order)) else None
           else None).
Proof.
  cbn zeta.
  assert (Hout : ∀ (s : list kite.Request) placed,
    (match placed with
     | Ok result =>
       if decide (kite.Status result ≠ "success") then
         (s, ({| models.OrderID := models.ID order; models.Success := false;
                 models.ExecutionID := ""; models.ExecutedAt := now;
                 models.ErrorMessage :=
                   if decide (kite.Message result = "") then "Order placement failed"
                   else kite.Message result;
                 models.ExecutedPrice := S754_zero false;
                 models.ExecutedQuantity := 0 |},
              Some (Errorf ("kite order failed: " +:+
                            (if decide (kite.Message result = "")
                             then "Order placement failed" else kite.Message result)))))
       else
         (s, ({| models.OrderID := models.ID order; models.Success := true;
                 models.ExecutionID := kite.Data_OrderID result; models.ExecutedAt := now;
                 models.ErrorMessage := ""; models.ExecutedPrice := models.Price order;
                 models.ExecutedQuantity := models.Quantity order |}, None))
     | Err err0 =>
       (s, ({| models.OrderID := models.ID order; models.Success := false;
               models.ExecutionID := ""; models.ExecutedAt := now;
               models.ErrorMessage := Error err0; models.ExecutedPrice := S754_zero false;
               models.ExecutedQuantity := 0 |}, Some err0))
     end).1 = s).
  { intros s [result|e]; [|done]. by destruct (decide _). }
  kite_paths k order; (split; [done|intros Hset]); try done;
    match goal with
    | |- context [kite.send Do ?amo ?r] =>
      destruct (kite.send Do amo r) as [s placed] eqn:Hsend;
      apply send_sent in Hsend as ->; rewrite Hout; exists r
    end;
    (split; [done|]); (split; [done|]);
    cbn [kite.Header kite.Form]; unfold kite.headers;
    rewrite !withPrice_lookup by done;
    rewrite withPrice_price by (by form_lookup);
    cbn [kite.OrderType kite.Price];
    (split; [by form_lookup|]); (split; [by form_lookup|]);
    (split; [by form_lookup|]); (split; [by form_lookup|]);
    (split; [by form_lookup|]); (split; [by form_lookup|]);
    (split; [by form_lookup|]); (split; [by form_lookup|]);
    by destruct (decide (reader.ToUpper (models.OrderType order) = "LIMIT")).
Qed.

(** X20: the request the Kite adapter sends for an order whose side and
    type are ASCII text: none when the access token is empty; otherwise
    exactly one POST carrying the Authorization and X-Kite-Version
    headers, variety amo or regular by the order's AMO stamp, product CNC,
    validity DAY, the order's quantity, SELL only for a side that
    upper-cases to SELL and BUY otherwise, LIMIT only for a type that
    upper-cases to LIMIT and MARKET otherwise, and a price only for a
    LIMIT order whose price is above zero. *)
Theorem kite_ExecuteOrder_request Sprintf_2f Do k now order :
  reader.isASCII (models.Side order) = true →
  reader.isASCII (models.OrderType order) = true →
  let sent := (kite.ExecuteOrder Sprintf_2f Do k now order).1 in
  (kite.accessToken k = "" → sent = [])
  ∧ (kite.accessToken k ≠ "" →
     ∃ req, sent = [req]
       ∧ kite.Method req = "POST"
       ∧ kite.Header req !! "Authorization"
         = Some ("token " +:+ kite.apiKey k +:+ ":" +:+ kite.accessToken k)
       ∧ kite.Header req !! "X-Kite-Version" = Some "3"
       ∧ kite.Form req !! "variety"
         = Some (if models.IsAMO order then "amo" else "regular")
       ∧ kite.Form req !! "product" = Some "CNC"
       ∧ kite.Form req !! "validity" = Some "DAY"
       ∧ kite.Form req !! "quantity" = Some (Sprintf_d (models.Quantity order))
       ∧ kite.Form req !! "transaction_type"
         = Some (if decide (reader.ToUpper (models.Side order) = "SELL")
                 then "SELL" else "BUY")
       ∧ kite.Form req !! "order_type"
         = Some (if decide (reader.ToUpper (models.OrderType order) = "LIMIT")
                 then "LIMIT" else "MARKET")
       ∧ kite.Form req !! "price"
         = if decide (reader.ToUpper (models.OrderType order) = "LIMIT")
           then if SFltb (S754_zero false) (models.Price order)
                then Some (Sprintf_2f (models.Price order)) else None
           else None).
Proof. intros _ _. apply kite_request_aux. Qed.

Lemma kite_ExecuteOrder_request_witness :
  ∃ req, (kite.ExecuteOrder (λ _, "100.00") reply_ok (kite_at "") 0 sample_order).1 = [req]
         ∧ kite.Header req !! "Authorization" = Some "token key:token"
         ∧ kite.Form req !! "variety" = Some "amo"
         ∧ kite.Form req !! "price" = Some "100.00".
Proof.
  destruct (kite_ExecuteOrder_request (λ _, "100.00") reply_ok (kite_at "") 0 sample_order)
    as [_ Hreq]; [reflexivity|reflexivity|].
  destruct Hreq as (req & Hsent & _ & Hauth & _ & Hvar & _ & _ & _ & _ & _ & Hprice);
    [done|].
  exists req. split; [exact Hsent|]. split; [exact Hauth|]. split; [exact Hvar|exact Hprice].
Defined.

(** X21: [NewKiteBroker] fails exactly when the API key or the API
    secret is empty; an adapter it returns uses the API secret as access
    token, has a non-empty base URL, and sends exactly one request for
    every order, authorised with the configured key and secret. *)
Theorem NewKiteBroker_ready cfg :
  match kite.NewKiteBroker cfg with
  | Ok k =>
    config.APIKey cfg ≠ "" ∧ config.APISecret cfg ≠ ""
    ∧ kite.apiKey k = config.APIKey cfg
    ∧ kite.accessToken k = config.APISecret cfg
    ∧ kite.baseURL k ≠ ""
    ∧ ∀ Sprintf_2f Do now order,
        ∃ req, (kite.ExecuteOrder Sprintf_2f Do k now order).1 = [req]
               ∧ kite.Header req !! "Authorization"
                 = Some ("token " +:+ config.APIKey cfg +:+ ":" +:+ config.APISecret cfg)
  | Err _ => config.APIKey cfg = "" ∨ config.APISecret cfg = ""
  end.
Proof.
  unfold kite.NewKiteBroker.
  destruct (decide (config.APIKey cfg = "")) as [|Hkey]; [by left|].
  destruct (decide (config.APISecret cfg = "")) as [|Hsecret]; [by right|].
  split; [done|]. split; [done|]. split; [done|]. split; [done|].
  split; [cbn; by destruct (decide (config.BaseURL cfg = ""))|].
  intros Sprintf_2f Do now order.
  match goal with
  | |- context [kite.ExecuteOrder _ _ ?k _ _] =>
    destruct (kite_request_aux Sprintf_2f Do k now order) as [_ Hreq]
  end.
  destruct Hreq as (req & Hsent & _ & Hauth & _); [done|].
  exists req. split; [exact Hsent|exact Hauth].
Qed.

(** ** Loading the configuration *)

Lemma getEnv_nonempty env key defaultValue :
  defaultValue ≠ "" → config.getEnv env key defaultValue ≠ "".
Proof. intros Hd. unfold config.getEnv. by destruct (decide _). Qed.

Lemma ExecuteOrderWithRetry_returns w splitting order maxRetries now step :
  0 < config.MaxOrderSize splitting →
  is_Some (retry.ExecuteOrderWithRetry w splitting order maxRetries now step).
Proof.
  intros Hsize. unfold retry.ExecuteOrderWithRetry.
  destruct (_ && _); [|done].
  unfold retry.executeSplitOrder.
  destruct (Z.eqb_spec (config.MaxOrderSize splitting) 0); [lia|].
  destruct (retry.splits _ _ _ _ _ _ _ _) as [t out].
  destruct (retry.lastError t); [|done].
  by destruct (_ =? 0).
Qed.

(** X22: [LoadConfig] always consults a broker file, the path falling
    back to ./config/broker-config.json when the environment gives none or
    an empty one; it fails exactly when that file is read but does not
    decode; on success the maximum order size is above zero - so that
    [ExecuteOrderWithRetry] under the loaded splitting settings never
    divides by zero - and with an unreadable file the broker settings are
    those of the environment. *)
Theorem LoadConfig_outcome env fs :
  let path := config.getEnv env "BROKER_CONFIG_PATH" "./config/broker-config.json" in
  path ≠ ""
  ∧ match config.LoadConfig env fs with
    | Ok cfg =>
      fs path ≠ config.Malformed
      ∧ config.ConfigPath cfg = path
      ∧ 0 < config.MaxOrderSize (config.OrderSplitting cfg)
      ∧ (∀ w order maxRetries now step,
           is_Some (retry.ExecuteOrderWithRetry w (config.OrderSplitting cfg) order
                      maxRetries now step))
      ∧ (fs path = config.Unreadable →
         config.Type_ cfg = config.getEnv env "BROKER_TYPE" "mock"
         ∧ config.APIKey cfg = config.getEnv env "BROKER_API_KEY" ""
         ∧ config.APISecret cfg = config.getEnv env "BROKER_API_SECRET" ""
         ∧ config.BaseURL cfg = config.getEnv env "BROKER_BASE_URL" ""
         ∧ config.RequestsPerSecond (config.RateLimit cfg)
           = config.Atoi (config.getEnv env "BROKER_RATE_LIMIT_RPS" "10"))
    | Err _ => fs path = config.Malformed
    end.
Proof.
  intros path.
  assert (Hpath : path ≠ "") by (by apply getEnv_nonempty).
  split; [done|].
  unfold config.LoadConfig. cbn [config.ConfigPath]. fold path.
  destruct (decide (path ≠ "")); [|done].
  unfold config.loadBrokerConfigFromFile. cbn [config.ConfigPath].
  set (size := config.Atoi (config.getEnv env "MAX_ORDER_SIZE" "1000")).
  assert (Hsize : 0 < (if size <=? 0 then 1000 else size))
    by (destruct (Z.leb_spec size 0); lia).
  destruct (fs path) as [| |f] eqn:Hfs; [| done |].
  - cbn. split; [done|]. split; [done|]. split; [done|]. split; [|done].
    intros w order maxRetries now step. by apply ExecuteOrderWithRetry_returns.
  - cbn [config.ConfigPath config.OrderSplitting].
    split; [done|]. split; [done|].
    assert (Hfile : 0 < config.MaxOrderSize
                          (if 0 <? config.MaxOrderSize (config.file_OrderSplitting f)
                           then config.file_OrderSplitting f
                           else {| config.MaxOrderSize := if size <=? 0 then 1000 else size;
                                   config.Enabled :=
                                     bool_decide
                                       (config.getEnv env "ORDER_SPLITTING_ENABLED" "true"
                                        = "true") |})).
    { by destruct (Z.ltb_spec 0 (config.MaxOrderSize (config.file_OrderSplitting f))). }
    split; [exact Hfile|]. split; [|done].
    intros w order maxRetries now step. by apply ExecuteOrderWithRetry_returns.
Qed.

Lemma LoadConfig_outcome_witness :
  ∃ cfg, config.LoadConfig env_kite (λ _, config.Unreadable) = Ok cfg
         ∧ config.Type_ cfg = "kite"
         ∧ config.RequestsPerSecond (config.RateLimit cfg) = 3.
Proof.
  destruct (LoadConfig_outcome env_kite (λ _, config.Unreadable)) as [_ Hcfg].
  destruct (config.LoadConfig env_kite (λ _, config.Unreadable)) as [cfg|e];
    [|discriminate Hcfg].
  destruct Hcfg as (_ & _ & _ & _ & Henv).
  destruct (Henv eq_refl) as (Hty & _ & _ & _ & Hrps).
  exists cfg. split; [done|]. split; [exact Hty|exact Hrps].
Defined.

(** ** Rows of the sheet *)

Lemma firstParse_None Parse formats value :
  reader.firstParse Parse formats value = None
  ↔ ∀ format, format ∈ formats → Parse format value = None.
Proof.
  induction formats as [|format rest IH]; cbn [reader.firstParse].
  - split; [intros _ f Hf; by apply elem_of_nil in Hf|done].
  - destruct (Parse format value) as [parsed|] eqn:Hp.
    + split; [done|]. intros Hall. rewrite Hall in Hp by apply list_elem_of_here. done.
    + rewrite IH. split.
      * intros Hall f [->|Hf]%elem_of_cons; [done|by apply Hall].
      * intros Hall f Hf. apply Hall. apply elem_of_cons. by right.
Qed.

Lemma firstParse_Some Parse formats value parsed :
  reader.firstParse Parse formats value = Some parsed →
  ∃ format, format ∈ formats ∧ Parse format value = Some parsed.
Proof.
  induction formats as [|format rest IH]; cbn [reader.firstParse]; [done|].
  destruct (Parse format value) as [p|] eqn:Hp.
  - intros [= <-]. exists format. split; [apply list_elem_of_here|done].
  - intros (f & Hf & Hparsed)%IH. exists f. split; [by apply elem_of_cons; right|done].
Qed.

Lemma short_row {Cell} (row : list Cell) :
  (length row < 10)%nat ∨
  ∃ c0 c1 c2 c3 c4 c5 c6 c7 c8 c9 more,
    row = c0 :: c1 :: c2 :: c3 :: c4 :: c5 :: c6 :: c7 :: c8 :: c9 :: more.
Proof.
  do 10 (destruct row as [|? row]; [left; cbn; lia|]).
  right. by eexists _, _, _, _, _, _, _, _, _, _, _.
Qed.

Lemma readRow_None {Cell} Sprintf_v TrimSpace ToLower ParseFloat Atoi Parse
    int_of_float64 tzdata (row : list Cell) :
  let text := cell_text Sprintf_v TrimSpace row in
  reader.readRow Cell Sprintf_v TrimSpace ToLower ParseFloat Atoi Parse int_of_float64
    tzdata row
  = None
  ↔ (length row < 10)%nat
    ∨ text 0%nat = Some ""
    ∨ (∃ priceStr, text 0%nat = Some priceStr
                   ∧ reader.Contains (ToLower priceStr) "price" = true)
    ∨ (∃ priceStr, text 0%nat = Some priceStr ∧ (ParseFloat priceStr).2 ≠ None)
    ∨ text 4%nat = Some ""
    ∨ (∃ dateStr, text 5%nat = Some dateStr
                  ∧ ∀ format, format ∈ reader.dateFormats → Parse format dateStr = None)
    ∨ (∃ timeStr, text 6%nat = Some timeStr
                  ∧ ∀ format, format ∈ reader.timeFormats → Parse format timeStr = None).
Proof.
  intros text. subst text. unfold cell_text.
  destruct (short_row row) as [Hshort|Hlong].
  - split; [by left|intros _].
    do 10 (destruct row as [|? row]; [done|]). cbn in Hshort. lia.
  - destruct Hlong as (c0 & c1 & c2 & c3 & c4 & c5 & c6 & c7 & c8 & c9 & more & ->).
    cbn [reader.readRow lookup list_lookup fmap option_fmap option_map].
    set (T := reader.cellText Cell Sprintf_v TrimSpace).
    destruct (decide (T c0 = "")) as [Hp0|Hp0].
    { split; [intros _; right; left; by rewrite Hp0|done]. }
    destruct (reader.Contains (ToLower (T c0)) "price") eqn:Hheader.
    { split; [intros _; right; right; left; by exists (T c0)|done]. }
    destruct (ParseFloat (T c0)) as [price [perr|]] eqn:Hprice.
    { split; [intros _|done]. right; right; right; left. exists (T c0).
      split; [done|]. by rewrite Hprice. }
    destruct (decide (T c4 = "")) as [Hsym|Hsym].
    { split; [intros _|done]. right; right; right; right; left. by rewrite Hsym. }
    destruct (reader.firstParse Parse reader.dateFormats (T c5)) as [date|] eqn:Hdate.
    2:{ split; [intros _|done]. do 5 right. left. exists (T c5).
        split; [done|]. by apply firstParse_None. }
    destruct (reader.firstParse Parse reader.timeFormats (T c6)) as [t|] eqn:Htime.
    2:{ split; [intros _|done]. do 6 right. exists (T c6).
        split; [done|]. by apply firstParse_None. }
    split; [done|].
    intros [Hlen|[Hempty|[Hhead|[Hperr|[Hsymbol|[Hd|Ht]]]]]].
    + cbn in Hlen. lia.
    + by injection Hempty.
    + destruct Hhead as (p & [= <-] & Hc). congruence.
    + destruct Hperr as (p & [= <-] & Hc). by rewrite Hprice in Hc.
    + by injection Hsymbol.
    + destruct Hd as (d & [= <-] & Hall). apply firstParse_None in Hall. congruence.
    + destruct Ht as (d & [= <-] & Hall). apply firstParse_None in Hall. congruence.
Qed.

Lemma readRow_Some {Cell} Sprintf_v TrimSpace ToLower ParseFloat Atoi Parse
    int_of_float64 tzdata (row : list Cell) read :
  let text := cell_text Sprintf_v TrimSpace row in
  reader.readRow Cell Sprintf_v TrimSpace ToLower ParseFloat Atoi Parse int_of_float64
    tzdata row
  = Some read →
  reader.row_symbol read ≠ ""
  ∧ text 4%nat = Some (reader.row_symbol read)
  ∧ ∃ dateStr timeStr date t,
      text 5%nat = Some dateStr ∧ text 6%nat = Some timeStr
      ∧ reader.firstParse Parse reader.dateFormats dateStr = Some date
      ∧ reader.firstParse Parse reader.timeFormats timeStr = Some t
      ∧ reader.row_scheduledTime read
        = time.DateAndTime (time.LoadLocationOrUTC tzdata) date t.
Proof.
  intros text. subst text. unfold cell_text.
  destruct (short_row row) as [Hshort|Hlong].
  { do 10 (destruct row as [|? row]; [done|]). cbn in Hshort. lia. }
  destruct Hlong as (c0 & c1 & c2 & c3 & c4 & c5 & c6 & c7 & c8 & c9 & more & ->).
  cbn [reader.readRow lookup list_lookup fmap option_fmap option_map].
  set (T := reader.cellText Cell Sprintf_v TrimSpace).
  destruct (decide (T c0 = "")); [done|].
  destruct (reader.Contains (ToLower (T c0)) "price"); [done|].
  destruct (ParseFloat (T c0)) as [price [perr|]]; [done|].
  destruct (decide (T c4 = "")) as [|Hsym]; [done|].
  destruct (reader.firstParse Parse reader.dateFormats (T c5)) as [date|] eqn:Hdate; [|done].
  destruct (reader.firstParse Parse reader.timeFormats (T c6)) as [t|] eqn:Htime; [|done].
  intros [= <-]. cbn [reader.row_symbol reader.row_scheduledTime].
  split; [done|]. split; [done|]. by exists (T c5), (T c6), date, t.
Qed.

Lemma parseRow_nil tzdata rfc3339 side now nowIST read :
  reader.parseRow tzdata rfc3339 side now nowIST read = []
  ↔ reader.row_symbol read = "" ∨ reader.row_scheduledTime read < nowIST.
Proof.
  unfold reader.parseRow.
  destruct (decide (reader.row_symbol read = "")) as [Hsym|Hsym];
    [split; [by left|done]|].
  unfold time.Before.
  destruct (Z.ltb_spec (reader.row_scheduledTime read) nowIST) as [Hpast|Hfuture];
    [split; [by right|done]|].
  split; [|intros [?|?]; [done|lia]].
  intros Hnil%fmap_nil_inv.
  assert (Hlots : 1 ≤ match reader.row_lots read with
                      | Some lots => if lots <=? 0 then 1 else lots
                      | None => 1
                      end).
  { destruct (reader.row_lots read) as [lots|]; [|done].
    destruct (Z.leb_spec lots 0); lia. }
  apply (f_equal length) in Hnil. rewrite length_seqZ in Hnil. cbn in Hnil. lia.
Qed.

(** X23: the ingester drops a row exactly when it has fewer than 10
    cells, its price cell is empty, holds the word price or does not
    parse as a number, its symbol cell is empty, its date or its time
    parses under none of the layouts tried, or its date and time make an
    instant before the clock reading taken for the row; every other row
    yields at least one order, whatever its lots, quantity and exchange
    cells hold.  The orders of a sheet are those of its rows. *)
Theorem parseRows_drops_exactly {Cell} Sprintf_v TrimSpace ToLower ParseFloat Atoi Parse
    int_of_float64 tzdata rfc3339 side now (row : list Cell) nowIST :
  let text := cell_text Sprintf_v TrimSpace row in
  let parseRows := reader.parseRows Cell Sprintf_v TrimSpace ToLower ParseFloat Atoi
                     Parse int_of_float64 tzdata rfc3339 side now in
  (parseRows [(row, nowIST)] = []
   ↔ (length row < 10)%nat
     ∨ text 0%nat = Some ""
     ∨ (∃ priceStr, text 0%nat = Some priceStr
                    ∧ reader.Contains (ToLower priceStr) "price" = true)
     ∨ (∃ priceStr, text 0%nat = Some priceStr ∧ (ParseFloat priceStr).2 ≠ None)
     ∨ text 4%nat = Some ""
     ∨ (∃ dateStr, text 5%nat = Some dateStr
                   ∧ ∀ format, format ∈ reader.dateFormats → Parse format dateStr = None)
     ∨ (∃ timeStr, text 6%nat = Some timeStr
                   ∧ ∀ format, format ∈ reader.timeFormats → Parse format timeStr = None)
     ∨ (∃ dateStr timeStr date t,
          text 5%nat = Some dateStr ∧ text 6%nat = Some timeStr
          ∧ reader.firstParse Parse reader.dateFormats dateStr = Some date
          ∧ reader.firstParse Parse reader.timeFormats timeStr = Some t
          ∧ time.DateAndTime (time.LoadLocationOrUTC tzdata) date t < nowIST))
  ∧ (∀ rows o,
       o ∈ parseRows rows
       ↔ ∃ row nowIST, (row, nowIST) ∈ rows ∧ o ∈ parseRows [(row, nowIST)]).
Proof.
  intros text parseRows0. split.
  - pose proof (readRow_None Sprintf_v TrimSpace ToLower ParseFloat Atoi Parse
                  int_of_float64 tzdata row) as Hnone.
    pose proof (readRow_Some Sprintf_v TrimSpace ToLower ParseFloat Atoi Parse
                  int_of_float64 tzdata row) as Hsome.
    cbn zeta in Hnone, Hsome. fold text in Hnone, Hsome.
    subst parseRows0. unfold reader.parseRows. cbn [mbind list_bind]. rewrite app_nil_r.
    destruct (reader.readRow _ _ _ _ _ _ _ _ _ row) as [read|] eqn:Hread.
    + destruct (Hsome read eq_refl)
        as (Hsym & _ & dateStr & timeStr & date & t & Hd & Ht & Hdate & Htime & Hsched).
      rewrite parseRow_nil. split.
      * intros [?|Hpast]; [done|]. do 7 right.
        exists dateStr, timeStr, date, t. by rewrite <- Hsched.
      * intros Hcases.
        assert (Hnot : ¬ ((length row < 10)%nat
                  ∨ text 0%nat = Some ""
                  ∨ (∃ priceStr, text 0%nat = Some priceStr
                        ∧ reader.Contains (ToLower priceStr) "price" = true)
                  ∨ (∃ priceStr, text 0%nat = Some priceStr
                        ∧ (ParseFloat priceStr).2 ≠ None)
                  ∨ text 4%nat = Some ""
                  ∨ (∃ dateStr, text 5%nat = Some dateStr
                        ∧ ∀ format, format ∈ reader.dateFormats → Parse format dateStr = None)
                  ∨ (∃ timeStr, text 6%nat = Some timeStr
                        ∧ ∀ format, format ∈ reader.timeFormats → Parse format timeStr = None)))
          by (intros Hc; by apply Hnone in Hc).
        right.
        destruct Hcases as [H|[H|[H|[H|[H|[H|[H|H]]]]]]];
          try (exfalso; apply Hnot; tauto).
        destruct H as (dateStr' & timeStr' & date' & t' & Hd' & Ht' & Hdate' & Htime' & Hlt).
        rewrite Hsched. congruence.
    + split; [intros _|done].
      destruct (proj1 Hnone eq_refl) as [H|[H|[H|[H|[H|[H|H]]]]]]; tauto.
  - intros rows o. subst parseRows0. unfold reader.parseRows. rewrite list_elem_of_bind. split.
    + intros ([r n] & Ho & Hin). exists r, n. split; [done|].
      cbn [mbind list_bind]. by rewrite app_nil_r.
    + intros (r & n & Hin & Ho). exists (r, n). split; [|done].
      cbn [mbind list_bind] in Ho. by rewrite app_nil_r in Ho.
Qed.

(** A header row, a row that is too short and a row scheduled in the past
    yield nothing; a row of two lots read a minute ahead of its schedule
    yields its two orders. *)
Lemma parseRows_drops_exactly_witness :
  let now := monday_6pm - 60 * time.Second in
  sheet_parseRows [(sheet_header, now)] = []
  ∧ sheet_parseRows [(firstn 9 sheet_row, now)] = []
  ∧ sheet_parseRows [(sheet_row, monday_6pm + 1)] = []
  ∧ (λ o, (models.ID o, models.Exchange o, models.Quantity o, models.ScheduledTime o))
      <$> sheet_parseRows [(sheet_header, now); (sheet_row, now)]
    = [("XYZ:2025-03-10T18:00:00+05:30-1", "NSE", 5, monday_6pm);
       ("XYZ:2025-03-10T18:00:00+05:30-2", "NSE", 5, monday_6pm)].
Proof.
  intros now.
  assert (Hdrop := λ row nowIST,
            proj1 (parseRows_drops_exactly id id retry.ToLower sheet_ParseFloat sheet_Atoi
                     sheet_Parse sheet_int true (λ _, "2025-03-10T18:00:00+05:30") "Buy"
                     now row nowIST)).
  cbn zeta in Hdrop. fold sheet_parseRows in Hdrop.
  split; [|split; [|split]].
  - apply Hdrop. right; right; left. exists "planned_buy_price".
    split; reflexivity.
  - apply Hdrop. left. cbn. lia.
  - apply Hdrop. do 7 right.
    exists "2025-03-10", "18:00:00", (1741564800 * time.Second),
      ((64800 - 62167219200) * time.Second).
    split; [reflexivity|]. split; [reflexivity|]. split; [reflexivity|].
    split; [reflexivity|]. vm_compute. reflexivity.
  - vm_compute. reflexivity.
Defined.



(** X25: the lot loop never produces a negative quantity, and every lot
    gets at least one share exactly when the lots do not outnumber the
    total quantity; with Q < N the first Q lots get one share and the
    remaining N - Q orders are produced with quantity zero. *)
Theorem parseRow_quantities_positive_iff tzdata rfc3339 side now nowIST row Q N :
  1 ≤ Q → 1 ≤ N →
  reader.row_symbol row ≠ "" →
  reader.row_lots row = Some N →
  reader.row_totalQuantity row = Q →
  nowIST ≤ reader.row_scheduledTime row →
  let orders := reader.parseRow tzdata rfc3339 side now nowIST row in
  (∀ o, o ∈ orders → 0 ≤ models.Quantity o)
  ∧ ((∀ o, o ∈ orders → 1 ≤ models.Quantity o) ↔ N ≤ Q)
  ∧ (Q < N →
     ∀ (i : nat) o, orders !! i = Some o →
       models.Quantity o = if Z.of_nat i <? Q then 1 else 0).
Proof.
  intros HQ HN Hsym Hlots Hqty Hfuture orders.
  destruct (parseRow_lots tzdata rfc3339 side now nowIST row Q N)
    as (mk & Horders & Hquant & _); try done.
  subst orders. rewrite Horders.
  assert (Hdiv : 0 ≤ Q `div` N) by (apply Z.div_pos; lia).
  split; [|split].
  - intros o (k & -> & _)%list_elem_of_fmap. rewrite Hquant.
    destruct (k <=? Q `mod` N); lia.
  - split.
    + intros Hall. destruct (Z.le_gt_cases N Q) as [|Hlt]; [done|].
      assert (Hin : mk N ∈ mk <$> seqZ 1 N).
      { apply list_elem_of_fmap_2, elem_of_seqZ. lia. }
      apply Hall in Hin. rewrite Hquant in Hin.
      rewrite Z.div_small, Z.mod_small in Hin by lia.
      destruct (Z.leb_spec N Q); lia.
    + intros Hle o (k & -> & _)%list_elem_of_fmap. rewrite Hquant.
      assert (1 ≤ Q `div` N) by (apply Z.div_le_lower_bound; lia).
      destruct (k <=? Q `mod` N); lia.
  - intros Hlt i o Hi. rewrite list_lookup_fmap in Hi.
    destruct (seqZ 1 N !! i) as [k|] eqn:Hk; [|done].
    apply lookup_seqZ in Hk as [-> _]. injection Hi as <-. rewrite Hquant.
    rewrite Z.div_small, Z.mod_small by lia.
    destruct (Z.leb_spec (1 + Z.of_nat i) Q), (Z.ltb_spec (Z.of_nat i) Q); lia.
Qed.

Lemma parseRow_quantities_witness :
  let row := {| reader.row_price := S754_finite false 100 0;
                reader.row_symbol := "XYZ";
                reader.row_scheduledTime := monday_6pm;
                reader.row_lots := Some 3;
                reader.row_totalQuantity := 2;
                reader.row_exchange := "" |} in
  let orders := reader.parseRow true (λ _, "2025-03-10T18:00:00+05:30") "Buy" 0 0 row in
  models.Quantity <$> orders = [1; 1; 0]
  ∧ ¬ (∀ o, o ∈ orders → 1 ≤ models.Quantity o).
Proof.
  intros row orders. split; [by vm_compute|].
  destruct (parseRow_quantities_positive_iff true (λ _, "2025-03-10T18:00:00+05:30")
              "Buy" 0 0 row 2 3) as (_ & Hiff & _).
  - lia.
  - lia.
  - discriminate.
  - reflexivity.
  - reflexivity.
  - by vm_compute.
  - intros Hall. apply Hiff in Hall. lia.
Defined.

(** ** The profile table *)

(** X26: the error text in the profile table: [logProfilingMetrics]
    never panics on it; the table has no Error entry exactly for the empty
    text; an entry never exceeds 100 bytes, is the text itself up to 100
    bytes and otherwise its first 97 bytes followed by "...". *)
Theorem profileError_bound errorMsg :
  ∃ entry, trigger.profileError errorMsg = Some entry
    ∧ (entry = None ↔ errorMsg = "")
    ∧ ∀ r, entry = Some r →
        len r ≤ 100
        ∧ (len errorMsg ≤ 100 → r = errorMsg)
        ∧ (100 < len errorMsg → r = take 97 errorMsg +:+ "..." ∧ len r = 100).
Proof.
  unfold trigger.profileError, slice_to, len.
  destruct (decide (errorMsg ≠ "")) as [Hne|Heq].
  - destruct (Z.ltb_spec 100 (Z.of_nat (String.length errorMsg))) as [Hlong|Hfit].
    + destruct (Z.ltb_spec (Z.of_nat (String.length errorMsg)) 97); [lia|].
      cbn [orb Z.ltb Z.compare].
      exists (Some (take 97 errorMsg +:+ "...")). split; [reflexivity|].
      split; [split; [discriminate|done]|].
      intros r Hr.
      assert (r = take 97 errorMsg +:+ "...") as -> by congruence. clear Hr.
      rewrite length_append, length_take.
      change (String.length "...") with 3%nat.
      split; [lia|]. split; [lia|]. intros _. split; [done|lia].
    + eexists. split; [reflexivity|]. split; [done|].
      intros r [= <-]. split; [done|]. split; [done|lia].
  - eexists. split; [reflexivity|]. split; [|done].
    split; [intros _|done]. by destruct (decide (errorMsg = "")); [|destruct Heq].
Qed.

(** ** An invariant of the running system *)

Lemma ReleaseLock_wf orderID st :
  ids_wf st → ids_wf (cache.ReleaseLock orderID st).2.
Proof.
  apply ids_wf_weaken. intros id e ttl Hrec.
  eapply lookup_weaken; [exact Hrec|apply Del_data].
Qed.

Lemma removeOrder_wf orderID reason st :
  ids_wf st → ids_wf (trigger.removeOrder orderID reason st).1.
Proof.
  intros Hwf. unfold trigger.removeOrder.
  pose proof (RemoveOrder_wf orderID st Hwf) as Hwf'.
  by destruct (cache.RemoveOrder orderID st).
Qed.

Lemma executeOrder_wf bm order st :
  ids_wf st → ids_wf (trigger.executeOrder bm order st).1.
Proof.
  intros Hwf. unfold trigger.executeOrder.
  pose proof (TryLock_wf (models.ID order) (30 * time.Second) st Hwf) as Hlock.
  destruct (cache.TryLock _ _ st) as [[acquired err] st1]. cbn [snd] in Hlock.
  destruct err as [err|].
  - pose proof (removeOrder_wf (models.ID order) "lock acquisition failed" st1 Hlock).
    by destruct (trigger.removeOrder _ _ st1).
  - destruct acquired; cbn [negb]; [|done].
    destruct (broker.ExecuteOrder bm order) as [called [result err]].
    assert (Hrem : ∀ reason, ids_wf (trigger.removeOrder (models.ID order) reason st1).1)
      by (intros reason; by apply removeOrder_wf).
    destruct err as [err|].
    + specialize (Hrem (Error err)).
      destruct (trigger.removeOrder _ _ st1) as [st2 removed]. cbn [fst] in Hrem.
      pose proof (ReleaseLock_wf (models.ID order) st2 Hrem).
      by destruct (cache.ReleaseLock _ st2).
    + specialize (Hrem "").
      destruct (trigger.removeOrder _ _ st1) as [st2 removed]. cbn [fst] in Hrem.
      pose proof (ReleaseLock_wf (models.ID order) st2 Hrem).
      by destruct (cache.ReleaseLock _ st2).
Qed.

Lemma worker_wf cancelled bm orders :
  ∀ k st, ids_wf st → ids_wf (trigger.worker cancelled bm k orders st).1.
Proof.
  induction orders as [|order rest IH]; intros k st Hwf; [done|].
  cbn [trigger.worker]. destruct (cancelled k); [done|].
  pose proof (executeOrder_wf (bm order) order st Hwf) as Hwf1.
  destruct (trigger.executeOrder (bm order) order st) as [st1 tr1]. cbn [fst] in Hwf1.
  specialize (IH (S k) st1 Hwf1).
  by destruct (trigger.worker cancelled bm (S k) rest st1).
Qed.

Lemma cacheOrders_wf clock orders :
  Forall (λ o, models.json_string (models.ID o) = models.ID o) orders →
  ∀ k st, ids_wf st → ids_wf (reader.cacheOrders clock k orders st).
Proof.
  induction orders as [|order rest IH]; intros Hids k st Hwf; [done|].
  apply Forall_cons in Hids as [Hid Hids].
  cbn [reader.cacheOrders].
  pose proof (StoreOrder_wf (clock k) (clock (S k)) order
                (time.Add (models.ScheduledTime order) (10 * time.Second)) st Hid Hwf)
    as Hwf1.
  destruct (cache.StoreOrder _ _ order _ st) as [res st1]. by apply IH.
Qed.

(** Without that proviso the invariant breaks: an order whose id is the
    single byte FF is recorded under the key of that id, and its record
    decodes to an order whose id is U+FFFD. *)
Lemma StoreOrder_ill_formed_id :
  (∃ e ttl, record store_ill_formed (models.ID order_ill_formed)
            = Some (models.JSON e, ttl)
            ∧ models.ID (models.entry_Order e)
              = String (ascii_of_N 239) (String (ascii_of_N 191) (String (ascii_of_N 189) "")))
  ∧ ¬ ids_wf store_ill_formed.
Proof.
  assert (Hrec : ∃ e ttl, record store_ill_formed (models.ID order_ill_formed)
                          = Some (models.JSON e, ttl)
            ∧ models.ID (models.entry_Order e)
              = String (ascii_of_N 239)
                  (String (ascii_of_N 191) (String (ascii_of_N 189) ""))).
  { eexists _, _. split; [vm_compute; reflexivity|reflexivity]. }
  split; [exact Hrec|].
  destruct Hrec as (e & ttl & Hrec & Hid). intros Hwf.
  specialize (Hwf _ _ _ Hrec). rewrite Hid in Hwf. discriminate Hwf.
Qed.

(** X27: in every store the running system can reach from the empty
    one - by ingestion cycles over orders whose ids are well-formed
    UTF-8, due queries and worker runs, with the server expiring keys and
    failing commands at will - each record sits under the key of its own
    order id. *)
Theorem records_stay_under_their_ids st :
  rtc pipeline_step empty_store st → ids_wf st.
Proof.
  intros Hreach.
  assert (Hstep : ∀ a b, pipeline_step a b → ids_wf a → ids_wf b).
  { intros a b [clock k orders s Hids|now s|cancelled bm k orders s|key s|schedule s] Hwf.
    - by apply cacheOrders_wf.
    - by apply GetOrdersDueForExecution_wf.
    - by apply worker_wf.
    - revert Hwf. apply ids_wf_weaken. intros id e ttl. unfold record, redis.Expire. cbn.
      by intros [_ ?]%lookup_delete_Some.
    - exact Hwf. }
  revert st Hreach. apply rtc_ind_r; [apply empty_store_invariants|].
  intros a b _ Hab IH. by apply (Hstep a b).
Qed.

Lemma records_stay_under_their_ids_witness :
  ids_wf (trigger.worker (λ _, false) (λ _, accepting_broker) 0 [sample_order]
            store_with_sample).1.
Proof.
  apply records_stay_under_their_ids.
  eapply rtc_l.
  - apply (step_ingest (λ _, monday_6pm - 60 * time.Second) 0 [sample_order]).
    by constructor.
  - apply rtc_once. apply step_worker.
Defined.

(** ** The manager with retries and order splitting *)

Lemma int64_small z : - 2 ^ 63 ≤ z < 2 ^ 63 → retry.int64 z = z.
Proof. intros Hz. unfold retry.int64. rewrite Z.mod_small; lia. Qed.

Lemma shift1_small attempt : 0 ≤ attempt ≤ 30 → retry.shift1 attempt = 2 ^ attempt.
Proof.
  intros Ha. unfold retry.shift1. rewrite Z.mod_small by lia.
  destruct (Z.leb_spec 64 attempt); [lia|].
  rewrite Z.shiftl_1_l.
  assert (2 ^ attempt ≤ 2 ^ 30) by (apply Z.pow_le_mono_r; lia).
  assert (0 < 2 ^ attempt) by (apply Z.pow_pos_nonneg; lia).
  apply int64_small. lia.
Qed.

(** X28: in the retrying manager every retry is preceded by a wait of
    at least one second: for an error that [shouldRetry] accepts and an
    attempt number up to 30, [getRetryDelay] returns 2(attempt+1) seconds,
    2^attempt seconds or attempt+1 seconds, never the zero delay of its
    last branch. *)
Theorem retry_always_backs_off err attempt :
  retry.shouldRetry (Some err) = true →
  0 ≤ attempt ≤ 30 →
  let delay := retry.getRetryDelay err attempt in
  (delay = (attempt + 1) * 2 * time.Second
   ∨ delay = 2 ^ attempt * time.Second
   ∨ delay = (attempt + 1) * time.Second)
  ∧ time.Second ≤ delay.
Proof.
  intros Hretry Ha. cbn zeta.
  assert (Hpow : 1 ≤ 2 ^ attempt ≤ 2 ^ 30).
  { split; [|apply Z.pow_le_mono_r; lia].
    pose proof (Z.pow_pos_nonneg 2 attempt). lia. }
  unfold retry.shouldRetry in Hretry. cbn zeta in Hretry.
  unfold retry.getRetryDelay. cbn zeta.
  set (errStr := retry.ToLower (Error err)) in *.
  destruct (existsb _ ["auth"; _; _; _; _]); [discriminate|].
  destruct (existsb _ ["invalid"; _; _]); [discriminate|].
  destruct (existsb _ ["network"; _; _; _; _; _; _; _]) eqn:Hany; [|discriminate].
  clear Hretry. unfold time.Second in *.
  destruct (retry.Contains errStr "rate limit" || retry.Contains errStr "429") eqn:H1.
  { rewrite (int64_small (attempt + 1)) by lia.
    rewrite (int64_small ((attempt + 1) * 2)) by lia.
    rewrite int64_small by lia. lia. }
  destruct (retry.Contains errStr "network" || retry.Contains errStr "timeout"
            || retry.Contains errStr "connection") eqn:H2.
  { rewrite shift1_small by done. rewrite int64_small by lia. lia. }
  destruct (retry.Contains errStr "500" || retry.Contains errStr "502"
            || retry.Contains errStr "503" || retry.Contains errStr "504") eqn:H3.
  { rewrite (int64_small (attempt + 1)) by lia.
    rewrite int64_small by lia. lia. }
  apply orb_false_iff in H1 as [H1a H1b].
  apply orb_false_iff in H2 as [[H2a H2b]%orb_false_iff H2c].
  apply orb_false_iff in H3 as [[[H3a H3b]%orb_false_iff H3c]%orb_false_iff H3d].
  cbn [existsb] in Hany.
  rewrite H1a, H1b, H2a, H2b, H3a, H3b, H3c, H3d in Hany. discriminate.
Qed.

Lemma retry_always_backs_off_witness :
  retry.getRetryDelay (Errorf "kite API returned status 503: busy") 3 = 4 * time.Second.
Proof.
  destruct (retry_always_backs_off (Errorf "kite API returned status 503: busy") 3)
    as [[H|[H|H]] _]; [by vm_compute|lia| | |].
  - vm_compute in H. discriminate H.
  - vm_compute in H. discriminate H.
  - exact H.
Defined.

Lemma retry_calls_cons_call order tr :
  retry_calls (retry.Call order :: tr) = order :: retry_calls tr.
Proof. reflexivity. Qed.

Lemma retry_calls_app tr1 tr2 :
  retry_calls (tr1 ++ tr2) = (retry_calls tr1 ++ retry_calls tr2)%list.
Proof. unfold retry_calls. apply omap_app. Qed.

(** The loop of [executeSingleOrder], whatever the world does. *)
Lemma attempts_spec w order maxRetries n :
  ∀ attempt lastErr step res err step' tr,
    retry.attempts w order maxRetries n attempt lastErr step = ((res, err), (step', tr)) →
    (length (retry_calls tr) ≤ n)%nat
    ∧ (∀ o, o ∈ retry_calls tr → o = order)
    ∧ (step ≤ step')%nat
    ∧ match err with
      | None =>
        ∃ k, (step < k < step')%nat ∧ retry.execute w k order = (res, None)
             ∧ last tr = Some (retry.Call order)
      | Some _ => res = models.ExecutionResult_zero
      end.
Proof.
  induction n as [|n IH]; intros attempt lastErr step res err step' tr; cbn [retry.attempts].
  - intros [= <- <- <- <-]. cbn. split; [lia|]. split; [by intros o ?%elem_of_nil|]. done.
  - destruct (retry.wait w step) as [werr|].
    { intros [= <- <- <- <-]. cbn. split; [lia|].
      split; [by intros o ?%elem_of_nil|]. split; [lia|done]. }
    destruct (retry.execute w (S step) order) as [execResult [e|]] eqn:Hexec.
    2:{ intros [= <- <- <- <-]. cbn. split; [lia|].
        split; [by intros o ->%list_elem_of_singleton|]. split; [lia|].
        exists (S step). split; [lia|done]. }
    destruct (negb (retry.shouldRetry (Some e))).
    { intros [= <- <- <- <-]. cbn. split; [lia|].
      split; [by intros o ->%list_elem_of_singleton|]. split; [lia|done]. }
    assert (Hrec : ∀ stepk pre,
      (step ≤ stepk)%nat →
      retry_calls pre = [order] →
      pre ≠ [] →
      (let '(r, (step'0, tr0)) :=
         retry.attempts w order maxRetries n (retry.int64 (attempt + 1)) (Some e) stepk in
       (r, (step'0, (pre ++ tr0)%list))) = ((res, err), (step', tr)) →
      (length (retry_calls tr) ≤ S n)%nat
      ∧ (∀ o, o ∈ retry_calls tr → o = order)
      ∧ (step ≤ step')%nat
      ∧ match err with
        | None =>
          ∃ k, (step < k < step')%nat ∧ retry.execute w k order = (res, None)
               ∧ last tr = Some (retry.Call order)
        | Some _ => res = models.ExecutionResult_zero
        end).
    { intros stepk pre Hstep Hpre Hne.
      destruct (retry.attempts w order maxRetries n _ (Some e) stepk)
        as [[r er] [sk tk]] eqn:Hloop.
      intros [= <- <- <- <-].
      destruct (IH _ _ _ _ _ _ _ Hloop) as (Hlen & Hall & Hsteps & Hres).
      rewrite retry_calls_app, Hpre. cbn [app length].
      split; [lia|]. split; [|split; [lia|]].
      - intros o [->|Ho]%elem_of_cons; [done|by apply Hall].
      - destruct er as [er|]; [done|].
        destruct Hres as (k & Hk & Hexeck & Hlast).
        exists k. split; [lia|]. split; [done|].
        destruct tk as [|ev tk]; [done|]. rewrite last_app. by rewrite Hlast. }
    destruct (0 <? retry.getRetryDelay e attempt).
    + destruct (retry.cancelled w (S (S step))).
      { intros [= <- <- <- <-]. cbn. split; [lia|].
        split; [by intros o ->%list_elem_of_singleton|]. split; [lia|done]. }
      apply (Hrec (S (S (S step)))
               [retry.Wait; retry.Call order; retry.Backoff (retry.getRetryDelay e attempt)]);
        [lia|done|done].
    + apply (Hrec (S (S step)) [retry.Wait; retry.Call order]); [lia|done|done].
Qed.

(** X29: whatever the limiter and the broker do, [executeSingleOrder]
    calls the broker at most maxRetries+1 times, always with the order it
    was given; when it returns no error its result is the one the broker
    gave on the last call of the trace, and when it returns an error its
    result is the zero value, not what the broker reported. *)
Theorem executeSingleOrder_bounded w order maxRetries step res err step' tr :
  retry.executeSingleOrder w order maxRetries step = ((res, err), (step', tr)) →
  (length (retry_calls tr) ≤ Z.to_nat (maxRetries + 1))%nat
  ∧ (∀ o, o ∈ retry_calls tr → o = order)
  ∧ match err with
    | None =>
      ∃ k, (step < k < step')%nat ∧ retry.execute w k order = (res, None)
           ∧ last tr = Some (retry.Call order)
    | Some _ => res = models.ExecutionResult_zero
    end.
Proof.
  intros Hrun. destruct (attempts_spec _ _ _ _ _ _ _ _ _ _ _ Hrun) as (Hlen & Hall & _ & Hres).
  done.
Qed.

Lemma executeSingleOrder_bounded_witness :
  let w := {| retry.wait := λ _, None;
              retry.execute := λ k o,
                if (k <? 5)%nat
                then (models.ExecutionResult_zero,
                      Some (Errorf "kite API returned status 503: busy"))
                else broker.execute accepting_broker o;
              retry.cancelled := λ _, false |} in
  ∃ res step' tr,
    retry.executeSingleOrder w sample_order 3 0 = ((res, None), (step', tr))
    ∧ retry_calls tr = [sample_order; sample_order; sample_order]
    ∧ (length (retry_calls tr) ≤ 4)%nat.
Proof.
  intros w.
  destruct (retry.executeSingleOrder w sample_order 3 0) as [[res err] [step' tr]] eqn:E.
  destruct (executeSingleOrder_bounded _ _ _ _ _ _ _ _ E) as (Hlen & _ & _).
  assert (Herr : err = None) by (vm_compute in E; by injection E as _ <- _ _).
  assert (Hcalls : retry_calls tr = [sample_order; sample_order; sample_order])
    by (vm_compute in E; by injection E as _ _ _ <-).
  subst err. exists res, step', tr. split; [done|]. split; [exact Hcalls|exact Hlen].
Defined.

(** The number of splits and the quantities of the plan, away from the
    bounds of int. *)
Lemma numSplits_value Q m :
  0 < m → m < Q < 2 ^ 62 →
  let n := (Q + m - 1) `div` m in
  retry.int64 (retry.int64 (retry.int64 (Q + m) - 1) `quot` m) = n
  ∧ 2 ≤ n ∧ (n - 1) * m < Q ≤ n * m.
Proof.
  intros Hm HQ n.
  assert (Hn : (n - 1) * m < Q ≤ n * m).
  { unfold n. pose proof (Z.div_mod (Q + m - 1) m ltac:(lia)).
    pose proof (Z.mod_pos_bound (Q + m - 1) m ltac:(lia)). nia. }
  assert (Hn2 : 2 ≤ n) by nia.
  assert (Hnle : n ≤ Q) by nia.
  rewrite (int64_small (Q + m)) by lia.
  rewrite (int64_small (Q + m - 1)) by lia.
  rewrite Z.quot_div_nonneg by lia. fold n.
  rewrite int64_small by lia. done.
Qed.

Lemma splitQuantity_value Q m n i :
  0 < m → m < Q < 2 ^ 62 → 2 ≤ n → (n - 1) * m < Q ≤ n * m →
  0 ≤ i < n →
  retry.splitQuantity Q m n i = (if i =? n - 1 then Q - (n - 1) * m else m)
  ∧ 1 ≤ retry.splitQuantity Q m n i ≤ m.
Proof.
  intros Hm HQ Hn2 Hn Hi. unfold retry.splitQuantity.
  rewrite (int64_small (n - 1)) by nia.
  destruct (Z.eqb_spec i (n - 1)) as [->|Hne].
  - rewrite (int64_small ((n - 1) * m)) by nia.
    rewrite int64_small by nia. split; [done|nia].
  - split; [done|lia].
Qed.

Lemma sum_split_quantities Q m n (k : nat) :
  Z.of_nat k ≤ n - 1 →
  foldr (λ i acc, (if i =? n - 1 then Q - (n - 1) * m else m) + acc) 0
    (seqZ 0 (Z.of_nat k))
  = Z.of_nat k * m.
Proof.
  induction k as [|k IH]; intros Hk.
  - reflexivity.
  - rewrite Nat2Z.inj_succ, <- Z.add_1_r.
    rewrite seqZ_app by lia. rewrite foldr_app. cbn [seqZ].
    change (seqZ (0 + Z.of_nat k) 1) with [0 + Z.of_nat k]. cbn [foldr].
    destruct (Z.eqb_spec (0 + Z.of_nat k) (n - 1)); [lia|].
    assert (Hshift : ∀ c l,
      foldr (λ i acc, (if i =? n - 1 then Q - (n - 1) * m else m) + acc) c l
      = foldr (λ i acc, (if i =? n - 1 then Q - (n - 1) * m else m) + acc) 0 l + c).
    { intros c l. induction l as [|x l IHl]; cbn; [lia|]. rewrite IHl. lia. }
    rewrite Hshift, IH by lia. lia.
Qed.

(** The calls of the splitting loop are calls on the orders of its
    turns, whatever the world does. *)
Lemma splits_calls w order maxRetries maxSize numSplits turns :
  ∀ t step t' step' tr,
    retry.splits w order maxRetries maxSize numSplits turns t step = (t', (step', tr)) →
    ∀ o, o ∈ retry_calls tr →
         o ∈ retry.splitOrder order maxSize numSplits <$> turns.
Proof.
  induction turns as [|i rest IH]; intros t step t' step' tr; cbn [retry.splits].
  - intros [= <- <- <-] o Ho. by apply elem_of_nil in Ho.
  - destruct (retry.executeSingleOrder w _ maxRetries step)
      as [[result err] [step1 tr1]] eqn:Hone.
    destruct (attempts_spec _ _ _ _ _ _ _ _ _ _ _ Hone) as (_ & Hall & _).
    assert (Hrest : ∀ ta sa pause,
      retry_calls pause = [] →
      (let '(t2, (step2, tr2)) :=
         retry.splits w order maxRetries maxSize numSplits rest ta sa in
       (t2, (step2, (tr1 ++ pause ++ tr2)%list))) = (t', (step', tr)) →
      ∀ o, o ∈ retry_calls tr →
           o ∈ retry.splitOrder order maxSize numSplits <$> i :: rest).
    { intros ta sa pause Hpause.
      destruct (retry.splits w order maxRetries maxSize numSplits rest ta sa)
        as [t2 [step2 tr2]] eqn:Hloop.
      intros [= <- <- <-] o. rewrite !retry_calls_app, Hpause, app_nil_l.
      rewrite fmap_cons. intros [Ho|Ho]%elem_of_app.
      - rewrite (Hall o Ho). by left.
      - right. by eapply IH. }
    destruct err as [err|].
    + apply (Hrest _ _ []). done.
    + destruct (i <? retry.int64 (numSplits - 1)).
      * apply (Hrest _ _ [retry.Pause (100 * 1000000)]). done.
      * apply (Hrest _ _ []). done.
Qed.

(** A world in which the limiter never refuses and the broker executes
    every order in full. *)
Lemma executeSingleOrder_accepted w order maxRetries step :
  0 ≤ maxRetries →
  (∀ k, retry.wait w k = None) →
  (∀ k o, (retry.execute w k o).2 = None
          ∧ models.ExecutedQuantity (retry.execute w k o).1 = models.Quantity o) →
  retry.executeSingleOrder w order maxRetries step
  = (((retry.execute w (S step) order).1, None),
     (S (S step), [retry.Wait; retry.Call order])).
Proof.
  intros Hmax Hwait Hexec. unfold retry.executeSingleOrder.
  destruct (Z.to_nat (maxRetries + 1)) as [|n] eqn:Hn; [lia|].
  cbn [retry.attempts]. rewrite Hwait.
  destruct (Hexec (S step) order) as [Herr _].
  destruct (retry.execute w (S step) order) as [execResult err]. cbn in Herr. by subst err.
Qed.

Lemma splits_accepted w order maxRetries maxSize numSplits turns :
  0 ≤ maxRetries →
  (∀ k, retry.wait w k = None) →
  (∀ k o, (retry.execute w k o).2 = None
          ∧ models.ExecutedQuantity (retry.execute w k o).1 = models.Quantity o) →
  ∀ t step,
    0 ≤ retry.totalExecutedQuantity t →
    (∀ i, i ∈ turns → 0 ≤ retry.splitQuantity (models.Quantity order) maxSize numSplits i) →
    retry.totalExecutedQuantity t
    + total_quantity (retry.splitOrder order maxSize numSplits <$> turns) < 2 ^ 63 →
    let r := retry.splits w order maxRetries maxSize numSplits turns t step in
    retry.totalExecutedQuantity r.1
    = retry.totalExecutedQuantity t
      + total_quantity (retry.splitOrder order maxSize numSplits <$> turns)
    ∧ retry.hasError r.1 = retry.hasError t
    ∧ retry.lastError r.1 = retry.lastError t
    ∧ retry_calls r.2.2 = retry.splitOrder order maxSize numSplits <$> turns.
Proof.
  intros Hmax Hwait Hexec.
  induction turns as [|i rest IH]; intros t step Hacc Hpos Hsum; cbn zeta.
  - cbn. split; [lia|done].
  - cbn [retry.splits]. rewrite executeSingleOrder_accepted by done.
    destruct (Hexec (S step) (retry.splitOrder order maxSize numSplits i)) as [_ Hq].
    rewrite Hq. cbn [retry.splitOrder models.Quantity].
    rewrite fmap_cons in Hsum |- *. cbn [total_quantity foldr] in Hsum |- *.
    fold (total_quantity (retry.splitOrder order maxSize numSplits <$> rest)) in Hsum |- *.
    cbn [retry.splitOrder models.Quantity] in Hsum |- *.
    set (q := retry.splitQuantity (models.Quantity order) maxSize numSplits i) in *.
    assert (Hq0 : 0 ≤ q) by (apply Hpos; by left).
    assert (Hrest0 : 0 ≤ total_quantity (retry.splitOrder order maxSize numSplits <$> rest)).
    { clear -Hpos. induction rest as [|j rest IHr]; [done|].
      rewrite fmap_cons. cbn [total_quantity foldr].
      fold (total_quantity (retry.splitOrder order maxSize numSplits <$> rest)).
      cbn [retry.splitOrder models.Quantity].
      assert (0 ≤ retry.splitQuantity (models.Quantity order) maxSize numSplits j)
        by (apply Hpos; right; by left).
      assert (0 ≤ total_quantity (retry.splitOrder order maxSize numSplits <$> rest)).
      { apply IHr. intros k [->|Hk]%elem_of_cons; apply Hpos; [by left|].
        right. by right. }
      lia. }
    rewrite (int64_small (retry.totalExecutedQuantity t + q)) by lia.
    assert (Hstep : ∀ sa ta,
      retry.totalExecutedQuantity ta = retry.totalExecutedQuantity t + q →
      retry.hasError ta = retry.hasError t →
      retry.lastError ta = retry.lastError t →
      let r := retry.splits w order maxRetries maxSize numSplits rest ta sa in
      retry.totalExecutedQuantity r.1
      = retry.totalExecutedQuantity t
        + (q + total_quantity (retry.splitOrder order maxSize numSplits <$> rest))
      ∧ retry.hasError r.1 = retry.hasError t
      ∧ retry.lastError r.1 = retry.lastError t
      ∧ retry_calls r.2.2 = retry.splitOrder order maxSize numSplits <$> rest).
    { intros sa ta Hta Herrta Hlastta r.
      destruct (IH ta sa) as (Hqty & Herr & Hlast & Hcalls).
      - lia.
      - intros k Hk. apply Hpos. by right.
      - lia.
      - fold r in Hqty, Herr, Hlast, Hcalls.
        rewrite Hqty, Herr, Hlast, Hta, Herrta, Hlastta. split; [lia|done]. }
    destruct (i <? retry.int64 (numSplits - 1)).
    + match goal with
      | |- context [retry.splits w order maxRetries maxSize numSplits rest ?ta ?sa] =>
        pose proof (Hstep sa ta eq_refl eq_refl eq_refl) as Hs; cbn zeta in Hs;
        destruct (retry.splits w order maxRetries maxSize numSplits rest ta sa)
          as [t2 [step2 tr2]]
      end.
      cbn [fst snd] in Hs |- *. destruct Hs as (Hqty2 & Herr2 & Hlast2 & Hcalls2).
      split; [done|]. split; [done|]. split; [done|].
      rewrite retry_calls_app. cbn [retry_calls omap app]. by rewrite <- Hcalls2.
    + match goal with
      | |- context [retry.splits w order maxRetries maxSize numSplits rest ?ta ?sa] =>
        pose proof (Hstep sa ta eq_refl eq_refl eq_refl) as Hs; cbn zeta in Hs;
        destruct (retry.splits w order maxRetries maxSize numSplits rest ta sa)
          as [t2 [step2 tr2]]
      end.
      cbn [fst snd] in Hs |- *. destruct Hs as (Hqty2 & Herr2 & Hlast2 & Hcalls2).
      split; [done|]. split; [done|]. split; [done|].
      rewrite retry_calls_app. cbn [retry_calls omap app]. by rewrite <- Hcalls2.
Qed.

Lemma append_inj_r s1 s2 t : s1 +:+ t = s2 +:+ t → s1 = s2.
Proof.
  intros Heq.
  assert (Hlen : String.length s1 = String.length s2).
  { apply (f_equal String.length) in Heq. rewrite !length_append in Heq. lia. }
  rewrite <- (take_append_length s1 t), <- (take_append_length s2 t).
  by rewrite Heq, Hlen.
Qed.

Lemma seqZ_snoc m k : 0 ≤ k → seqZ m (k + 1) = (seqZ m k ++ [m + k])%list.
Proof. intros Hk. by rewrite seqZ_app by lia. Qed.

(** The plan of the splitting loop. *)
Lemma split_plan order maxSize :
  0 < maxSize →
  maxSize < models.Quantity order < 2 ^ 62 →
  let n := (models.Quantity order + maxSize - 1) `div` maxSize in
  let plan := retry.splitOrder order maxSize n <$> seqZ 0 n in
  2 ≤ n
  ∧ length plan = Z.to_nat n
  ∧ total_quantity plan = models.Quantity order
  ∧ (∀ o, o ∈ plan → 1 ≤ models.Quantity o ≤ maxSize)
  ∧ NoDup (models.ID <$> plan).
Proof.
  intros Hm HQ n plan.
  destruct (numSplits_value (models.Quantity order) maxSize Hm HQ) as (_ & Hn2 & Hn).
  fold n in Hn2, Hn.
  assert (Hq : ∀ i, 0 ≤ i < n →
    models.Quantity (retry.splitOrder order maxSize n i)
    = (if i =? n - 1 then models.Quantity order - (n - 1) * maxSize else maxSize)
    ∧ 1 ≤ models.Quantity (retry.splitOrder order maxSize n i) ≤ maxSize).
  { intros i Hi. cbn [retry.splitOrder models.Quantity].
    by apply splitQuantity_value. }
  split; [done|]. split; [|split; [|split]].
  - unfold plan. rewrite length_fmap, length_seqZ. done.
  - unfold plan. rewrite total_quantity_fmap.
    replace (seqZ 0 n) with (seqZ 0 ((n - 1) + 1)) by (f_equal; lia).
    rewrite seqZ_snoc, foldr_app by lia. cbn [foldr].
    assert (Hshift : ∀ (f : Z → Z) c l,
      foldr (λ i acc, f i + acc) c l = foldr (λ i acc, f i + acc) 0 l + c).
    { intros f c l. induction l as [|x l IHl]; cbn; [lia|]. rewrite IHl. lia. }
    rewrite (Hshift (λ i, models.Quantity (retry.splitOrder order maxSize n i))).
    assert (Hfront :
      foldr (λ i acc, models.Quantity (retry.splitOrder order maxSize n i) + acc) 0
        (seqZ 0 (n - 1))
      = foldr (λ i acc, (if i =? n - 1
                         then models.Quantity order - (n - 1) * maxSize
                         else maxSize) + acc) 0 (seqZ 0 (n - 1))).
    { assert (Hext : ∀ l, (∀ i, i ∈ l → 0 ≤ i < n) →
        foldr (λ i acc, models.Quantity (retry.splitOrder order maxSize n i) + acc) 0 l
        = foldr (λ i acc, (if i =? n - 1
                           then models.Quantity order - (n - 1) * maxSize
                           else maxSize) + acc) 0 l).
      { intros l. induction l as [|x l IHl]; intros Hl; [done|]. cbn [foldr].
        rewrite IHl by (intros i Hi; apply Hl; by right).
        destruct (Hq x) as [-> _]; [apply Hl; by left|]. done. }
      apply Hext. intros i Hi%elem_of_seqZ. lia. }
    rewrite Hfront. rewrite <- (Z2Nat.id (n - 1)) at 1 by lia.
    rewrite sum_split_quantities by lia. rewrite Z2Nat.id by lia.
    destruct (Hq (0 + (n - 1))) as [-> _]; [lia|].
    destruct (Z.eqb_spec (0 + (n - 1)) (n - 1)); lia.
  - intros o (i & -> & Hi%elem_of_seqZ)%list_elem_of_fmap. apply Hq. lia.
  - unfold plan. rewrite <- list_fmap_compose.
    apply NoDup_fmap_2_strong; [|apply NoDup_seqZ].
    intros i j Hi%elem_of_seqZ Hj%elem_of_seqZ. cbn.
    assert (Hnle : n ≤ models.Quantity order) by nia.
    rewrite !int64_small by lia.
    intros Heq. do 2 apply (inj _) in Heq.
    apply append_inj_r in Heq. apply (inj _) in Heq. lia.
Qed.

(** X30: for a maximum size above zero and a larger quantity (below
    2^62), [executeSplitOrder] does not panic and works through a plan of
    at least two orders with pairwise distinct ids whose quantities lie
    between 1 and the maximum size and sum to the order's quantity; every
    broker call is for an order of the plan; a result flagged successful
    comes with a nil error and an error comes with executed quantity 0;
    when the limiter never refuses and the broker executes every order in
    full, the broker is called once per order of the plan, in order, and
    the aggregate reports success with the whole quantity executed. *)
Theorem executeSplitOrder_follows_plan w order maxSize maxRetries now step :
  0 < maxSize →
  maxSize < models.Quantity order < 2 ^ 62 →
  let n := (models.Quantity order + maxSize - 1) `div` maxSize in
  let plan := retry.splitOrder order maxSize n <$> seqZ 0 n in
  2 ≤ n
  ∧ total_quantity plan = models.Quantity order
  ∧ (∀ o, o ∈ plan → 1 ≤ models.Quantity o ≤ maxSize)
  ∧ NoDup (models.ID <$> plan)
  ∧ ∃ res err step' tr,
      retry.executeSplitOrder w maxSize order maxRetries now step
      = Some ((res, err), (step', tr))
      ∧ (∀ o, o ∈ retry_calls tr → o ∈ plan)
      ∧ models.OrderID res = models.ID order
      ∧ (models.Success res = true → err = None)
      ∧ (err ≠ None → models.ExecutedQuantity res = 0)
      ∧ (0 ≤ maxRetries →
         (∀ k, retry.wait w k = None) →
         (∀ k o, (retry.execute w k o).2 = None
                 ∧ models.ExecutedQuantity (retry.execute w k o).1 = models.Quantity o) →
         retry_calls tr = plan
         ∧ err = None
         ∧ models.Success res = true
         ∧ models.ExecutedQuantity res = models.Quantity order).
Proof.
  intros Hm HQ n plan.
  destruct (split_plan order maxSize Hm HQ) as (Hn2 & _ & Hsum & Hrange & Hids).
  fold n in Hn2, Hsum, Hrange, Hids. fold plan in Hsum, Hrange, Hids.
  split; [done|]. split; [done|]. split; [done|]. split; [done|].
  unfold retry.executeSplitOrder.
  destruct (Z.eqb_spec maxSize 0); [lia|].
  destruct (numSplits_value (models.Quantity order) maxSize Hm HQ) as (-> & _ & _).
  fold n.
  set (t0 := {| retry.allResults := []; retry.totalExecutedQuantity := 0;
                retry.totalExecutedPrice := S754_zero false; retry.hasError := false;
                retry.lastError := None |}).
  pose proof (splits_accepted w order maxRetries maxSize n (seqZ 0 n)) as Hgood.
  pose proof (splits_calls w order maxRetries maxSize n (seqZ 0 n) t0 step) as Hcalls.
  destruct (retry.splits w order maxRetries maxSize n (seqZ 0 n) t0 step)
    as [t [step' tr]] eqn:Hloop.
  specialize (Hcalls _ _ _ eq_refl).
  assert (Hhappy : 0 ≤ maxRetries →
    (∀ k, retry.wait w k = None) →
    (∀ k o, (retry.execute w k o).2 = None
            ∧ models.ExecutedQuantity (retry.execute w k o).1 = models.Quantity o) →
    retry_calls tr = plan
    ∧ retry.lastError t = None ∧ retry.hasError t = false
    ∧ retry.totalExecutedQuantity t = models.Quantity order).
  { intros Hmax Hwait Hexec.
    destruct (Hgood Hmax Hwait Hexec t0 step) as (Hqty & Herr & Hlast & Htr).
    - done.
    - intros i Hi%elem_of_seqZ.
      pose proof (Hrange (retry.splitOrder order maxSize n i)) as Hr.
      cbn [retry.splitOrder models.Quantity] in Hr.
      assert (retry.splitOrder order maxSize n i ∈ plan)
        by (apply list_elem_of_fmap_2, elem_of_seqZ; lia).
      specialize (Hr ltac:(done)). lia.
    - fold plan. rewrite Hsum. cbn. lia.
    - rewrite Hloop in Hqty, Herr, Hlast, Htr. cbn [fst snd] in *.
      fold plan in Hqty, Htr. rewrite Hsum in Hqty. cbn in Hqty.
      split; [done|]. split; [done|]. split; [done|lia]. }
  destruct (retry.lastError t) as [lastErr|] eqn:Hlast.
  - destruct (Z.eqb_spec (retry.totalExecutedQuantity t) 0) as [Hzero|Hsome].
    + eexists _, _, _, _. split; [reflexivity|]. cbn.
      split; [done|]. split; [done|].
      split; [rewrite Hzero; by rewrite andb_false_r|].
      split; [done|].
      intros Hmax Hwait Hexec. by destruct (Hhappy Hmax Hwait Hexec) as (_ & ? & _).
    + eexists _, _, _, _. split; [reflexivity|]. cbn.
      split; [done|]. split; [done|]. split; [done|]. split; [done|].
      intros Hmax Hwait Hexec. by destruct (Hhappy Hmax Hwait Hexec) as (_ & ? & _).
  - eexists _, _, _, _. split; [reflexivity|]. cbn.
    split; [done|]. split; [done|]. split; [done|]. split; [done|].
    intros Hmax Hwait Hexec.
    destruct (Hhappy Hmax Hwait Hexec) as (Htr & _ & Herr & Hqty).
    split; [done|]. split; [done|]. rewrite Herr, Hqty. split; [|done].
    cbn. apply Z.ltb_lt. lia.
Qed.

Lemma executeSplitOrder_follows_plan_witness :
  let order := {| models.ID := "XYZ:2025-03-10T18:00:00+05:30"; models.Symbol := "XYZ";
                  models.Exchange := "NSE"; models.Price := S754_finite false 100 0;
                  models.Quantity := 2500; models.OrderType := "LIMIT";
                  models.Side := "Buy"; models.ScheduledTime := monday_6pm;
                  models.CreatedAt := monday_6pm; models.IsAMO := true |} in
  let w := {| retry.wait := λ _, None;
              retry.execute := λ _ o, broker.execute accepting_broker o;
              retry.cancelled := λ _, false |} in
  ∃ res step' tr,
    retry.executeSplitOrder w 1000 order 3 0 0 = Some ((res, None), (step', tr))
    ∧ models.Quantity <$> retry_calls tr = [1000; 1000; 500]
    ∧ models.ExecutedQuantity res = 2500.
Proof.
  intros order w.
  destruct (executeSplitOrder_follows_plan w order 1000 3 0 0)
    as (_ & _ & _ & _ & res & err & step' & tr & Hrun & _ & _ & _ & _ & Hhappy).
  - lia.
  - cbn. lia.
  - destruct Hhappy as (Htr & -> & _ & Hqty); [lia|done|done|].
    exists res, step', tr. split; [exact Hrun|]. split; [|exact Hqty].
    rewrite Htr. by vm_compute.
Defined.
